(** * A shallow embedding of the grpc-js call, metadata, service-config and
      resolving-load-balancer code, with the properties its specification
      states about them.

    Layout (one module per source unit):
    - [Base64]           the runtime's Buffer base64 codec used by metadata.ts
    - [Metadata]         metadata.ts
    - [ServerCall]       server-call.ts   (Http2ServerCallStream)
    - [Server]           server.ts        (stream dispatch)
    - [ServiceConfig]    service-config.ts
    - [CallStream]       call-stream.ts   (Http2CallStream, client side)
    - [ResolvingLB]      resolving-load-balancer.ts

    JavaScript strings are modelled as [string] (8-bit code units), Buffers
    as [list byte], Map objects as [gmap], plain objects that are iterated
    in key order as association lists, exceptions as the [Throw] branch of
    [result], and event-driven objects as explicit state records with one
    function per event handler. *)

From Stdlib Require Import ZArith NArith Strings.Byte Ascii String QArith_base Lia.
From Stdlib Require Import Floats.SpecFloat.
From stdpp Require Import gmap strings list fin_maps.

Local Open Scope string_scope.
Local Open Scope list_scope.

(** ** Exceptions *)

Inductive result (A : Type) : Type :=
| Ok (a : A)
| Throw (msg : string).
Arguments Ok {A} a.
Arguments Throw {A} msg.

Definition rbind {A B} (r : result A) (k : A → result B) : result B :=
  match r with
  | Ok a => k a
  | Throw e => Throw e
  end.

Notation "'do' x <- r ; k" := (rbind r (fun x => k))
  (at level 10, x name, r at level 100, k at level 200).

Definition is_throw {A} (r : result A) : bool :=
  match r with Throw _ => true | Ok _ => false end.

(** ** Status codes (constants.ts) *)

Module Status.
Definition OK : Z := 0.
Definition CANCELLED : Z := 1.
Definition UNKNOWN : Z := 2.
Definition INVALID_ARGUMENT : Z := 3.
Definition DEADLINE_EXCEEDED : Z := 4.
Definition NOT_FOUND : Z := 5.
Definition ALREADY_EXISTS : Z := 6.
Definition PERMISSION_DENIED : Z := 7.
Definition RESOURCE_EXHAUSTED : Z := 8.
Definition FAILED_PRECONDITION : Z := 9.
Definition ABORTED : Z := 10.
Definition OUT_OF_RANGE : Z := 11.
Definition UNIMPLEMENTED : Z := 12.
Definition INTERNAL : Z := 13.
Definition UNAVAILABLE : Z := 14.
Definition DATA_LOSS : Z := 15.
Definition UNAUTHENTICATED : Z := 16.
End Status.

(** ** Character helpers *)

Definition code (c : ascii) : Z := Z.of_N (N_of_ascii c).

Definition in_range (lo hi : Z) (c : ascii) : bool :=
  ((lo <=? code c) && (code c <=? hi))%Z.

Definition chars (s : string) : list ascii := list_ascii_of_string s.
Definition str (l : list ascii) : string := string_of_list_ascii l.

(** [\d] *)
Definition is_digit (c : ascii) : bool := in_range 48 57 c.

(** [\s], restricted to 8-bit code units: TAB LF VT FF CR SP NBSP. *)
Definition is_space (c : ascii) : bool :=
  in_range 9 13 c || (code c =? 32)%Z || (code c =? 160)%Z.

(** [String.prototype.toLowerCase] on the ASCII letters. *)
Definition lower (c : ascii) : ascii :=
  if in_range 65 90 c then ascii_of_N (N_of_ascii c + 32) else c.

(** Length of the longest prefix whose characters satisfy [p]: what a
    greedy [p*] first takes. *)
Fixpoint count_while (p : ascii → bool) (l : list ascii) : nat :=
  match l with
  | c :: l' => if p c then S (count_while p l') else O
  | [] => O
  end.

Lemma str_chars_id s : str (chars s) = s.
Proof. apply string_of_list_ascii_of_string. Qed.

(** [String.prototype.trim] *)
Fixpoint drop_space (l : list ascii) : list ascii :=
  match l with
  | c :: l' => if is_space c then drop_space l' else l
  | [] => []
  end.

Definition trim (s : string) : string :=
  str (reverse (drop_space (reverse (drop_space (chars s))))).

(** [String.prototype.split(',')] *)
Fixpoint split_comma (s : string) : list string :=
  match s with
  | EmptyString => [EmptyString]
  | String c s' =>
      let r := split_comma s' in
      if Ascii.eqb c "," then EmptyString :: r
      else match r with
           | h :: t => String c h :: t
           | [] => [String c EmptyString]
           end
  end.

(** [String.prototype.endsWith] *)
Definition endsWith (s suffix : string) : bool :=
  let n := String.length s in
  let k := String.length suffix in
  (k <=? n)%nat && String.eqb (substring (n - k) k s) suffix.

(** [String.prototype.startsWith] *)
Definition startsWith (s pre : string) : bool :=
  String.eqb (substring 0 (String.length pre) s) pre.

(** [Array.prototype.join] *)
Definition join (sep : string) (l : list string) : string := String.concat sep l.

(** ** The runtime's base64 codec: [buf.toString('base64')] and
    [Buffer.from(s, 'base64')].  The encoder emits the standard alphabet
    with [=] padding; the decoder accepts the standard and the URL-safe
    alphabet, skips every other character and stops at the first [=]. *)

Module Base64.
Local Open Scope Z_scope.

Definition byteZ (b : byte) : Z := Z.of_N (Byte.to_N b).
Definition Zbyte (n : Z) : byte := default x00 (Byte.of_N (Z.to_N n)).

Definition char_of_sextet (n : Z) : ascii :=
  ascii_of_N (Z.to_N
    (if n <? 26 then n + 65
     else if n <? 52 then n + 71
     else if n <? 62 then n - 4
     else if n =? 62 then 43 else 47)).

Definition sextet_of_char (c : ascii) : option Z :=
  let n := code c in
  if (65 <=? n) && (n <=? 90) then Some (n - 65)
  else if (97 <=? n) && (n <=? 122) then Some (n - 71)
  else if (48 <=? n) && (n <=? 57) then Some (n + 4)
  else if (n =? 43) || (n =? 45) then Some 62
  else if (n =? 47) || (n =? 95) then Some 63
  else None.

Fixpoint sextets_of_bytes (l : list byte) : list Z :=
  match l with
  | b1 :: b2 :: b3 :: rest =>
      let n := byteZ b1 * 65536 + byteZ b2 * 256 + byteZ b3 in
      n / 262144 :: (n / 4096) mod 64 :: (n / 64) mod 64 :: n mod 64
        :: sextets_of_bytes rest
  | [b1; b2] =>
      let n := byteZ b1 * 1024 + byteZ b2 * 4 in
      [n / 4096; (n / 64) mod 64; n mod 64]
  | [b1] =>
      let n := byteZ b1 * 16 in
      [n / 64; n mod 64]
  | [] => []
  end.

Definition padding (l : list byte) : string :=
  match (length l mod 3)%nat with
  | 1%nat => "=="
  | 2%nat => "="
  | _ => ""
  end.

Definition encode (l : list byte) : string :=
  str (map char_of_sextet (sextets_of_bytes l)) +:+ padding l.

Fixpoint sextets_of_string (s : string) : list Z :=
  match s with
  | EmptyString => []
  | String c s' =>
      if Ascii.eqb c "=" then []
      else match sextet_of_char c with
           | Some n => n :: sextets_of_string s'
           | None => sextets_of_string s'
           end
  end.

Fixpoint bytes_of_sextets (l : list Z) : list byte :=
  match l with
  | s1 :: s2 :: s3 :: s4 :: rest =>
      let n := s1 * 262144 + s2 * 4096 + s3 * 64 + s4 in
      Zbyte (n / 65536) :: Zbyte ((n / 256) mod 256) :: Zbyte (n mod 256)
        :: bytes_of_sextets rest
  | [s1; s2; s3] =>
      let n := s1 * 4096 + s2 * 64 + s3 in
      [Zbyte (n / 1024); Zbyte ((n / 4) mod 256)]
  | [s1; s2] =>
      let n := s1 * 64 + s2 in
      [Zbyte (n / 16)]
  | _ => []
  end.

Definition decode (s : string) : list byte :=
  bytes_of_sextets (sextets_of_string s).

Example encode_hello :
  encode [x68; x65; x6c; x6c; x6f] = "aGVsbG8=".
Proof. reflexivity. Qed.

Example decode_hello_unpadded :
  decode "aGVsbG8" = [x68; x65; x6c; x6c; x6f].
Proof. reflexivity. Qed.

(** Induction three elements at a time, as the encoder recurses. *)
Lemma list_ind3 {A} (P : list A → Prop) :
  P [] → (∀ a, P [a]) → (∀ a b, P [a; b]) →
  (∀ a b c l, P l → P (a :: b :: c :: l)) →
  ∀ l, P l.
Proof.
  intros H0 H1 H2 H3.
  assert (H : ∀ l, P l ∧ (∀ a, P (a :: l)) ∧ (∀ a b, P (a :: b :: l))).
  { induction l as [|x l (IH0 & IH1 & IH2)]; [by auto|].
    repeat split; auto. }
  intros l. apply H.
Qed.

Lemma byteZ_range b : 0 <= byteZ b < 256.
Proof.
  unfold byteZ. pose proof (Byte.to_N_bounded b) as Hb. lia.
Qed.

Lemma Zbyte_byteZ b : Zbyte (byteZ b) = b.
Proof.
  unfold Zbyte, byteZ. by rewrite N2Z.id, Byte.of_to_N.
Qed.

Lemma sextet_char_inv n :
  0 <= n < 64 →
  sextet_of_char (char_of_sextet n) = Some n ∧
  Ascii.eqb (char_of_sextet n) "=" = false.
Proof.
  intros Hn.
  assert (Hall : forallb
            (fun k => match sextet_of_char (char_of_sextet k) with
                      | Some m => m =? k
                      | None => false
                      end && negb (Ascii.eqb (char_of_sextet k) "="))
            (map Z.of_nat (seq 0 64)) = true) by (vm_compute; reflexivity).
  rewrite forallb_forall in Hall.
  specialize (Hall n). rewrite in_map_iff in Hall.
  assert (Hin : ∃ x, Z.of_nat x = n ∧ In x (seq 0 64)).
  { exists (Z.to_nat n). rewrite in_seq. lia. }
  apply Hall in Hin. apply andb_prop in Hin as [Hs He].
  destruct (sextet_of_char (char_of_sextet n)) as [m|]; [|done].
  apply Z.eqb_eq in Hs. subst m.
  by apply negb_true_iff in He.
Qed.

Lemma sextets_range l : Forall (fun n => 0 <= n < 64) (sextets_of_bytes l).
Proof.
  induction l as [|a|a b|a b c l IH] using list_ind3; simpl.
  - constructor.
  - pose proof (byteZ_range a).
    repeat constructor; try lia;
      try (apply Z.div_pos; lia);
      try (apply Z.div_lt_upper_bound; lia);
      try (apply Z.mod_pos_bound; lia).
  - pose proof (byteZ_range a). pose proof (byteZ_range b).
    repeat constructor; try lia;
      try (apply Z.div_pos; lia);
      try (apply Z.div_lt_upper_bound; lia);
      try (apply Z.mod_pos_bound; lia).
  - pose proof (byteZ_range a). pose proof (byteZ_range b).
    pose proof (byteZ_range c).
    repeat constructor; try lia;
      try (apply Z.div_pos; lia);
      try (apply Z.div_lt_upper_bound; lia);
      try (apply Z.mod_pos_bound; lia).
    exact IH.
Qed.

Lemma sextets_of_string_encoded ss pad :
  Forall (fun n => 0 <= n < 64) ss →
  pad = "" ∨ pad = "=" ∨ pad = "==" →
  sextets_of_string (str (map char_of_sextet ss) +:+ pad) = ss.
Proof.
  intros Hss Hpad. induction Hss as [|n ss Hn _ IH]; simpl.
  - by destruct Hpad as [->|[->| ->]].
  - destruct (sextet_char_inv n Hn) as [-> ->]. by rewrite IH.
Qed.

Lemma Zbyte_eq b n : n = byteZ b → Zbyte n = b.
Proof. intros ->. apply Zbyte_byteZ. Qed.

Lemma bytes_of_sextets_of_bytes l : bytes_of_sextets (sextets_of_bytes l) = l.
Proof.
  induction l as [|a|a b|a b c l IH] using list_ind3; simpl.
  - done.
  - pose proof (byteZ_range a).
    set (n := byteZ a * 16).
    assert (Hn : n / 64 * 64 + n mod 64 = n)
      by (pose proof (Z.div_mod n 64 ltac:(lia)); lia).
    rewrite Hn. subst n. f_equal. apply Zbyte_eq.
    symmetry. apply Z.div_unique with (r := 0); lia.
  - pose proof (byteZ_range a). pose proof (byteZ_range b).
    set (n := byteZ a * 1024 + byteZ b * 4).
    assert (Hn : n / 4096 * 4096 + (n / 64) mod 64 * 64 + n mod 64 = n).
    { pose proof (Z.div_mod n 64 ltac:(lia)).
      pose proof (Z.div_mod (n / 64) 64 ltac:(lia)).
      replace (n / 4096) with (n / 64 / 64)
        by (rewrite Z.div_div by lia; done).
      lia. }
    rewrite Hn. subst n. f_equal; [|f_equal]; apply Zbyte_eq.
    + symmetry. apply Z.div_unique with (r := byteZ b * 4); lia.
    + replace ((byteZ a * 1024 + byteZ b * 4) / 4) with (byteZ a * 256 + byteZ b)
        by (apply Z.div_unique with (r := 0); lia).
      symmetry. apply Z.mod_unique with (q := byteZ a); lia.
  - pose proof (byteZ_range a). pose proof (byteZ_range b).
    pose proof (byteZ_range c).
    rewrite IH.
    set (n := byteZ a * 65536 + byteZ b * 256 + byteZ c).
    assert (Hn : n / 262144 * 262144 + (n / 4096) mod 64 * 4096
                 + (n / 64) mod 64 * 64 + n mod 64 = n).
    { pose proof (Z.div_mod n 64 ltac:(lia)).
      pose proof (Z.div_mod (n / 64) 64 ltac:(lia)).
      pose proof (Z.div_mod (n / 64 / 64) 64 ltac:(lia)).
      replace (n / 262144) with (n / 64 / 64 / 64)
        by (rewrite !Z.div_div by lia; done).
      replace (n / 4096) with (n / 64 / 64)
        by (rewrite Z.div_div by lia; done).
      pose proof (Z.mod_small (n / 64 / 64 / 64) 64) as Hs.
      assert (0 <= n / 64 / 64 / 64 < 64).
      { rewrite !Z.div_div by lia. split.
        - apply Z.div_pos; lia.
        - apply Z.div_lt_upper_bound; lia. }
      lia. }
    rewrite Hn. subst n. f_equal; [|f_equal; [|f_equal]]; apply Zbyte_eq.
    + symmetry. apply Z.div_unique with (r := byteZ b * 256 + byteZ c); lia.
    + replace ((byteZ a * 65536 + byteZ b * 256 + byteZ c) / 256)
        with (byteZ a * 256 + byteZ b)
        by (apply Z.div_unique with (r := byteZ c); lia).
      symmetry. apply Z.mod_unique with (q := byteZ a); lia.
    + symmetry. apply Z.mod_unique with (q := byteZ a * 256 + byteZ b); lia.
Qed.

(** [Buffer.from(buf.toString('base64'), 'base64')] has the bytes of [buf]. *)
Lemma decode_encode l : decode (encode l) = l.
Proof.
  unfold decode, encode.
  rewrite sextets_of_string_encoded.
  - apply bytes_of_sextets_of_bytes.
  - apply sextets_range.
  - unfold padding. destruct (length l mod 3)%nat as [|[|[|?]]]; auto.
Qed.
End Base64.

(** ** metadata.ts *)

Module Metadata.

Definition dquote : string := String "034"%char EmptyString.

Inductive MetadataValue : Type :=
| VString (s : string)
| VBuffer (b : list byte).

Record MetadataOptions : Type := {
  idempotentRequest : option bool;
  waitForReady : option bool;
  cacheableRequest : option bool;
  corked : option bool
}.

(** The options object [{}] of [new Metadata()]. *)
Definition no_options : MetadataOptions :=
  {| idempotentRequest := None; waitForReady := None;
     cacheableRequest := None; corked := None |}.

Record t : Type := mk {
  internalRepr : gmap string (list MetadataValue);
  options : MetadataOptions
}.

Definition new : t := mk ∅ no_options.

Definition with_repr (m : t) (r : gmap string (list MetadataValue)) : t :=
  mk r (options m).

(** [LEGAL_KEY_REGEX = /^[0-9a-z_.-]+$/] *)
Definition legal_key_char (c : ascii) : bool :=
  is_digit c || in_range 97 122 c
  || (code c =? 95)%Z || (code c =? 46)%Z || (code c =? 45)%Z.

Definition isLegalKey (key : string) : bool :=
  match chars key with
  | [] => false
  | l => forallb legal_key_char l
  end.

(** [LEGAL_NON_BINARY_VALUE_REGEX = /^[ -~]*$/] *)
Definition isLegalNonBinaryValue (value : string) : bool :=
  forallb (in_range 32 126) (chars value).

Definition isBinaryKey (key : string) : bool := endsWith key "-bin".

Definition normalizeKey (key : string) : string := str (map lower (chars key)).

Definition validate (key : string) (value : option MetadataValue) : result unit :=
  if negb (isLegalKey key) then
    Throw ("Metadata key " +:+ dquote +:+ key +:+ dquote
           +:+ " contains illegal characters")
  else
    match value with
    | None => Ok tt
    | Some v =>
        if isBinaryKey key then
          match v with
          | VBuffer _ => Ok tt
          | VString _ => Throw "keys that end with '-bin' must have Buffer values"
          end
        else
          match v with
          | VBuffer _ =>
              Throw "keys that don't end with '-bin' must have String values"
          | VString s =>
              if negb (isLegalNonBinaryValue s) then
                Throw ("Metadata string value " +:+ dquote +:+ s +:+ dquote
                       +:+ " contains illegal characters")
              else Ok tt
          end
    end.

Definition set (key : string) (value : MetadataValue) (m : t) : result t :=
  let key := normalizeKey key in
  do _ <- validate key (Some value);
  Ok (with_repr m (<[key := [value]]> (internalRepr m))).

Definition add (key : string) (value : MetadataValue) (m : t) : result t :=
  let key := normalizeKey key in
  do _ <- validate key (Some value);
  match internalRepr m !! key with
  | None => Ok (with_repr m (<[key := [value]]> (internalRepr m)))
  | Some existingValue =>
      Ok (with_repr m (<[key := existingValue ++ [value]]> (internalRepr m)))
  end.

Definition remove (key : string) (m : t) : result t :=
  let key := normalizeKey key in
  do _ <- validate key None;
  Ok (with_repr m (delete key (internalRepr m))).

Definition get (key : string) (m : t) : result (list MetadataValue) :=
  let key := normalizeKey key in
  do _ <- validate key None;
  Ok (default [] (internalRepr m !! key)).

Definition merge (other : t) (m : t) : t :=
  with_repr m
    (union_with (fun mine theirs => Some (mine ++ theirs))
                (internalRepr m) (internalRepr other)).

Definition clone (m : t) : t := mk (internalRepr m) no_options.

(** A header object: the keys in [Object.keys] order, each with a string,
    an array of strings, or [undefined]. *)
Inductive HeaderValue : Type :=
| HString (s : string)
| HArray (l : list string)
| HUndefined.

Definition Headers : Type := list (string * HeaderValue).

Definition toWire (value : MetadataValue) : string :=
  match value with
  | VBuffer b => Base64.encode b
  | VString s => s
  end.

(** [result[key] = value] on an object created by [{}], for an array
    [value]: an ordinary key becomes (or updates) an own property; the key
    [__proto__] reaches the setter inherited from [Object.prototype], which
    makes the array the prototype of [result] and creates no own property,
    so [Object.keys] never shows it. *)
Fixpoint set_own (key : string) (value : HeaderValue) (obj : Headers) : Headers :=
  match obj with
  | [] => [(key, value)]
  | (k, v) :: rest =>
      if String.eqb k key then (k, value) :: rest
      else (k, v) :: set_own key value rest
  end.

Definition assign_property (obj : Headers) (key : string) (value : HeaderValue)
  : Headers :=
  if String.eqb key "__proto__" then obj else set_own key value obj.

(** [this.internalRepr.forEach] visits the entries in the Map's insertion
    order, which a [gmap] does not record: [map_to_list] stands for it, and
    the round-trip lemmas below hold for every order of the entries
    ([fromHttp2Headers_entries]). *)
Definition toHttp2Headers (m : t) : Headers :=
  fold_left (fun result kv => assign_property result kv.1 (HArray (map toWire kv.2)))
            (map_to_list (internalRepr m)) [].

Definition fromWire (binary : bool) (v : string) : MetadataValue :=
  if binary then VBuffer (Base64.decode v) else VString v.

(** [values.forEach(value => result.add(key, ...))] inside the [try]: the
    first throwing [add] abandons the remaining values. *)
Fixpoint add_each (key : string) (vs : list MetadataValue) (m : t)
  : t * option string :=
  match vs with
  | [] => (m, None)
  | v :: vs' =>
      match add key v m with
      | Ok m' => add_each key vs' m'
      | Throw e => (m, Some e)
      end
  end.

(** [`${values}`] *)
Definition show_header (v : HeaderValue) : string :=
  match v with
  | HString s => s
  | HArray l => join "," l
  | HUndefined => "undefined"
  end.

Definition charAt0 (s : string) : string :=
  match s with
  | EmptyString => EmptyString
  | String c _ => String c EmptyString
  end.

(** One iteration of [Object.keys(headers).forEach]; the second component
    collects the messages handed to [process.emitWarning]. *)
Definition from_entry (acc : t * list string) (kv : string * HeaderValue)
  : t * list string :=
  let key := kv.1 in
  let values := kv.2 in
  if String.eqb (charAt0 key) ":" then acc
  else
    let binary := isBinaryKey key in
    let to_add :=
      match values with
      | HArray l => map (fromWire binary) l
      | HString s => map (fun v => fromWire binary (trim v)) (split_comma s)
      | HUndefined => []
      end in
    match add_each key to_add acc.1 with
    | (r, None) => (r, acc.2)
    | (r, Some e) =>
        (r, acc.2 ++ ["Failed to add metadata entry " +:+ key +:+ ": "
                      +:+ show_header values +:+ ". " +:+ e])
    end.

Definition fromHttp2Headers (headers : Headers) : t * list string :=
  fold_left from_entry headers (new, []).

(** Legality as the specification words it. *)
Definition legal_value (key : string) (v : MetadataValue) : Prop :=
  match v with
  | VString s => isBinaryKey key = false ∧ isLegalNonBinaryValue s = true
  | VBuffer _ => isBinaryKey key = true
  end.

Definition legal_entry (key : string) (vs : list MetadataValue) : Prop :=
  isLegalKey key = true ∧ vs ≠ [] ∧ Forall (legal_value key) vs.

Definition legal (m : t) : Prop := map_Forall legal_entry (internalRepr m).

Example binary_comma_joined :
  (fromHttp2Headers [("trace-bin", HString "aGVsbG8=, AAEC")]).1
  = mk {[ "trace-bin" := [VBuffer [x68; x65; x6c; x6c; x6f];
                          VBuffer [x00; x01; x02]] ]} no_options.
Proof. vm_compute. reflexivity. Qed.

Example pseudo_header_skipped :
  fromHttp2Headers [(":path", HString "/a/b"); ("k", HArray ["v, w"])]
  = (mk {[ "k" := [VString "v, w"] ]} no_options, []).
Proof. vm_compute. reflexivity. Qed.

(** *** Round trip through the HTTP/2 header form *)

Lemma lower_legal c : legal_key_char c = true → lower c = c.
Proof.
  unfold legal_key_char, lower, is_digit, in_range. intros H.
  destruct ((65 <=? code c)%Z && (code c <=? 90)%Z) eqn:E; [|done].
  exfalso. lia.
Qed.

Lemma normalizeKey_legal key : isLegalKey key = true → normalizeKey key = key.
Proof.
  unfold isLegalKey, normalizeKey. intros H.
  assert (Hall : forallb legal_key_char (chars key) = true)
    by (destruct (chars key); done).
  rewrite <- (str_chars_id key) at 2. f_equal.
  clear H. induction (chars key) as [|c l IH]; [done|].
  simpl in *. apply andb_prop in Hall as [Hc Hl].
  by rewrite lower_legal, IH.
Qed.

Lemma legal_key_not_pseudo key :
  isLegalKey key = true → String.eqb (charAt0 key) ":" = false.
Proof.
  unfold isLegalKey. destruct key as [|c key]; [done|]. simpl.
  intros [Hc _]%andb_prop.
  destruct (Ascii.eqb_spec c ":") as [->|_]; [|done].
  by vm_compute in Hc.
Qed.

Lemma validate_legal key v :
  isLegalKey key = true → legal_value key v → validate key (Some v) = Ok tt.
Proof.
  intros Hk Hv. unfold validate. rewrite Hk. simpl.
  destruct v as [s|b]; simpl in Hv.
  - destruct Hv as [-> ->]. done.
  - by rewrite Hv.
Qed.

Lemma add_legal_key key v m :
  isLegalKey key = true → legal_value key v →
  add key v m
  = Ok (with_repr m (<[key := default [] (internalRepr m !! key) ++ [v]]>
                       (internalRepr m))).
Proof.
  intros Hk Hv. unfold add. rewrite (normalizeKey_legal _ Hk).
  rewrite (validate_legal _ _ Hk Hv). simpl.
  by destruct (internalRepr m !! key).
Qed.

Lemma add_each_legal key vs m :
  isLegalKey key = true → Forall (legal_value key) vs → vs ≠ [] →
  add_each key vs m
  = (with_repr m (<[key := default [] (internalRepr m !! key) ++ vs]>
                    (internalRepr m)), None).
Proof.
  intros Hk Hvs. revert m. induction Hvs as [|v vs Hv Hvs IH]; [done|].
  intros m _. simpl. rewrite (add_legal_key _ _ _ Hk Hv).
  destruct vs as [|v' vs']; [done|].
  rewrite IH by done. unfold with_repr. simpl.
  rewrite lookup_insert_eq. simpl.
  by rewrite insert_insert_eq, <- app_assoc.
Qed.

Lemma fromWire_toWire key vs :
  Forall (legal_value key) vs →
  map (fromWire (isBinaryKey key)) (map toWire vs) = vs.
Proof.
  induction 1 as [|v vs Hv _ IH]; [done|]. simpl. rewrite IH. f_equal.
  destruct v as [s|b]; simpl in *.
  - destruct Hv as [-> _]. done.
  - rewrite Hv. simpl. by rewrite Base64.decode_encode.
Qed.

Lemma from_entry_legal key vs acc w :
  legal_entry key vs → internalRepr acc !! key = None →
  from_entry (acc, w) (key, HArray (map toWire vs))
  = (with_repr acc (<[key := vs]> (internalRepr acc)), w).
Proof.
  intros (Hk & Hne & Hvs) Hacc. unfold from_entry. simpl.
  rewrite (legal_key_not_pseudo _ Hk), (fromWire_toWire _ _ Hvs).
  rewrite (add_each_legal _ _ _ Hk Hvs Hne). by rewrite Hacc.
Qed.

Lemma fold_from_entry_legal (l : list (string * list MetadataValue)) acc w :
  NoDup l.*1 →
  Forall (fun kv => legal_entry kv.1 kv.2) l →
  (∀ k, k ∈ l.*1 → internalRepr acc !! k = None) →
  fold_left from_entry (map (fun kv => (kv.1, HArray (map toWire kv.2))) l) (acc, w)
  = (with_repr acc (list_to_map l ∪ internalRepr acc), w).
Proof.
  revert acc. induction l as [|[k vs] l IH]; intros acc Hnd Hl Hacc.
  - simpl. rewrite (left_id_L ∅ (∪)). by destruct acc.
  - simpl in *. apply NoDup_cons in Hnd as [Hk Hnd].
    apply Forall_cons in Hl as [Hkv Hl].
    rewrite (from_entry_legal k vs acc w Hkv) by (apply Hacc; left).
    rewrite IH; [|done|done|].
    + unfold with_repr. simpl. do 2 f_equal.
      rewrite <- insert_union_l. symmetry. apply insert_union_r.
      by apply not_elem_of_list_to_map_1.
    + intros k' Hk'. simpl. rewrite lookup_insert_ne by (intros ->; done).
      apply Hacc. by right.
Qed.

Lemma fromHttp2Headers_entries (l : list (string * list MetadataValue)) headers :
  NoDup l.*1 → Forall (fun kv => legal_entry kv.1 kv.2) l →
  headers ≡ₚ map (fun kv => (kv.1, HArray (map toWire kv.2))) l →
  fromHttp2Headers headers = (mk (list_to_map l) no_options, []).
Proof.
  intros Hnd Hl Hp.
  apply Permutation_map_inv in Hp as (l' & -> & Hl').
  unfold fromHttp2Headers. rewrite fold_from_entry_legal.
  - unfold with_repr, new. simpl. rewrite (right_id_L ∅ (∪)).
    by rewrite (list_to_map_proper _ _ Hnd Hl').
  - by rewrite <- Hl'.
  - by rewrite <- Hl'.
  - intros k _. apply lookup_empty.
Qed.

(** The own properties [toHttp2Headers] leaves on its result. *)
Definition own_entries (m : t) : list (string * list MetadataValue) :=
  filter (fun kv => kv.1 ≠ "__proto__") (map_to_list (internalRepr m)).

Lemma set_own_fresh key value obj :
  key ∉ obj.*1 → set_own key value obj = obj ++ [(key, value)].
Proof.
  induction obj as [|[k v] obj IH]; simpl; [done|].
  intros Hk. apply not_elem_of_cons in Hk as [Hne Hk].
  destruct (String.eqb_spec k key) as [->|_]; [done|]. by rewrite IH.
Qed.

Lemma toHttp2Headers_own m :
  toHttp2Headers m
  = map (fun kv => (kv.1, HArray (map toWire kv.2))) (own_entries m).
Proof.
  unfold toHttp2Headers, own_entries.
  pose proof (NoDup_fst_map_to_list (internalRepr m)) as Hnd.
  set (f := fun kv : string * list MetadataValue => (kv.1, HArray (map toWire kv.2))).
  assert (Hgen : ∀ l acc,
    NoDup (acc.*1 ++ l.*1) →
    fold_left (fun result kv => assign_property result kv.1 (HArray (map toWire kv.2)))
              l (map f acc)
    = map f (acc ++ filter (fun kv => kv.1 ≠ "__proto__") l)).
  { induction l as [|[k vs] l IH]; intros acc Hacc; simpl.
    - by rewrite app_nil_r.
    - simpl in Hacc. unfold assign_property at 2. simpl.
      assert (Hk : k ∉ acc.*1).
      { apply NoDup_app in Hacc as (_ & Hd & _). intros Hin.
        apply (Hd k Hin). by left. }
      assert (Hnext : NoDup ((acc ++ [(k, vs)]).*1 ++ l.*1)).
      { rewrite fmap_app. simpl. by rewrite <- app_assoc. }
      destruct (String.eqb_spec k "__proto__") as [->|Hne].
      + rewrite filter_cons_False by (simpl; auto).
        apply IH. apply NoDup_app in Hacc as (Ha & Hd & Hl).
        apply NoDup_cons in Hl as [_ Hl]. apply NoDup_app. repeat split; [done| |done].
        intros x Hx Hx'. apply (Hd x Hx). by right.
      + rewrite filter_cons_True by done.
        rewrite set_own_fresh.
        * change (map f acc ++ [(k, HArray (map toWire vs))])
            with (map f acc ++ map f [(k, vs)]).
          rewrite <- map_app, (IH _ Hnext), <- app_assoc. done.
        * intros Hin. apply Hk. clear -Hin.
          induction acc as [|[k' v'] acc IH]; simpl in *; [done|].
          apply elem_of_cons in Hin as [->|Hin]; [by left|right; by apply IH]. }
  apply (Hgen _ []). simpl. done.
Qed.

Lemma own_entries_map m :
  list_to_map (own_entries m) = delete "__proto__" (internalRepr m).
Proof.
  assert (Hnd : NoDup (own_entries m).*1).
  { unfold own_entries. eapply NoDup_fmap_fst.
    - intros k v1 v2 [_ H1]%list_elem_of_filter [_ H2]%list_elem_of_filter.
      apply elem_of_map_to_list in H1, H2. congruence.
    - apply NoDup_filter, NoDup_map_to_list. }
  apply map_eq. intros k. apply option_eq. intros vs.
  rewrite <- (elem_of_list_to_map _ _ _ Hnd). unfold own_entries.
  rewrite list_elem_of_filter, elem_of_map_to_list, lookup_delete_Some. simpl.
  split; intros [? ?]; split; done.
Qed.

(** What the round trip yields for every legal object: the same entries,
    less the key [__proto__]. *)
Lemma fromHttp2Headers_toHttp2Headers_own m :
  legal m →
  fromHttp2Headers (toHttp2Headers m)
  = (mk (delete "__proto__" (internalRepr m)) no_options, []).
Proof.
  intros Hm. rewrite <- own_entries_map. apply fromHttp2Headers_entries.
  - unfold own_entries. eapply NoDup_fmap_fst.
    + intros k v1 v2 [_ H1]%list_elem_of_filter [_ H2]%list_elem_of_filter.
      apply elem_of_map_to_list in H1, H2. congruence.
    + apply NoDup_filter, NoDup_map_to_list.
  - apply Forall_forall. intros [k vs] [_ Hin]%list_elem_of_filter.
    apply elem_of_map_to_list in Hin. by apply Hm in Hin.
  - by rewrite toHttp2Headers_own.
Qed.

(** The invariant behind [legal]: every mutator of the public API keeps it,
    so each object built from [new Metadata()] is legal. *)
Lemma new_legal : legal new.
Proof. unfold legal, new. simpl. apply map_Forall_empty. Qed.

Lemma validate_ok_inv key v :
  validate key (Some v) = Ok tt → isLegalKey key = true ∧ legal_value key v.
Proof.
  unfold validate. destruct (isLegalKey key); [|done]. simpl.
  destruct (isBinaryKey key) eqn:Eb, v as [s|b]; try done; simpl.
  destruct (isLegalNonBinaryValue s); done.
Qed.

Lemma add_legal key v m m' : legal m → add key v m = Ok m' → legal m'.
Proof.
  unfold add, legal. intros Hm.
  destruct (validate (normalizeKey key) (Some v)) as [[]|] eqn:Ev; [|done].
  apply validate_ok_inv in Ev as [Hk Hv]. simpl.
  destruct (internalRepr m !! normalizeKey key) as [ex|] eqn:Ex;
    intros [= <-]; simpl; apply map_Forall_insert_2; try done.
  - destruct (Hm _ _ Ex) as (_ & _ & Hex). repeat split; [done| |].
    + by destruct ex.
    + apply Forall_app. split; [done|]. by constructor.
  - repeat split; [done|done|]. by constructor.
Qed.

Lemma set_legal key v m m' : legal m → set key v m = Ok m' → legal m'.
Proof.
  unfold set, legal. intros Hm.
  destruct (validate (normalizeKey key) (Some v)) as [[]|] eqn:Ev; [|done].
  apply validate_ok_inv in Ev as [Hk Hv]. simpl.
  intros [= <-]; simpl; apply map_Forall_insert_2; try done.
  repeat split; [done|done|]. by constructor.
Qed.

Lemma remove_legal key m m' : legal m → remove key m = Ok m' → legal m'.
Proof.
  unfold remove, legal. intros Hm.
  destruct (validate (normalizeKey key) None) as [[]|]; [|done]. simpl.
  intros [= <-]. simpl. by apply map_Forall_delete.
Qed.

(** The round trip does hold for every legal object without the key
    [__proto__]. *)
Lemma fromHttp2Headers_toHttp2Headers m :
  legal m → internalRepr m !! "__proto__" = None →
  fromHttp2Headers (toHttp2Headers m) = (mk (internalRepr m) no_options, []).
Proof.
  intros Hm Hp. rewrite (fromHttp2Headers_toHttp2Headers_own m Hm).
  by rewrite delete_id.
Qed.

Definition sample : t :=
  mk {[ "trace-bin" := [VBuffer [x00; xff; x10]; VBuffer []];
        "x-user.id_1" := [VString "a, b"; VString " padded "] ]} no_options.

Lemma sample_legal : legal sample.
Proof.
  unfold legal, sample. simpl.
  apply map_Forall_insert_2.
  - repeat split; [done|]. repeat constructor.
  - apply map_Forall_insert_2; [|apply map_Forall_empty].
    repeat split; [done|]. repeat constructor.
Qed.

Example sample_round_trip :
  fromHttp2Headers (toHttp2Headers sample) = (mk (internalRepr sample) no_options, []).
Proof. apply fromHttp2Headers_toHttp2Headers; [exact sample_legal|reflexivity]. Qed.

(** The object [new Metadata()] becomes after [set('__proto__', 'v')]. *)
Definition proto_keyed : t := mk {[ "__proto__" := [VString "v"] ]} no_options.

(** C2. The key [__proto__] is legal ([set] accepts it and the object it
    yields is legal), yet the header object [toHttp2Headers] builds for it
    has no own key, so decoding it yields an empty Metadata and not the
    object that was encoded. *)
Theorem proto_key_lost :
  isLegalKey "__proto__" = true ∧
  set "__proto__" (VString "v") new = Ok proto_keyed ∧
  legal proto_keyed ∧
  toHttp2Headers proto_keyed = [] ∧
  fromHttp2Headers (toHttp2Headers proto_keyed) = (new, []) ∧
  internalRepr new ≠ internalRepr proto_keyed.
Proof.
  split; [reflexivity|]. split; [reflexivity|]. split.
  { unfold legal, proto_keyed. simpl. apply map_Forall_insert_2.
    - repeat split; [done|]. repeat constructor.
    - apply map_Forall_empty. }
  split; [reflexivity|]. split; [reflexivity|].
  intros H. apply (f_equal (fun r => r !! "__proto__")) in H.
  by vm_compute in H.
Qed.

(** *** The laws of the public API *)

Lemma lower_idemp c : lower (lower c) = lower c.
Proof. by destruct c as [[] [] [] [] [] [] [] []]. Qed.

Lemma chars_str l : chars (str l) = l.
Proof. apply list_ascii_of_string_of_list_ascii. Qed.

Lemma normalizeKey_idemp key : normalizeKey (normalizeKey key) = normalizeKey key.
Proof.
  unfold normalizeKey. rewrite chars_str, List.map_map. f_equal.
  apply List.map_ext. intros c. apply lower_idemp.
Qed.

Lemma validate_key key : isLegalKey key = true → validate key None = Ok tt.
Proof. unfold validate. by intros ->. Qed.

Lemma get_legal key m :
  isLegalKey (normalizeKey key) = true →
  get key m = Ok (default [] (internalRepr m !! normalizeKey key)).
Proof. intros H. unfold get. by rewrite (validate_key _ H). Qed.

Lemma get_other k (r r' : gmap string (list MetadataValue)) o o' :
  r' !! normalizeKey k = r !! normalizeKey k →
  get k (mk r' o') = get k (mk r o).
Proof. intros H. unfold get. simpl. by rewrite H. Qed.

(** X1. [set] replaces: after a successful [set(key, value)], [get] under
    any spelling of the key that lower-cases to the same string returns
    exactly [[value]], whatever the key held before; every other key reads
    as before, and the options are untouched. *)
Theorem set_replaces key value m m' :
  set key value m = Ok m' →
  (∀ k, normalizeKey k = normalizeKey key → get k m' = Ok [value]) ∧
  (∀ k, normalizeKey k ≠ normalizeKey key → get k m' = get k m) ∧
  options m' = options m.
Proof.
  unfold set.
  destruct (validate (normalizeKey key) (Some value)) as [[]|] eqn:Ev; [|done].
  apply validate_ok_inv in Ev as [Hk _]. simpl. intros [= <-].
  split; [|split; [|done]].
  - intros k Hkk. rewrite get_legal by (by rewrite Hkk).
    simpl. by rewrite Hkk, lookup_insert_eq.
  - intros k Hne. destruct m as [r o]. apply get_other.
    by rewrite lookup_insert_ne.
Qed.

(** X2. [add] appends: after a successful [add(key, value)], [get] under
    any spelling of the key returns the values the key held before, in
    their order, followed by [value]; every other key reads as before. *)
Theorem add_appends key value m m' :
  add key value m = Ok m' →
  ∃ old, get key m = Ok old ∧
    (∀ k, normalizeKey k = normalizeKey key → get k m' = Ok (old ++ [value])) ∧
    (∀ k, normalizeKey k ≠ normalizeKey key → get k m' = get k m).
Proof.
  unfold add.
  destruct (validate (normalizeKey key) (Some value)) as [[]|] eqn:Ev; [|done].
  apply validate_ok_inv in Ev as [Hk _]. simpl. intros Hadd.
  exists (default [] (internalRepr m !! normalizeKey key)).
  split; [by apply get_legal|].
  assert (Hm' : m' = with_repr m
            (<[normalizeKey key := default [] (internalRepr m !! normalizeKey key)
                                   ++ [value]]> (internalRepr m))).
  { destruct (internalRepr m !! normalizeKey key); by inversion Hadd. }
  subst m'. split.
  - intros k Hkk. rewrite get_legal by (by rewrite Hkk).
    simpl. by rewrite Hkk, lookup_insert_eq.
  - intros k Hne. destruct m as [r o]. apply get_other.
    by rewrite lookup_insert_ne.
Qed.

(** X3. [remove] deletes: after a successful [remove(key)], [get] under any
    spelling of the key returns the empty list; every other key reads as
    before. *)
Theorem remove_deletes key m m' :
  remove key m = Ok m' →
  (∀ k, normalizeKey k = normalizeKey key → get k m' = Ok []) ∧
  (∀ k, normalizeKey k ≠ normalizeKey key → get k m' = get k m).
Proof.
  unfold remove.
  destruct (validate (normalizeKey key) None) as [[]|] eqn:Ev; [|done].
  assert (Hk : isLegalKey (normalizeKey key) = true).
  { unfold validate in Ev. by destruct (isLegalKey (normalizeKey key)). }
  simpl. intros [= <-]. split.
  - intros k Hkk. rewrite get_legal by (by rewrite Hkk).
    simpl. by rewrite Hkk, lookup_delete_eq.
  - intros k Hne. destruct m as [r o]. apply get_other.
    by rewrite lookup_delete_ne.
Qed.

(** X4. [merge] concatenates: after [m.merge(other)], every key reads as
    the values it had in [m] followed by the values it has in [other]; a
    key that [get] rejects is rejected with the same error as before. *)
Theorem merge_concatenates other m key :
  get key (merge other m)
  = do mine <- get key m; do theirs <- get key other; Ok (mine ++ theirs).
Proof.
  unfold get, merge.
  destruct (validate (normalizeKey key) None) as [[]|]; [|done]. simpl.
  rewrite lookup_union_with.
  destruct (internalRepr m !! normalizeKey key) as [mine|],
           (internalRepr other !! normalizeKey key) as [theirs|]; simpl;
    by rewrite ?app_nil_r.
Qed.

(** [set] and [add] accept a pair exactly when the lower-cased key
    matches the key pattern and the value fits the key: a Buffer for a key
    ending in [-bin], a string of printable ASCII otherwise.  Every other
    pair makes them throw. *)
Theorem set_add_accept key value m :
  (is_throw (set key value m) = false
   ↔ isLegalKey (normalizeKey key) = true ∧ legal_value (normalizeKey key) value) ∧
  (is_throw (add key value m) = false
   ↔ isLegalKey (normalizeKey key) = true ∧ legal_value (normalizeKey key) value).
Proof.
  assert (Hv : validate (normalizeKey key) (Some value) = Ok tt
               ↔ isLegalKey (normalizeKey key) = true
                 ∧ legal_value (normalizeKey key) value).
  { split; [apply validate_ok_inv|]. intros [? ?]. by apply validate_legal. }
  rewrite <- Hv. unfold set, add.
  destruct (validate (normalizeKey key) (Some value)) as [[]|]; simpl.
  - split; [done|]. by destruct (internalRepr m !! normalizeKey key).
  - split; split; done.
Qed.

Definition traced : t := mk {[ "x-trace" := [VString "t1"] ]} no_options.

Lemma set_replaces_witness :
  set "X-Trace" (VString "t2") traced
    = Ok (mk {[ "x-trace" := [VString "t2"] ]} no_options) ∧
  get "x-TRACE" (mk {[ "x-trace" := [VString "t2"] ]} no_options) = Ok [VString "t2"].
Proof.
  split; [reflexivity|].
  destruct (set_replaces "X-Trace" (VString "t2") traced
              (mk {[ "x-trace" := [VString "t2"] ]} no_options) eq_refl) as (H & _).
  apply H. reflexivity.
Defined.

Lemma add_appends_witness :
  add "X-Trace" (VString "t2") traced
    = Ok (mk {[ "x-trace" := [VString "t1"; VString "t2"] ]} no_options) ∧
  ∃ old, get "X-Trace" traced = Ok old ∧
         get "x-trace" (mk {[ "x-trace" := [VString "t1"; VString "t2"] ]} no_options)
         = Ok (old ++ [VString "t2"]).
Proof.
  split; [reflexivity|].
  destruct (add_appends "X-Trace" (VString "t2") traced
              (mk {[ "x-trace" := [VString "t1"; VString "t2"] ]} no_options) eq_refl)
    as (old & Hold & H & _).
  exists old. split; [exact Hold|]. apply H. reflexivity.
Defined.

Lemma remove_deletes_witness :
  remove "X-Trace" traced = Ok new ∧ get "x-trace" new = Ok [].
Proof.
  split; [reflexivity|].
  destruct (remove_deletes "X-Trace" traced new eq_refl) as (H & _).
  apply H. reflexivity.
Defined.

(** *** Legality is an invariant of the public API *)

(** The objects a program can obtain: [new Metadata(options)], the results
    of the mutators that did not throw, [clone], [setOptions] and
    [Metadata.fromHttp2Headers]. *)
Inductive reachable : t → Prop :=
| reach_new o : reachable (mk ∅ o)
| reach_set key value m m' : reachable m → set key value m = Ok m' → reachable m'
| reach_add key value m m' : reachable m → add key value m = Ok m' → reachable m'
| reach_remove key m m' : reachable m → remove key m = Ok m' → reachable m'
| reach_merge other m : reachable other → reachable m → reachable (merge other m)
| reach_clone m : reachable m → reachable (clone m)
| reach_setOptions o m : reachable m → reachable (mk (internalRepr m) o)
| reach_fromHttp2Headers headers : reachable (fromHttp2Headers headers).1.

Lemma add_each_keeps_legal key vs m : legal m → legal (add_each key vs m).1.
Proof.
  revert m. induction vs as [|v vs IH]; intros m Hm; [done|]. simpl.
  destruct (add key v m) as [m'|e] eqn:Ea; [|done].
  apply IH. by eapply add_legal.
Qed.

Lemma from_entry_keeps_legal acc kv : legal acc.1 → legal (from_entry acc kv).1.
Proof.
  intros Hm. unfold from_entry.
  destruct (String.eqb (charAt0 kv.1) ":"); [done|].
  match goal with
  | |- context [add_each ?k ?vs ?m] =>
      pose proof (add_each_keeps_legal k vs m Hm) as H;
      destruct (add_each k vs m) as [r [e|]]
  end; done.
Qed.

Lemma fromHttp2Headers_legal headers : legal (fromHttp2Headers headers).1.
Proof.
  unfold fromHttp2Headers.
  assert (H : ∀ acc, legal acc.1 → legal (fold_left from_entry headers acc).1).
  { induction headers as [|kv headers IH]; intros acc Hacc; [done|].
    simpl. apply IH. by apply from_entry_keeps_legal. }
  apply H. exact new_legal.
Qed.

Lemma merge_legal other m : legal other → legal m → legal (merge other m).
Proof.
  unfold legal, merge. intros Ho Hm key vs. simpl.
  rewrite lookup_union_with.
  destruct (internalRepr m !! key) as [mine|] eqn:Em,
           (internalRepr other !! key) as [theirs|] eqn:Eo; simpl; intros [= <-].
  - destruct (Hm _ _ Em) as (Hk & Hne & Hf), (Ho _ _ Eo) as (_ & _ & Hf').
    repeat split; [done| |by apply Forall_app]. by destruct mine.
  - by apply (Hm key).
  - by apply (Ho key).
Qed.

(** X6. Every Metadata object obtained through the public API is legal:
    each stored key matches the key pattern, holds at least one value, and
    holds only Buffers if it ends in [-bin] and only printable-ASCII strings
    otherwise.  This is the assumption [toHttp2Headers] states about its
    receiver. *)
Theorem reachable_legal m : reachable m → legal m.
Proof.
  induction 1 as [o|key value m m' _ IH Hs|key value m m' _ IH Ha|key m m' _ IH Hr
                 |other m _ IHo _ IHm|m _ IH|o m _ IH|headers].
  - apply map_Forall_empty.
  - by eapply set_legal.
  - by eapply add_legal.
  - by eapply remove_legal.
  - by apply merge_legal.
  - exact IH.
  - exact IH.
  - apply fromHttp2Headers_legal.
Qed.

Lemma reachable_legal_witness :
  legal (merge traced (mk {[ "x-trace" := [VString "t2"] ]} no_options)).
Proof.
  apply reachable_legal. apply reach_merge.
  - apply (reach_set "x-trace" (VString "t1") new); [apply reach_new|reflexivity].
  - apply (reach_set "X-Trace" (VString "t2") traced); [|reflexivity].
    apply (reach_set "x-trace" (VString "t1") new); [apply reach_new|reflexivity].
Defined.

(** X7. The wire round trip, for every legal object: decoding the header
    object that [toHttp2Headers] builds emits no warning and yields a legal
    object with fresh options in which every key other than [__proto__]
    holds exactly the values, Buffers included, it held before. *)
Theorem wire_round_trip m :
  legal m →
  (fromHttp2Headers (toHttp2Headers m)).2 = [] ∧
  options (fromHttp2Headers (toHttp2Headers m)).1 = no_options ∧
  legal (fromHttp2Headers (toHttp2Headers m)).1 ∧
  ∀ key, key ≠ "__proto__" →
    internalRepr (fromHttp2Headers (toHttp2Headers m)).1 !! key = internalRepr m !! key.
Proof.
  intros Hm. split; [|split; [|split]].
  - by rewrite (fromHttp2Headers_toHttp2Headers_own m Hm).
  - by rewrite (fromHttp2Headers_toHttp2Headers_own m Hm).
  - apply fromHttp2Headers_legal.
  - intros key Hk. rewrite (fromHttp2Headers_toHttp2Headers_own m Hm). simpl.
    by rewrite lookup_delete_ne.
Qed.

Lemma wire_round_trip_witness :
  internalRepr (fromHttp2Headers (toHttp2Headers sample)).1 !! "trace-bin"
  = Some [VBuffer [x00; xff; x10]; VBuffer []].
Proof.
  destruct (wire_round_trip sample sample_legal) as (_ & _ & _ & H).
  rewrite H by discriminate. reflexivity.
Defined.

(** *** [getMap] *)

(** [result[key] = v] on the object [getMap] creates by [{}]: as in
    [toHttp2Headers], the key [__proto__] reaches the inherited setter,
    which ignores a string and takes a Buffer as the prototype; either way
    no own property appears. *)
Fixpoint set_own_value (key : string) (value : MetadataValue)
    (obj : list (string * MetadataValue)) : list (string * MetadataValue) :=
  match obj with
  | [] => [(key, value)]
  | (k, v) :: rest =>
      if String.eqb k key then (k, value) :: rest
      else (k, v) :: set_own_value key value rest
  end.

(** One iteration of [this.internalRepr.forEach] in [getMap];
    [v.slice()] of a Buffer holds the same bytes. *)
Definition getMap_entry (result : list (string * MetadataValue))
    (kv : string * list MetadataValue) : list (string * MetadataValue) :=
  match kv.2 with
  | v :: _ =>
      if String.eqb kv.1 "__proto__" then result else set_own_value kv.1 v result
  | [] => result
  end.

Definition getMap (m : t) : list (string * MetadataValue) :=
  fold_left getMap_entry (map_to_list (internalRepr m)) [].

(** The first value of an entry, if [getMap] shows the entry. *)
Definition first_value (kv : string * list MetadataValue)
  : option (string * MetadataValue) :=
  match kv.2 with
  | v :: _ => if String.eqb kv.1 "__proto__" then None else Some (kv.1, v)
  | [] => None
  end.

Lemma set_own_value_fresh key value obj :
  key ∉ obj.*1 → set_own_value key value obj = obj ++ [(key, value)].
Proof.
  induction obj as [|[k v] obj IH]; simpl; [done|].
  intros Hk. apply not_elem_of_cons in Hk as [Hne Hk].
  destruct (String.eqb_spec k key) as [->|_]; [done|]. by rewrite IH.
Qed.

Lemma first_value_key kv r : first_value kv = Some r → r.1 = kv.1.
Proof.
  unfold first_value. destruct kv.2; [done|].
  destruct (String.eqb kv.1 "__proto__"); [done|]. by intros [= <-].
Qed.

Lemma omap_first_value_keys l k :
  k ∈ (omap first_value l).*1 → k ∈ l.*1.
Proof.
  induction l as [|kv l IH]; simpl; [done|].
  destruct (first_value kv) as [r|] eqn:E; simpl.
  - intros [->|Hin]%elem_of_cons.
    + rewrite (first_value_key _ _ E). by left.
    + right. by apply IH.
  - intros Hin. right. by apply IH.
Qed.

Lemma getMap_fold l acc :
  NoDup (acc.*1 ++ l.*1) →
  fold_left getMap_entry l acc = acc ++ omap first_value l.
Proof.
  revert acc. induction l as [|[k vs] l IH]; intros acc Hnd; simpl.
  - by rewrite app_nil_r.
  - simpl in Hnd.
    assert (Hk : k ∉ acc.*1).
    { apply NoDup_app in Hnd as (_ & Hd & _). intros Hin.
      apply (Hd k Hin). by left. }
    unfold getMap_entry at 2, first_value. simpl.
    destruct vs as [|v vs].
    + apply IH. apply NoDup_app in Hnd as (Ha & Hd & Hl).
      apply NoDup_cons in Hl as [_ Hl]. apply NoDup_app. repeat split; [done| |done].
      intros x Hx Hx'. apply (Hd x Hx). by right.
    + destruct (String.eqb k "__proto__").
      * apply IH. apply NoDup_app in Hnd as (Ha & Hd & Hl).
        apply NoDup_cons in Hl as [_ Hl]. apply NoDup_app. repeat split; [done| |done].
        intros x Hx Hx'. apply (Hd x Hx). by right.
      * rewrite set_own_value_fresh by done. rewrite IH.
        -- by rewrite <- app_assoc.
        -- rewrite fmap_app. simpl. by rewrite <- app_assoc.
Qed.

(** X8. [getMap] shows, once each, exactly the keys other than [__proto__]
    that hold at least one value, each with the first of its values. *)
Theorem getMap_first_values m :
  NoDup (getMap m).*1 ∧
  ∀ key v, (key, v) ∈ getMap m
           ↔ key ≠ "__proto__" ∧ ∃ vs, internalRepr m !! key = Some (v :: vs).
Proof.
  unfold getMap. rewrite getMap_fold by (simpl; apply NoDup_fst_map_to_list).
  simpl. split.
  - pose proof (NoDup_fst_map_to_list (internalRepr m)) as Hnd.
    induction (map_to_list (internalRepr m)) as [|kv l IH]; simpl; [constructor|].
    apply NoDup_cons in Hnd as [Hk Hnd].
    destruct (first_value kv) as [r|] eqn:E; simpl; [|by apply IH].
    apply NoDup_cons. split; [|by apply IH].
    rewrite (first_value_key _ _ E). intros Hin. apply Hk.
    by apply omap_first_value_keys.
  - intros key v. rewrite list_elem_of_omap. split.
    + intros ([k vs] & Hin & Hf). apply elem_of_map_to_list in Hin.
      unfold first_value in Hf. simpl in Hf. destruct vs as [|v' vs]; [done|].
      destruct (String.eqb_spec k "__proto__") as [|Hne]; [done|].
      injection Hf as <- <-. split; [done|]. by exists vs.
    + intros (Hne & vs & Hl). exists (key, v :: vs). split.
      * by apply elem_of_map_to_list.
      * unfold first_value. simpl.
        by destruct (String.eqb_spec key "__proto__").
Qed.

End Metadata.

(** ** Runtime helpers used by server-call.ts *)

Definition hex_digit (n : Z) : ascii :=
  ascii_of_N (Z.to_N (if (n <? 10)%Z then n + 48 else n + 55)%Z).

Definition percent (n : Z) : list ascii :=
  ["%"%char; hex_digit (n / 16); hex_digit (n mod 16)].

(** Characters [encodeURI] leaves alone: letters, digits,
    [; / ? : @ & = + $ , #] and [- _ . ! ~ * ' ( )]. *)
Definition uri_unescaped (c : ascii) : bool :=
  in_range 65 90 c || in_range 97 122 c || in_range 48 57 c
  || existsb (Ascii.eqb c) (chars ";/?:@&=+$,#-_.!~*'()").

(** [encodeURI] on 8-bit code units: other characters become the
    percent-escaped bytes of their UTF-8 encoding. *)
Definition encodeURI (s : string) : string :=
  str (flat_map
         (fun c =>
            if uri_unescaped c then [c]
            else if (code c <? 128)%Z then percent (code c)
            else percent (192 + code c / 64) ++ percent (128 + code c mod 64))
         (chars s)).

Example encodeURI_details :
  encodeURI "The server does not implement this method"
  = "The%20server%20does%20not%20implement%20this%20method".
Proof. reflexivity. Qed.

(** [ToInt32], the conversion behind [x | 0]. *)
Definition ToInt32 (z : Z) : Z :=
  let r := (z mod 4294967296)%Z in
  if (2147483648 <=? r)%Z then (r - 4294967296)%Z else r.

(** IEEE-754 binary64 numbers, as SpecFloat computes them. *)
Module Double.
Local Open Scope Z_scope.

Definition prec : Z := 53.
Definition emax : Z := 1024.

Definition of_Z (n : Z) : spec_float := binary_normalize prec emax n 0 false.
Definition mul (x y : spec_float) : spec_float := SFmul prec emax x y.
Definition div (x y : spec_float) : spec_float := SFdiv prec emax x y.

(** The integer part, towards zero; 0 for NaN and the infinities, as
    [ToInt32] treats them. *)
Definition trunc (x : spec_float) : Z :=
  match x with
  | S754_finite s m e =>
      let v := if 0 <=? e then Z.pos m * 2 ^ e else Z.pos m / 2 ^ (- e) in
      if s then - v else v
  | _ => 0
  end.

Example one_thousandth : div (of_Z 1) (of_Z 1000) = S754_finite false 4611686018427388 (-62).
Proof. vm_compute. reflexivity. Qed.

End Double.

(** ** server-call.ts *)

Module ServerCall.

(** [error.code]: [Number.isInteger] tells an integer from anything else
    (Node's own errors carry string codes). *)
Inductive CodeValue : Type :=
| CInt (n : Z)
| CNotInteger.

(** A thrown or passed error object, by its own properties. *)
Record ServiceError : Type := mkError {
  err_message : option string;
  err_code : option CodeValue;
  err_details : option string;
  err_metadata : option Metadata.t
}.

(** [new Error(msg)] *)
Definition new_Error (msg : string) : ServiceError :=
  mkError (Some msg) None None None.

(** [PartialServiceError], as [this.status] uses it. *)
Record StatusObject : Type := mkStatus {
  st_code : Z;
  st_details : string;
  st_metadata : option Metadata.t
}.

Inductive OutValue : Type :=
| ONum (n : Z)
| OStr (s : string)
| OArr (l : list string)
| OUndefined.

Definition OutHeaders : Type := list (string * OutValue).

Definition out_value (v : Metadata.HeaderValue) : OutValue :=
  match v with
  | Metadata.HString s => OStr s
  | Metadata.HArray l => OArr l
  | Metadata.HUndefined => OUndefined
  end.

Definition out_headers (h : Metadata.Headers) : OutHeaders :=
  map (fun kv => (kv.1, out_value kv.2)) h.

(** [target[key] = value] on a plain object *)
Fixpoint set_property (key : string) (v : OutValue) (target : OutHeaders)
  : OutHeaders :=
  match target with
  | [] => [(key, v)]
  | (k, v0) :: rest =>
      if String.eqb k key then (k, v) :: rest
      else (k, v0) :: set_property key v rest
  end.

(** [Object.assign(target, source)] *)
Definition assign (target source : OutHeaders) : OutHeaders :=
  fold_left (fun t kv => set_property kv.1 kv.2 t) source target.

Definition GRPC_ACCEPT_ENCODING_HEADER : string := "grpc-accept-encoding".
Definition GRPC_ENCODING_HEADER : string := "grpc-encoding".
Definition GRPC_MESSAGE_HEADER : string := "grpc-message".
Definition GRPC_STATUS_HEADER : string := "grpc-status".
Definition GRPC_TIMEOUT_HEADER : string := "grpc-timeout".

(** [http2.constants.NGHTTP2_CANCEL] *)
Definition NGHTTP2_CANCEL : Z := 8.

(** The module-level [defaultResponseHeaders] object as first created. *)
Definition initialResponseHeaders : OutHeaders :=
  [ (GRPC_ACCEPT_ENCODING_HEADER, OStr "identity");
    (GRPC_ENCODING_HEADER, OStr "identity");
    (":status", ONum 200);
    ("content-type", OStr "application/grpc+proto") ].

(** What the call does to its [http2.ServerHttp2Stream], in order. *)
Inductive Frame : Type :=
| Respond (headers : OutHeaders)
| Data (chunk : list byte)
| End (payload : option (list byte))
| Trailers (trailers : OutHeaders).

(** The stream: [headersSent], [rstCode], whether the [once('wantTrailers')]
    listener is installed, whether the runtime still owes the
    [wantTrailers] event (the stream was ended after a
    [respond(.., {waitForTrailers: true})]), and the frames handed to it. *)
Record Http2Stream : Type := mkStream {
  headersSent : bool;
  rstCode : Z;
  wantTrailers_once : bool;
  wantTrailers_due : bool;
  sent : list Frame
}.

Definition fresh_stream : Http2Stream := mkStream false 0 false false [].

Definition stream_respond (headers : OutHeaders) (s : Http2Stream) : Http2Stream :=
  mkStream true (rstCode s) (wantTrailers_once s) (wantTrailers_due s)
           (sent s ++ [Respond headers]).

Definition stream_once_wantTrailers (s : Http2Stream) : Http2Stream :=
  mkStream (headersSent s) (rstCode s) true (wantTrailers_due s) (sent s).

Definition stream_write (chunk : list byte) (s : Http2Stream) : Http2Stream :=
  mkStream (headersSent s) (rstCode s) (wantTrailers_once s) (wantTrailers_due s)
           (sent s ++ [Data chunk]).

Definition stream_end (payload : option (list byte)) (s : Http2Stream) : Http2Stream :=
  mkStream (headersSent s) (rstCode s) (wantTrailers_once s) true
           (sent s ++ [End payload]).

Definition stream_sendTrailers (t : OutHeaders) (s : Http2Stream) : Http2Stream :=
  mkStream (headersSent s) (rstCode s) false false (sent s ++ [Trailers t]).

(** *** The [grpc-timeout] header *)

Definition is_unit (c : ascii) : bool := existsb (Ascii.eqb c) (chars "HMSmun").

(** [\s*([HMSmun])] with [\s*] holding [j] characters: the unit must come
    next; otherwise the greedy [\s*] gives one character back. *)
Fixpoint unit_after (j : nat) (l : list ascii) : option ascii :=
  let here :=
    match drop j l with
    | c :: _ => if is_unit c then Some c else None
    | [] => None
    end in
  match here, j with
  | Some c, _ => Some c
  | None, S j' => unit_after j' l
  | None, O => None
  end.

(** [(\d{1,8})] holding [k] characters, then the rest of the pattern;
    on failure the greedy quantifier gives one digit back. *)
Fixpoint digits_then (k : nat) (l : list ascii) : option (list ascii * ascii) :=
  match k with
  | O => None
  | S k' =>
      let rest := drop k l in
      match unit_after (count_while is_space rest) rest with
      | Some u => Some (take k l, u)
      | None => digits_then k' l
      end
  end.

Definition match_at (l : list ascii) : option (list ascii * ascii) :=
  digits_then (Nat.min 8 (count_while is_digit l)) l.

(** [s.match(DEADLINE_REGEX)] with
    [DEADLINE_REGEX = /(\d{1,8})\s*([HMSmun])/]: the pattern is tried at
    each start position from the left; the result holds the two groups. *)
Fixpoint DEADLINE_REGEX_match (l : list ascii) : option (list ascii * ascii) :=
  match match_at l with
  | Some r => Some r
  | None =>
      match l with
      | [] => None
      | _ :: l' => DEADLINE_REGEX_match l'
      end
  end.

(** [+match[1]] on a string of decimal digits *)
Definition to_number (ds : list ascii) : Z :=
  fold_left (fun acc c => acc * 10 + (code c - 48))%Z ds 0%Z.

(** [deadlineUnitsToMs[match[2]]]; a missing entry is [undefined], which
    the multiplication turns into NaN. *)
Definition deadlineUnitsToMs (u : ascii) : spec_float :=
  if Ascii.eqb u "H" then Double.of_Z 3600000
  else if Ascii.eqb u "M" then Double.of_Z 60000
  else if Ascii.eqb u "S" then Double.of_Z 1000
  else if Ascii.eqb u "m" then Double.of_Z 1
  else if Ascii.eqb u "u" then Double.div (Double.of_Z 1) (Double.of_Z 1000)
  else if Ascii.eqb u "n" then Double.div (Double.of_Z 1) (Double.of_Z 1000000)
  else S754_nan.

(** [(+match[1] * deadlineUnitsToMs[match[2]]) | 0] *)
Definition timeout_ms (ds : list ascii) (u : ascii) : Z :=
  ToInt32 (Double.trunc (Double.mul (Double.of_Z (to_number ds)) (deadlineUnitsToMs u))).

(** The shape the specification gives for the header,
    [^(\d{1,8})\s*([HMSmun])$]: the whole value is one to eight digits,
    optional white space and one unit letter. *)
Definition spec_deadline_shape (s : string) : bool :=
  let l := chars s in
  let nd := count_while is_digit l in
  let rest := drop nd l in
  (1 <=? nd)%nat && (nd <=? 8)%nat &&
  match drop (count_while is_space rest) rest with
  | [c] => is_unit c
  | _ => false
  end.

(** [value.toString()] of a metadata value (a Buffer reads as its bytes). *)
Definition toString (v : Metadata.MetadataValue) : string :=
  match v with
  | Metadata.VString s => s
  | Metadata.VBuffer b => str (map ascii_of_byte b)
  end.

(** [output.writeUInt32BE(n, 1)] *)
Definition uint32BE (n : Z) : list byte :=
  [ Base64.Zbyte ((n / 16777216) mod 256); Base64.Zbyte ((n / 65536) mod 256);
    Base64.Zbyte ((n / 256) mod 256); Base64.Zbyte (n mod 256) ]%Z.

Inductive HandlerType : Type := bidi | clientStream | serverStream | unary.

Section Call.
Context {Resp : Type}.

(** [Handler]: the serializer either returns a Buffer or throws. *)
Record Handler : Type := mkHandler {
  h_type : HandlerType;
  h_serialize : Resp → ServiceError + list byte
}.

(** [Http2ServerCallStream], together with the module-level
    [defaultResponseHeaders] it mutates and the events it has emitted. *)
Record Call : Type := mkCall {
  cancelled : bool;
  deadline : option Z;
  status : StatusObject;
  stream : Http2Stream;
  handler : option Handler;
  emitted : list (string * string);
  defaultResponseHeaders : OutHeaders
}.

Definition new_call (s : Http2Stream) (h : option Handler) (defaults : OutHeaders)
  : Call :=
  mkCall false None (mkStatus Status.OK "OK" None) s h [] defaults.

Definition set_stream (s : Http2Stream) (c : Call) : Call :=
  mkCall (cancelled c) (deadline c) (status c) s (handler c) (emitted c)
         (defaultResponseHeaders c).

Definition set_status (st : StatusObject) (c : Call) : Call :=
  mkCall (cancelled c) (deadline c) st (stream c) (handler c) (emitted c)
         (defaultResponseHeaders c).

Definition set_deadline (d : option Z) (c : Call) : Call :=
  mkCall (cancelled c) d (status c) (stream c) (handler c) (emitted c)
         (defaultResponseHeaders c).

Definition set_defaults (h : OutHeaders) (c : Call) : Call :=
  mkCall (cancelled c) (deadline c) (status c) (stream c) (handler c) (emitted c) h.

(** [this.cancelled = true; this.emit('cancelled', reason)] *)
Definition cancel (reason : string) (c : Call) : Call :=
  mkCall true (deadline c) (status c) (stream c) (handler c)
         (emitted c ++ [("cancelled", reason)]) (defaultResponseHeaders c).

Definition sendMetadata (customMetadata : option Metadata.t) (c : Call) : Call :=
  if headersSent (stream c) then c
  else
    let custom :=
      match customMetadata with
      | Some m => out_headers (Metadata.toHttp2Headers m)
      | None => []
      end in
    let headers := assign (defaultResponseHeaders c) custom in
    set_stream (stream_once_wantTrailers (stream_respond headers (stream c)))
               (set_defaults headers c).

(** The listener installed by [sendMetadata], run when the runtime emits
    [wantTrailers]. *)
Definition trailersToSend (st : StatusObject) : OutHeaders :=
  let base := [ (GRPC_STATUS_HEADER, ONum (st_code st));
                (GRPC_MESSAGE_HEADER, OStr (encodeURI (st_details st))) ] in
  match st_metadata st with
  | Some metadata => assign base (out_headers (Metadata.toHttp2Headers metadata))
  | None => base
  end.

Definition on_wantTrailers (c : Call) : Call :=
  if wantTrailers_due (stream c) && wantTrailers_once (stream c) then
    set_stream (stream_sendTrailers (trailersToSend (status c)) (stream c)) c
  else c.

Definition write (chunk : list byte) (c : Call) : Call :=
  if cancelled c then c
  else
    let c := sendMetadata None c in
    set_stream (stream_write chunk (stream c)) c.

Definition end_ (payload : option (list byte)) (c : Call) : Call :=
  if cancelled c then c
  else
    let c := match deadline c with
             | Some _ => set_deadline None c
             | None => c
             end in
    let c := sendMetadata None c in
    set_stream (stream_end payload (stream c)) c.

Definition sendError (error : ServiceError) (code : Z) (c : Call) : Call :=
  let details :=
    match err_message error with
    | Some m => m
    | None => "Unknown Error"
    end in
  let '(code, details) :=
    match err_code error with
    | Some (CInt n) =>
        (n, match err_details error with
            | Some d => d
            | None => details
            end)
    | _ => (code, details)
    end in
  let metadata :=
    match err_metadata error with
    | Some m => Some m
    | None => st_metadata (status c)
    end in
  end_ None (set_status (mkStatus code details metadata) c).

Definition receiveMetadata (headers : Metadata.Headers) (c : Call)
  : result (Call * option Metadata.t) :=
  let metadata := (Metadata.fromHttp2Headers headers).1 in
  do timeoutHeader <- Metadata.get GRPC_TIMEOUT_HEADER metadata;
  match timeoutHeader with
  | [] => Ok (c, Some metadata)
  | v :: _ =>
      match DEADLINE_REGEX_match (chars (toString v)) with
      | None =>
          Ok (sendError (new_Error "Invalid deadline") Status.OUT_OF_RANGE c, None)
      | Some (ds, u) =>
          let timeout := timeout_ms ds u in
          let c := set_deadline (Some timeout) c in
          do metadata <- Metadata.remove GRPC_TIMEOUT_HEADER metadata;
          Ok (c, Some metadata)
      end
  end.

Definition serializeMessage (value : Resp) (c : Call) : ServiceError + list byte :=
  match handler c with
  | None => inl (new_Error "Cannot read property 'serialize' of null")
  | Some h =>
      match h_serialize h value with
      | inl e => inl e
      | inr messageBuffer =>
          inr (x00 :: uint32BE (Z.of_nat (length messageBuffer)) ++ messageBuffer)
      end
  end.

Definition with_metadata (m : Metadata.t) (e : ServiceError) : ServiceError :=
  mkError (err_message e) (err_code e) (err_details e) (Some m).

Definition sendUnaryMessage (err : option ServiceError) (value : Resp)
    (metadata : option Metadata.t) (c : Call) : Call :=
  match err with
  | Some err =>
      let err := match metadata with
                 | Some m => with_metadata m err
                 | None => err
                 end in
      sendError err Status.UNKNOWN c
  | None =>
      match serializeMessage value c with
      | inr response =>
          let c := match metadata with
                   | Some m =>
                       set_status (mkStatus (st_code (status c))
                                            (st_details (status c)) (Some m)) c
                   | None => c
                   end in
          end_ (Some response) c
      | inl thrown => sendError thrown Status.INTERNAL c
      end
  end.

(** The stream's [error] and [close] listeners, installed by the
    constructor; [rst] is the [rstCode] the stream closed with. *)
Definition on_stream_error (err : ServiceError) (c : Call) : Call :=
  sendError err Status.INTERNAL c.

Definition on_stream_close (rst : Z) (c : Call) : Call :=
  let s := stream c in
  let c := set_stream (mkStream (headersSent s) rst (wantTrailers_once s)
                                (wantTrailers_due s) (sent s)) c in
  if (rst =? NGHTTP2_CANCEL)%Z then cancel "cancelled" c else c.

(** The timer callback armed by [receiveMetadata]. *)
Definition handleExpiredDeadline (c : Call) : Call :=
  cancel "deadline"
    (sendError (new_Error "Deadline exceeded") Status.DEADLINE_EXCEEDED c).

(** The operations a handler can apply to its call. *)
Inductive Op : Type :=
| OpWrite (chunk : list byte)
| OpEnd (payload : option (list byte))
| OpSendError (error : ServiceError) (code : Z)
| OpSendUnaryMessage (err : option ServiceError) (value : Resp)
                     (metadata : option Metadata.t).

Definition apply_op (c : Call) (o : Op) : Call :=
  match o with
  | OpWrite chunk => write chunk c
  | OpEnd payload => end_ payload c
  | OpSendError e code => sendError e code c
  | OpSendUnaryMessage err value md => sendUnaryMessage err value md c
  end.

Definition is_write_or_end (o : Op) : bool :=
  match o with
  | OpWrite _ | OpEnd _ => true
  | _ => false
  end.

End Call.
Arguments Handler : clear implicits.
Arguments Call : clear implicits.

(** *** Properties of the server call *)

Section CallProperties.
Context {Resp : Type}.
Implicit Types c : Call Resp.

Lemma write_cancelled c chunk : cancelled c = true → write chunk c = c.
Proof. unfold write. by intros ->. Qed.

Lemma end_cancelled c payload : cancelled c = true → end_ payload c = c.
Proof. unfold end_. by intros ->. Qed.

Lemma sendError_cancelled c e code :
  cancelled c = true →
  cancelled (sendError e code c) = true ∧ stream (sendError e code c) = stream c.
Proof.
  intros Hc. unfold sendError.
  destruct (match err_code e with Some (CInt n) => _ | _ => _ end) as [code' details'].
  rewrite end_cancelled by done. done.
Qed.

Lemma apply_op_cancelled c o :
  cancelled c = true →
  cancelled (apply_op c o) = true ∧ stream (apply_op c o) = stream c.
Proof.
  intros Hc. destruct o as [chunk|payload|e code|err value md]; simpl.
  - by rewrite write_cancelled.
  - by rewrite end_cancelled.
  - by apply sendError_cancelled.
  - unfold sendUnaryMessage. destruct err as [err|].
    + by apply sendError_cancelled.
    + destruct (serializeMessage value c) as [thrown|response].
      * by apply sendError_cancelled.
      * rewrite end_cancelled; by destruct md.
Qed.

Lemma apply_ops_cancelled ops c :
  cancelled c = true →
  cancelled (fold_left apply_op ops c) = true ∧
  stream (fold_left apply_op ops c) = stream c.
Proof.
  revert c. induction ops as [|o ops IH]; intros c Hc; [done|]. simpl.
  destruct (apply_op_cancelled c o Hc) as [Hc' Hs'].
  destruct (IH _ Hc') as [? ?]. split; [done|congruence].
Qed.

Lemma write_end_cancelled ops c :
  cancelled c = true → forallb is_write_or_end ops = true →
  fold_left apply_op ops c = c.
Proof.
  intros Hc. induction ops as [|o ops IH]; [done|]. simpl.
  intros [Ho Hops]%andb_prop.
  destruct o; try done; simpl.
  - rewrite write_cancelled by done. by apply IH.
  - rewrite end_cancelled by done. by apply IH.
Qed.

(** C9. The [cancelled] flag is set by a stream close with RST code CANCEL
    and by deadline expiry; once it is set, every later [write] and [end]
    returns at once and leaves the call as it was, and no later operation
    on the call ([write], [end], [sendError], [sendUnaryMessage]) hands
    anything more (DATA, end of stream, trailers) to the HTTP/2 stream. *)
Theorem cancelled_call_emits_nothing c0 :
  cancelled (on_stream_close NGHTTP2_CANCEL c0) = true ∧
  cancelled (handleExpiredDeadline c0) = true ∧
  ∀ c, cancelled c = true →
    (∀ chunk, write chunk c = c) ∧
    (∀ payload, end_ payload c = c) ∧
    (∀ ops, forallb is_write_or_end ops = true → fold_left apply_op ops c = c) ∧
    (∀ ops, sent (stream (fold_left apply_op ops c)) = sent (stream c)).
Proof.
  split; [done|]. split; [done|].
  intros c Hc. repeat split.
  - intros. by apply write_cancelled.
  - intros. by apply end_cancelled.
  - intros. by apply write_end_cancelled.
  - intros ops. by destruct (apply_ops_cancelled ops c Hc) as [_ ->].
Qed.

Lemma sendError_metadata c e code m :
  err_metadata e = Some m → st_metadata (status (sendError e code c)) = Some m.
Proof.
  intros He. unfold sendError. rewrite He.
  destruct (match err_code e with Some (CInt n) => _ | _ => _ end) as [code' details'].
  unfold end_. destruct (cancelled _); [done|].
  simpl. destruct (deadline c); unfold sendMetadata; simpl;
    by destruct (headersSent (stream c)).
Qed.

Lemma end_status c payload : status (end_ payload c) = status c.
Proof.
  unfold end_. destruct (cancelled c); [done|].
  destruct (deadline c); unfold sendMetadata; simpl;
    by destruct (headersSent (stream c)).
Qed.

(** C10, as amended. With a non-null error and a trailer argument, the
    argument replaces whatever metadata the error carried and becomes the
    status metadata.  With a null error, the trailer argument becomes the
    status metadata when the response serializes; when serialization
    throws, the call is ended through [sendError] with INTERNAL and the
    trailer argument is not attached. *)
Theorem sendUnaryMessage_trailer_metadata c value m :
  (∀ err, st_metadata (status (sendUnaryMessage (Some err) value (Some m) c)) = Some m) ∧
  (∀ response, serializeMessage value c = inr response →
     st_metadata (status (sendUnaryMessage None value (Some m) c)) = Some m) ∧
  (∀ thrown, serializeMessage value c = inl thrown →
     sendUnaryMessage None value (Some m) c = sendError thrown Status.INTERNAL c).
Proof.
  repeat split.
  - intros err. unfold sendUnaryMessage. by apply sendError_metadata.
  - intros response Hs. unfold sendUnaryMessage. rewrite Hs.
    by rewrite end_status.
  - intros thrown Hs. unfold sendUnaryMessage. by rewrite Hs.
Qed.

End CallProperties.

(** A serializer that accepts and one that throws. *)
Definition echo_handler : Handler (list byte) := mkHandler unary (fun v => inr v).
Definition failing_handler : Handler (list byte) :=
  mkHandler unary (fun _ => inl (new_Error "cannot serialize")).

Definition trailer : Metadata.t :=
  Metadata.mk {[ "x-trace" := [Metadata.VString "t1"] ]} Metadata.no_options.

Definition open_call (h : Handler (list byte)) : Call (list byte) :=
  new_call fresh_stream (Some h) initialResponseHeaders.

Definition cancelled_call : Call (list byte) :=
  on_stream_close NGHTTP2_CANCEL (write [x01] (open_call echo_handler)).

Lemma cancelled_call_emits_nothing_witness :
  cancelled cancelled_call = true ∧
  write [x02] cancelled_call = cancelled_call ∧
  end_ None cancelled_call = cancelled_call.
Proof.
  destruct (cancelled_call_emits_nothing (write [x01] (open_call echo_handler)))
    as (Hc & _ & H).
  destruct (H cancelled_call Hc) as (Hw & He & _).
  split; [reflexivity|]. split; [apply Hw | apply He].
Defined.

(** C10 as first stated fails: the error is null, a trailer argument is
    passed, the serializer throws, and the status metadata stays unset. *)
Lemma sendUnaryMessage_serialize_throws :
  st_metadata (status (sendUnaryMessage None [x01] (Some trailer)
                                        (open_call failing_handler)))
  ≠ Some trailer.
Proof. vm_compute. discriminate. Qed.

Lemma sendUnaryMessage_trailer_metadata_witness :
  serializeMessage [x01] (open_call echo_handler)
    = inr [x00; x00; x00; x00; x01; x01] ∧
  st_metadata (status (sendUnaryMessage None [x01] (Some trailer)
                                        (open_call echo_handler)))
    = Some trailer.
Proof.
  split; [reflexivity|].
  destruct (sendUnaryMessage_trailer_metadata (open_call echo_handler) [x01] trailer)
    as (_ & H & _).
  apply (H [x00; x00; x00; x00; x01; x01]). reflexivity.
Defined.

(** What a cancelled call would have sent: the trailers of a unary answer
    carry the trailer argument next to the status. *)
Example unary_answer_frames :
  sent (stream (on_wantTrailers
    (sendUnaryMessage None [x68; x69] (Some trailer) (open_call echo_handler))))
  = [ Respond initialResponseHeaders;
      End (Some [x00; x00; x00; x00; x02; x68; x69]);
      Trailers [ (GRPC_STATUS_HEADER, ONum 0); (GRPC_MESSAGE_HEADER, OStr "OK");
                 ("x-trace", OArr ["t1"]) ] ].
Proof. vm_compute. reflexivity. Qed.

(** *** What [receiveMetadata] does get right about the timeout *)

Lemma DEADLINE_REGEX_match_unfold l :
  DEADLINE_REGEX_match l
  = match match_at l with
    | Some r => Some r
    | None =>
        match l with
        | [] => None
        | _ :: l' => DEADLINE_REGEX_match l'
        end
    end.
Proof. by destruct l. Qed.

Lemma unit_after_found j l c rest :
  drop j l = c :: rest → is_unit c = true → unit_after j l = Some c.
Proof. intros Hd Hc. destruct j; simpl in *; rewrite Hd, Hc; done. Qed.

(** A value of the specified shape is accepted, with all its digits. *)
Lemma spec_shape_accepted s :
  spec_deadline_shape s = true →
  ∃ u, is_unit u = true ∧
       DEADLINE_REGEX_match (chars s)
       = Some (take (count_while is_digit (chars s)) (chars s), u).
Proof.
  unfold spec_deadline_shape.
  set (l := chars s). set (nd := count_while is_digit l).
  set (rest := drop nd l).
  intros [[H1 H8]%andb_prop Hu]%andb_prop.
  apply Nat.leb_le in H1, H8.
  destruct (drop (count_while is_space rest) rest) as [|c [|? ?]] eqn:Hd; try done.
  exists c. split; [done|].
  rewrite DEADLINE_REGEX_match_unfold. unfold match_at. fold nd.
  rewrite Nat.min_r by done.
  destruct nd as [|k] eqn:Hnd; [lia|].
  cbn [digits_then]. fold rest.
  by rewrite (unit_after_found _ _ c [] Hd Hu).
Qed.


(** C4. The header value [123456789S] is not of the shape
    [^(\d{1,8})\s*([HMSmun])$] (nine digits), yet [receiveMetadata] accepts
    it: the unanchored pattern matches from the second digit on, a timer of
    [(23456789 * 1000) | 0] milliseconds is armed, and the call is not
    ended with OUT_OF_RANGE. *)
Theorem receiveMetadata_nine_digit_timeout :
  spec_deadline_shape "123456789S" = false ∧
  receiveMetadata [(GRPC_TIMEOUT_HEADER, Metadata.HString "123456789S")]
                  (open_call echo_handler)
  = Ok (set_deadline (Some 1981952520%Z) (open_call echo_handler),
        Some Metadata.new).
Proof. split; vm_compute; reflexivity. Qed.

Example receiveMetadata_embedded_timeout :
  spec_deadline_shape "about 5 Hours" = false ∧
  receiveMetadata [(GRPC_TIMEOUT_HEADER, Metadata.HString "about 5 Hours")]
                  (open_call echo_handler)
  = Ok (set_deadline (Some 18000000%Z) (open_call echo_handler),
        Some Metadata.new).
Proof. split; vm_compute; reflexivity. Qed.

Example receiveMetadata_100m :
  receiveMetadata [(GRPC_TIMEOUT_HEADER, Metadata.HString "100m")]
                  (open_call echo_handler)
  = Ok (set_deadline (Some 100%Z) (open_call echo_handler), Some Metadata.new).
Proof. vm_compute. reflexivity. Qed.

Example receiveMetadata_invalid :
  (fun r => match r with
            | Ok (c, None) => Some (st_code (status c), st_details (status c),
                                    deadline c)
            | _ => None
            end)
    (receiveMetadata [(GRPC_TIMEOUT_HEADER, Metadata.HString "5x")]
                     (open_call echo_handler))
  = Some (Status.OUT_OF_RANGE, "Invalid deadline", None).
Proof. vm_compute. reflexivity. Qed.

(** *** Which timeout headers [receiveMetadata] accepts *)

(** An occurrence of the pattern somewhere in the value: a digit, any
    white space, a unit letter. *)
Definition timeout_occurs (l : list ascii) : Prop :=
  ∃ pre d ws u post,
    l = pre ++ d :: ws ++ u :: post ∧
    is_digit d = true ∧ forallb is_space ws = true ∧ is_unit u = true.

Lemma unit_not_digit c : is_unit c = true → is_digit c = false ∧ is_space c = false.
Proof. by destruct c as [[] [] [] [] [] [] [] []]. Qed.

Lemma space_not_digit c : is_space c = true → is_digit c = false.
Proof. by destruct c as [[] [] [] [] [] [] [] []]. Qed.

Lemma count_while_app p ws c rest :
  forallb p ws = true → p c = false → count_while p (ws ++ c :: rest) = length ws.
Proof.
  induction ws as [|w ws IH]; simpl; [by intros _ ->|].
  intros [-> Hws]%andb_prop Hc. f_equal. by apply IH.
Qed.

Lemma count_while_take p l i :
  (i ≤ count_while p l)%nat → forallb p (take i l) = true ∧ length (take i l) = i.
Proof.
  revert i. induction l as [|c l IH]; intros [|i]; simpl; try done; [lia|].
  destruct (p c) eqn:E; [|lia]. intros Hi.
  destruct (IH i) as [-> ->]; [lia|done].
Qed.

Lemma unit_after_unfold j l :
  unit_after j l
  = match drop j l with
    | c :: _ =>
        if is_unit c then Some c
        else match j with S j' => unit_after j' l | O => None end
    | [] => match j with S j' => unit_after j' l | O => None end
    end.
Proof.
  destruct j; simpl; destruct (drop _ l) as [|c ?]; try done;
    by destruct (is_unit c).
Qed.

Lemma unit_after_sound j l u :
  unit_after j l = Some u →
  ∃ i rest, (i ≤ j)%nat ∧ drop i l = u :: rest ∧ is_unit u = true.
Proof.
  induction j as [|j IH]; rewrite unit_after_unfold.
  - destruct (drop 0 l) as [|c rest] eqn:E; [done|].
    destruct (is_unit c) eqn:Ec; [|done]. intros [= <-]. by exists 0%nat, rest.
  - destruct (drop (S j) l) as [|c rest] eqn:E.
    + intros H. destruct (IH H) as (i & rest & Hi & ? & ?).
      exists i, rest. split; [lia|done].
    + destruct (is_unit c) eqn:Ec.
      * intros [= <-]. by exists (S j), rest.
      * intros H. destruct (IH H) as (i & rest' & Hi & ? & ?).
        exists i, rest'. split; [lia|done].
Qed.

Lemma digits_then_sound k l ds u :
  digits_then k l = Some (ds, u) →
  ∃ k' i rest, (1 ≤ k' ≤ k)%nat ∧ ds = take k' l ∧
    (i ≤ count_while is_space (drop k' l))%nat ∧
    drop i (drop k' l) = u :: rest ∧ is_unit u = true.
Proof.
  induction k as [|k IH]; [done|]. cbn [digits_then].
  destruct (unit_after _ (drop (S k) l)) as [u'|] eqn:E.
  - intros [= <- <-]. apply unit_after_sound in E as (i & rest & Hi & Hd & Hu).
    exists (S k), i, rest. repeat split; [lia|lia|done|done|done].
  - intros H. destruct (IH H) as (k' & i & rest & Hk & ? & ? & ? & ?).
    exists k', i, rest. repeat split; [lia|lia|done|done|done|done].
Qed.

Lemma DEADLINE_REGEX_match_sound l ds u :
  DEADLINE_REGEX_match l = Some (ds, u) →
  (1 ≤ length ds ≤ 8)%nat ∧ forallb is_digit ds = true ∧ is_unit u = true ∧
  ∃ pre ws post, l = pre ++ ds ++ ws ++ u :: post ∧ forallb is_space ws = true.
Proof.
  assert (Hat : ∀ l, match_at l = Some (ds, u) →
    (1 ≤ length ds ≤ 8)%nat ∧ forallb is_digit ds = true ∧ is_unit u = true ∧
    ∃ ws post, l = ds ++ ws ++ u :: post ∧ forallb is_space ws = true).
  { clear l. intros l E. unfold match_at in E.
    apply digits_then_sound in E as (k' & i & rest & Hk & -> & Hi & Hd & Hu).
    destruct (count_while_take is_digit l k') as [Hall Hlen]; [lia|].
    destruct (count_while_take is_space (drop k' l) i Hi) as [Hsp _].
    repeat split; [lia|lia|done|done|].
    exists (take i (drop k' l)), rest. split; [|done].
    by rewrite <- Hd, !take_drop. }
  induction l as [|c l IH]; rewrite DEADLINE_REGEX_match_unfold.
  - destruct (match_at []) as [r|] eqn:E; [|done]. intros [= ->].
    destruct (Hat _ E) as (? & ? & ? & ws & post & ? & ?).
    split; [done|]. split; [done|]. split; [done|]. by exists [], ws, post.
  - destruct (match_at (c :: l)) as [r|] eqn:E.
    + intros [= ->].
      destruct (Hat _ E) as (? & ? & ? & ws & post & ? & ?).
      split; [done|]. split; [done|]. split; [done|]. by exists [], ws, post.
    + intros H. destruct (IH H) as (? & ? & ? & pre & ws & post & -> & ?).
      split; [done|]. split; [done|]. split; [done|]. by exists (c :: pre), ws, post.
Qed.

Lemma match_at_occurrence d ws u post :
  is_digit d = true → forallb is_space ws = true → is_unit u = true →
  match_at (d :: ws ++ u :: post) = Some ([d], u).
Proof.
  intros Hd Hws Hu. destruct (unit_not_digit u Hu) as [Hud Hus].
  unfold match_at.
  assert (Hc : count_while is_digit (d :: ws ++ u :: post) = 1%nat).
  { simpl. rewrite Hd. f_equal. destruct ws as [|w ws]; simpl; [by rewrite Hud|].
    simpl in Hws. apply andb_prop in Hws as [Hw _].
    by rewrite (space_not_digit w Hw). }
  rewrite Hc. change (Nat.min 8 1) with 1%nat. cbn [digits_then].
  change (drop 1 (d :: ws ++ u :: post)) with (ws ++ u :: post).
  rewrite (count_while_app is_space ws u post Hws Hus).
  rewrite (unit_after_found (length ws) _ u post); [done| |done].
  by rewrite drop_app_length.
Qed.

Lemma DEADLINE_REGEX_match_complete l :
  timeout_occurs l → DEADLINE_REGEX_match l ≠ None.
Proof.
  intros (pre & d & ws & u & post & -> & Hd & Hws & Hu).
  induction pre as [|c pre IH]; rewrite DEADLINE_REGEX_match_unfold.
  - simpl. by rewrite match_at_occurrence.
  - simpl. by destruct (match_at _).
Qed.

Lemma DEADLINE_REGEX_match_occurs l ds u :
  DEADLINE_REGEX_match l = Some (ds, u) → timeout_occurs l.
Proof.
  intros E.
  apply DEADLINE_REGEX_match_sound in E
    as (Hlen & Hds & Hu & pre & ws & post & -> & Hws).
  destruct (exists_last (l := ds)) as (ds' & d & ->).
  { intros ->. simpl in Hlen. lia. }
  rewrite forallb_app in Hds. apply andb_prop in Hds as [_ Hd].
  simpl in Hd. apply andb_prop in Hd as [Hd _].
  exists (pre ++ ds'), d, ws, u, post. repeat split; try done.
  by rewrite <- !app_assoc.
Qed.

(** X9. What the unanchored [DEADLINE_REGEX] accepts.  A value is rejected
    exactly when no digit in it is followed, after any white space, by one
    of the unit letters [H M S m u n].  When a value is accepted, the first
    group is one to eight digits, the second a unit letter, and the two
    stand in the value with only white space between them. *)
Theorem DEADLINE_REGEX_match_spec l :
  (DEADLINE_REGEX_match l = None ↔ ¬ timeout_occurs l) ∧
  ∀ ds u, DEADLINE_REGEX_match l = Some (ds, u) →
    (1 ≤ length ds ≤ 8)%nat ∧ forallb is_digit ds = true ∧ is_unit u = true ∧
    ∃ pre ws post, l = pre ++ ds ++ ws ++ u :: post ∧ forallb is_space ws = true.
Proof.
  split; [|intros ds u; apply DEADLINE_REGEX_match_sound].
  split.
  - intros Hn Ho. by apply (DEADLINE_REGEX_match_complete l Ho).
  - intros Hno. destruct (DEADLINE_REGEX_match l) as [[ds u]|] eqn:E; [|done].
    exfalso. apply Hno. by eapply DEADLINE_REGEX_match_occurs.
Qed.

Lemma remove_timeout md :
  Metadata.remove GRPC_TIMEOUT_HEADER md
  = Ok (Metadata.with_repr md (delete "grpc-timeout" (Metadata.internalRepr md))).
Proof. reflexivity. Qed.

(** X10. [receiveMetadata] on headers that carry a [grpc-timeout] value.
    If no digit of the first value is followed, after any white space, by a
    unit letter, the call is ended through [sendError] with OUT_OF_RANGE and
    "Invalid deadline", and no metadata is returned.  Otherwise the timer is
    armed with the matched number times the unit, the call is not ended,
    and the metadata returned has lost [grpc-timeout] and kept every other
    key. *)
Theorem receiveMetadata_timeout {Resp} headers (c : Call Resp) v more :
  Metadata.get GRPC_TIMEOUT_HEADER (Metadata.fromHttp2Headers headers).1
    = Ok (v :: more) →
  (¬ timeout_occurs (chars (toString v)) →
   receiveMetadata headers c
   = Ok (sendError (new_Error "Invalid deadline") Status.OUT_OF_RANGE c, None)) ∧
  (timeout_occurs (chars (toString v)) →
   ∃ ds u metadata,
     DEADLINE_REGEX_match (chars (toString v)) = Some (ds, u) ∧
     receiveMetadata headers c
     = Ok (set_deadline (Some (timeout_ms ds u)) c, Some metadata) ∧
     Metadata.get GRPC_TIMEOUT_HEADER metadata = Ok [] ∧
     ∀ k, Metadata.normalizeKey k ≠ GRPC_TIMEOUT_HEADER →
          Metadata.get k metadata
          = Metadata.get k (Metadata.fromHttp2Headers headers).1).
Proof.
  intros Hget. split.
  - intros Hno. unfold receiveMetadata. rewrite Hget. simpl.
    destruct (DEADLINE_REGEX_match (chars (toString v))) as [[ds u]|] eqn:E; [|done].
    exfalso. apply Hno. by eapply DEADLINE_REGEX_match_occurs.
  - intros Ho.
    destruct (DEADLINE_REGEX_match (chars (toString v))) as [[ds u]|] eqn:E;
      [|by apply DEADLINE_REGEX_match_complete in Ho].
    exists ds, u. eexists. split; [done|].
    unfold receiveMetadata. rewrite Hget.
    cbn -[Metadata.remove DEADLINE_REGEX_match timeout_ms].
    rewrite E, remove_timeout.
    split; [reflexivity|]. split.
    { rewrite Metadata.get_legal by reflexivity.
      change (Metadata.normalizeKey GRPC_TIMEOUT_HEADER) with "grpc-timeout".
      simpl. by rewrite lookup_delete_eq. }
    intros k Hk. destruct (Metadata.fromHttp2Headers headers).1 as [r o].
    apply Metadata.get_other. by rewrite lookup_delete_ne.
Qed.

Lemma receiveMetadata_timeout_witness :
  ∃ ds u metadata,
    DEADLINE_REGEX_match (chars "5 S") = Some (ds, u) ∧
    receiveMetadata [(GRPC_TIMEOUT_HEADER, Metadata.HString "5 S")]
                    (open_call echo_handler)
    = Ok (set_deadline (Some (timeout_ms ds u)) (open_call echo_handler),
          Some metadata).
Proof.
  destruct (receiveMetadata_timeout
              [(GRPC_TIMEOUT_HEADER, Metadata.HString "5 S")]
              (open_call echo_handler) (Metadata.VString "5 S") [] eq_refl)
    as [_ H].
  destruct H as (ds & u & metadata & Hm & Hr & _).
  { exists [], "5"%char, [" "%char], "S"%char, []. repeat split. }
  exists ds, u, metadata. split; [exact Hm|exact Hr].
Defined.

(** *** Message framing *)

Lemma byteZ_Zbyte n : (0 <= n < 256)%Z → Base64.byteZ (Base64.Zbyte n) = n.
Proof.
  intros Hn. unfold Base64.byteZ, Base64.Zbyte.
  destruct (Byte.of_N (Z.to_N n)) as [b|] eqn:E; simpl.
  - apply Byte.to_of_N in E. rewrite E. lia.
  - apply Byte.of_N_None_iff in E. lia.
Qed.

(** The number that bytes spell, most significant first. *)
Definition uint_of_bytes (bs : list byte) : Z :=
  fold_left (fun acc b => acc * 256 + Base64.byteZ b)%Z bs 0%Z.

Lemma uint32BE_value n :
  (0 <= n < 4294967296)%Z → uint_of_bytes (uint32BE n) = n.
Proof.
  intros Hn. unfold uint_of_bytes, uint32BE. simpl.
  rewrite !byteZ_Zbyte by (apply Z.mod_pos_bound; lia).
  Z.div_mod_to_equations. lia.
Qed.

Section Requests.
Context {Req Resp : Type}.
(** [handler.deserialize]: it returns the request or throws. *)
Variable deserialize : list byte → ServiceError + Req.

(** [deserializeMessage], for a call with a handler: [bytes.slice(5)] goes
    to the deserializer. *)
Definition deserializeMessage (bytes : list byte) : ServiceError + Req :=
  deserialize (drop 5 bytes).

(** X11. The frame [serializeMessage] builds for a payload shorter than
    2^32 bytes is five bytes longer than the payload: a zero byte, the
    payload length as four big-endian bytes, then the payload; and
    [deserializeMessage] hands the deserializer exactly the payload of such
    a frame. *)
Theorem serializeMessage_frame (c : Call Resp) h value payload :
  handler c = Some h → h_serialize h value = inr payload →
  (Z.of_nat (length payload) < 4294967296)%Z →
  ∃ frame,
    serializeMessage value c = inr frame ∧
    length frame = (5 + length payload)%nat ∧
    take 1 frame = [x00] ∧
    uint_of_bytes (take 4 (drop 1 frame)) = Z.of_nat (length payload) ∧
    drop 5 frame = payload ∧
    deserializeMessage frame = deserialize payload.
Proof.
  intros Hh Hs Hlen. unfold serializeMessage. rewrite Hh, Hs.
  eexists. split; [reflexivity|].
  split; [reflexivity|]. split; [reflexivity|].
  split; [|split; reflexivity].
  change (take 4 (drop 1 (x00 :: uint32BE (Z.of_nat (length payload)) ++ payload)))
    with (uint32BE (Z.of_nat (length payload))).
  apply uint32BE_value. lia.
Qed.

End Requests.

Lemma serializeMessage_frame_witness :
  ∃ frame,
    serializeMessage [x68; x69] (open_call echo_handler) = inr frame ∧
    drop 5 frame = [x68; x69] ∧
    uint_of_bytes (take 4 (drop 1 frame)) = 2%Z.
Proof.
  destruct (serializeMessage_frame (fun bytes => inr bytes)
              (open_call echo_handler) echo_handler [x68; x69] [x68; x69]
              eq_refl eq_refl)
    as (frame & Hf & _ & _ & Hn & Hd & _).
  { simpl. lia. }
  exists frame. split; [exact Hf|]. split; [exact Hd|exact Hn].
Defined.

(** *** The frames a call hands to its stream *)

Definition is_end (f : Frame) : bool :=
  match f with End _ => true | _ => false end.
Definition is_trailers (f : Frame) : bool :=
  match f with Trailers _ => true | _ => false end.

(** What may follow the response headers: no second header block, the
    trailers at most once and only after an end of stream. *)
Fixpoint well_formed_body (ended trailed : bool) (l : list Frame) : bool :=
  match l with
  | [] => true
  | Respond _ :: _ => false
  | Data _ :: rest => well_formed_body ended trailed rest
  | End _ :: rest => well_formed_body true trailed rest
  | Trailers _ :: rest => ended && negb trailed && well_formed_body ended true rest
  end.


Section Frames.
Context {Resp : Type}.
Implicit Types c : Call Resp.

(** Everything that can happen to a server call: [sendMetadata] from the
    surface call, the operations of [Op], the stream's [wantTrailers],
    [error] and [close] events, and the deadline timer. *)
Inductive Action : Type :=
| ASendMetadata (custom : option Metadata.t)
| AOp (o : @Op Resp)
| AWantTrailers
| AStreamError (err : ServiceError)
| AStreamClose (rst : Z)
| ADeadline.

Definition act c (a : Action) : Call Resp :=
  match a with
  | ASendMetadata custom => sendMetadata custom c
  | AOp o => apply_op c o
  | AWantTrailers => on_wantTrailers c
  | AStreamError err => on_stream_error err c
  | AStreamClose rst => on_stream_close rst c
  | ADeadline => handleExpiredDeadline c
  end.

(** The invariant of the stream: before the headers nothing was sent and
    no trailers are awaited; after them the frames are well formed, an owed
    [wantTrailers] means the stream was ended, and a listener still
    installed means no trailers were sent. *)
Record framed (s : Http2Stream) : Prop := mkFramed {
  fr_before : headersSent s = false →
              sent s = [] ∧ wantTrailers_once s = false ∧ wantTrailers_due s = false;
  fr_after : headersSent s = true →
             ∃ h rest, sent s = Respond h :: rest ∧
               well_formed_body false false rest = true ∧
               (wantTrailers_due s = true → existsb is_end rest = true) ∧
               (wantTrailers_once s = true → existsb is_trailers rest = false)
}.





Lemma set_deadline_stream d c : stream (set_deadline d c) = stream c.
Proof. done. Qed.







End Frames.

(** A call cancelled by the client before its handler writes sends nothing,
    not even the response headers. *)
Example cancelled_before_write_sends_nothing :
  sent (stream (fold_left act [AStreamClose NGHTTP2_CANCEL; AOp (OpWrite [x68; x69])]
                  (new_call fresh_stream (Some echo_handler) initialResponseHeaders)))
  = [].
Proof. reflexivity. Qed.

(** *** [Object.assign] on header objects *)

Lemma set_property_eq key v target : (key, v) ∈ set_property key v target.
Proof.
  induction target as [|[k v0] t IH]; simpl; [by left|].
  destruct (String.eqb_spec k key) as [->|]; [by left|by right].
Qed.

Lemma set_property_ne key v target k' v' :
  k' ≠ key → (k', v') ∈ target → (k', v') ∈ set_property key v target.
Proof.
  intros Hne. induction target as [|[k v0] t IH]; simpl;
    [by intros ?%elem_of_nil|].
  intros [[= <- <-]|Hin]%elem_of_cons.
  - destruct (String.eqb_spec k' key); [done|by left].
  - destruct (String.eqb_spec k key); right; [done|by apply IH].
Qed.

Lemma set_property_keys key v target :
  (set_property key v target).*1
  = if bool_decide (key ∈ target.*1) then target.*1 else target.*1 ++ [key].
Proof.
  induction target as [|[k v0] t IH]; [done|].
  cbn [set_property]. destruct (String.eqb_spec k key) as [->|Hne];
    rewrite !fmap_cons; cbn [fst].
  - rewrite bool_decide_eq_true_2; [done|by left].
  - rewrite IH. destruct (bool_decide (key ∈ t.*1)) eqn:E.
    + apply bool_decide_eq_true in E.
      rewrite bool_decide_eq_true_2; [done|by right].
    + apply bool_decide_eq_false in E.
      rewrite bool_decide_eq_false_2; [done|].
      intros [?|?]%elem_of_cons; [by subst|done].
Qed.

Lemma set_property_NoDup key v target :
  NoDup target.*1 → NoDup (set_property key v target).*1.
Proof.
  intros Hnd. rewrite set_property_keys.
  destruct (bool_decide (key ∈ target.*1)) eqn:E; [done|].
  apply bool_decide_eq_false in E. apply NoDup_app. repeat split; [done| |].
  - intros x Hx [->|Hin]%elem_of_cons; [done|by inversion Hin].
  - apply NoDup_singleton.
Qed.

Lemma assign_NoDup target source :
  NoDup target.*1 → NoDup (assign target source).*1.
Proof.
  unfold assign. revert target.
  induction source as [|[k v] source IH]; intros target Hnd; [done|].
  simpl. apply IH. by apply set_property_NoDup.
Qed.

Lemma assign_keeps target source k v :
  k ∉ source.*1 → (k, v) ∈ target → (k, v) ∈ assign target source.
Proof.
  unfold assign. revert target.
  induction source as [|[k1 v1] source IH]; intros target Hk Hin; [done|].
  simpl in *. apply not_elem_of_cons in Hk as [Hne Hk].
  apply IH; [done|]. by apply set_property_ne.
Qed.

Lemma assign_takes target source k v :
  NoDup source.*1 → (k, v) ∈ source → (k, v) ∈ assign target source.
Proof.
  revert target.
  induction source as [|[k1 v1] source IH]; intros target Hnd Hin;
    [by inversion Hin|].
  simpl in Hnd. apply NoDup_cons in Hnd as [Hk Hnd].
  apply elem_of_cons in Hin as [[= <- <-]|Hin].
  - change (assign target ((k, v) :: source))
      with (assign (set_property k v target) source).
    apply assign_keeps; [done|apply set_property_eq].
  - change (assign target ((k1, v1) :: source))
      with (assign (set_property k1 v1 target) source).
    by apply IH.
Qed.

Lemma out_headers_keys h : (out_headers h).*1 = h.*1.
Proof. unfold out_headers. induction h as [|[k v] h IH]; simpl; by f_equal. Qed.

(** The header object of a Metadata object: a key at most once, and every
    entry but [__proto__] with its values in wire form. *)
Lemma toHttp2Headers_entries m :
  NoDup (out_headers (Metadata.toHttp2Headers m)).*1 ∧
  (∀ key vs, Metadata.internalRepr m !! key = Some vs → key ≠ "__proto__" →
     (key, OArr (map Metadata.toWire vs)) ∈ out_headers (Metadata.toHttp2Headers m)) ∧
  (∀ key, Metadata.internalRepr m !! key = None →
     key ∉ (out_headers (Metadata.toHttp2Headers m)).*1).
Proof.
  rewrite out_headers_keys, Metadata.toHttp2Headers_own.
  unfold Metadata.own_entries.
  set (l := filter (fun kv => kv.1 ≠ "__proto__")
                   (map_to_list (Metadata.internalRepr m))).
  assert (Hkeys : (map (fun kv : string * list Metadata.MetadataValue =>
                          (kv.1, Metadata.HArray (map Metadata.toWire kv.2))) l).*1
                  = l.*1).
  { induction l as [|[k v] l' IH]; simpl; by f_equal. }
  rewrite Hkeys. split; [|split].
  - eapply NoDup_fmap_fst.
    + intros k v1 v2 [_ H1]%list_elem_of_filter [_ H2]%list_elem_of_filter.
      apply elem_of_map_to_list in H1, H2. congruence.
    + apply NoDup_filter, NoDup_map_to_list.
  - intros key vs Hl Hne. unfold out_headers.
    apply (list_elem_of_fmap_2
             (fun kv : string * Metadata.HeaderValue => (kv.1, out_value kv.2))
             _ (key, Metadata.HArray (map Metadata.toWire vs))).
    apply (list_elem_of_fmap_2
             (fun kv : string * list Metadata.MetadataValue =>
                (kv.1, Metadata.HArray (map Metadata.toWire kv.2)))
             _ (key, vs)).
    apply list_elem_of_filter. split; [done|]. by apply elem_of_map_to_list.
  - intros key Hl Hin. apply list_elem_of_fmap in Hin as ([k vs] & -> & Hin).
    apply list_elem_of_filter in Hin as [_ Hin].
    apply elem_of_map_to_list in Hin. simpl in Hl. congruence.
Qed.

(** X13. [sendMetadata] merges the custom headers into the module-level
    [defaultResponseHeaders] object itself, so they outlive the call: after
    one call has sent custom metadata, the response headers of a later
    call that sends none still carry every entry of that metadata (other
    than [__proto__]), in wire form. *)
Theorem custom_headers_outlive_call {Resp} (c : Call Resp) m key vs s2
    (h2 : option (Handler Resp)) :
  headersSent (stream c) = false → headersSent s2 = false →
  Metadata.internalRepr m !! key = Some vs → key ≠ "__proto__" →
  ∃ headers,
    sent (stream (sendMetadata None
            (new_call s2 h2 (defaultResponseHeaders (sendMetadata (Some m) c)))))
    = sent s2 ++ [Respond headers] ∧
    (key, OArr (map Metadata.toWire vs)) ∈ headers.
Proof.
  intros Hc Hs2 Hl Hne. unfold sendMetadata at 1. simpl. rewrite Hs2. simpl.
  eexists. split; [reflexivity|].
  unfold sendMetadata. rewrite Hc. simpl.
  destruct (toHttp2Headers_entries m) as (Hnd & Hin & _).
  apply assign_takes; [done|]. by apply Hin.
Qed.

Lemma custom_headers_outlive_call_witness :
  ∃ headers,
    sent (stream (sendMetadata None
            (new_call fresh_stream (Some echo_handler)
               (defaultResponseHeaders
                  (sendMetadata (Some trailer) (open_call echo_handler))))))
    = [Respond headers] ∧
    ("x-trace", OArr ["t1"]) ∈ headers.
Proof.
  apply (custom_headers_outlive_call (open_call echo_handler) trailer "x-trace"
           [Metadata.VString "t1"] fresh_stream (Some echo_handler));
    [reflexivity|reflexivity|reflexivity|discriminate].
Defined.

(** X14. The trailers of a status that carries metadata hold each key once
    and every entry of the metadata (other than [__proto__]) in wire form;
    the metadata is assigned over the status fields, so an entry named
    [grpc-status] or [grpc-message] replaces the status's own, which is
    there only when the metadata has no such key. *)
Theorem trailers_of_status st md :
  st_metadata st = Some md →
  NoDup (trailersToSend st).*1 ∧
  (∀ key vs, Metadata.internalRepr md !! key = Some vs → key ≠ "__proto__" →
     (key, OArr (map Metadata.toWire vs)) ∈ trailersToSend st) ∧
  (Metadata.internalRepr md !! GRPC_STATUS_HEADER = None →
     (GRPC_STATUS_HEADER, ONum (st_code st)) ∈ trailersToSend st) ∧
  (Metadata.internalRepr md !! GRPC_MESSAGE_HEADER = None →
     (GRPC_MESSAGE_HEADER, OStr (encodeURI (st_details st))) ∈ trailersToSend st).
Proof.
  intros Hmd. unfold trailersToSend. rewrite Hmd.
  destruct (toHttp2Headers_entries md) as (Hnd & Hin & Hout).
  split; [|split; [|split]].
  - apply assign_NoDup. simpl. apply NoDup_cons. split.
    + intros [?|?]%elem_of_cons; [done|by apply elem_of_nil in H].
    + apply NoDup_singleton.
  - intros key vs Hl Hne. apply assign_takes; [done|]. by apply Hin.
  - intros Hn. apply assign_keeps; [by apply Hout|]. by left.
  - intros Hn. apply assign_keeps; [by apply Hout|]. right. by left.
Qed.

Definition forged : Metadata.t :=
  Metadata.mk {[ "grpc-status" := [Metadata.VString "0"] ]} Metadata.no_options.

Lemma trailers_of_status_witness :
  ("grpc-status", OArr ["0"])
    ∈ trailersToSend (mkStatus Status.INTERNAL "boom" (Some forged)) ∧
  ("grpc-status", ONum Status.INTERNAL)
    ∉ trailersToSend (mkStatus Status.INTERNAL "boom" (Some forged)).
Proof.
  destruct (trailers_of_status (mkStatus Status.INTERNAL "boom" (Some forged))
              forged eq_refl) as (Hnd & Hin & _).
  split.
  - apply (Hin "grpc-status" [Metadata.VString "0"]); [reflexivity|discriminate].
  - vm_compute. intros H.
    repeat (apply elem_of_cons in H as [H|H]; [discriminate H|]).
    inversion H.
Defined.

(** X15. Deadline expiry.  The status becomes DEADLINE_EXCEEDED with
    details "Deadline exceeded", the call ends up cancelled and emits
    [cancelled] with the reason [deadline].  On a call that was not yet
    cancelled the stream is ended first (after the response headers, if
    they had not been sent) and the timer is cleared; on a cancelled call
    nothing reaches the stream. *)
Theorem deadline_expiry {Resp} (c : Call Resp) :
  cancelled (handleExpiredDeadline c) = true ∧
  emitted (handleExpiredDeadline c) = emitted c ++ [("cancelled", "deadline")] ∧
  st_code (status (handleExpiredDeadline c)) = Status.DEADLINE_EXCEEDED ∧
  st_details (status (handleExpiredDeadline c)) = "Deadline exceeded" ∧
  sent (stream (handleExpiredDeadline c))
  = (if cancelled c then sent (stream c)
     else sent (stream c)
          ++ (if headersSent (stream c) then []
              else [Respond (defaultResponseHeaders c)])
          ++ [End None]) ∧
  deadline (handleExpiredDeadline c) = (if cancelled c then deadline c else None).
Proof.
  unfold handleExpiredDeadline, sendError, end_. simpl.
  destruct (cancelled c) eqn:Hc; simpl.
  - repeat split.
  - destruct (deadline c) eqn:Hd; unfold sendMetadata; simpl;
      destruct (headersSent (stream c)); simpl;
      rewrite <- ?app_assoc; repeat split; done.
Qed.

(** *** Answers *)

Lemma write_open {Resp} chunk (c : Call Resp) :
  cancelled c = false → headersSent (stream c) = true →
  write chunk c = set_stream (stream_write chunk (stream c)) c.
Proof. intros Hc Hs. unfold write, sendMetadata. by rewrite Hc, Hs. Qed.

Lemma writes_open {Resp} chunks (c : Call Resp) :
  cancelled c = false → headersSent (stream c) = true →
  fold_left (fun c chunk => write chunk c) chunks c
  = set_stream (mkStream true (rstCode (stream c)) (wantTrailers_once (stream c))
                         (wantTrailers_due (stream c))
                         (sent (stream c) ++ map Data chunks)) c.
Proof.
  revert c. induction chunks as [|chunk chunks IH]; intros c Hc Hs.
  - simpl. rewrite app_nil_r. destruct c as [? ? ? [] ? ? ?]. simpl in *. by subst.
  - simpl. rewrite write_open by done. rewrite IH by done.
    simpl. unfold set_stream. simpl. by rewrite <- app_assoc.
Qed.

(** X16. A server-streaming answer on a fresh stream: any number of writes
    followed by [end()] hand the stream the response headers, one DATA
    frame per write in the order of the writes, and the end of stream; the
    trailers then carry [grpc-status: 0] and [grpc-message: OK]. *)
Theorem streaming_answer_frames {Resp} (h : option (Handler Resp)) defaults chunks :
  sent (stream (on_wantTrailers (end_ None
          (fold_left (fun c chunk => write chunk c) chunks
                     (new_call fresh_stream h defaults)))))
  = Respond defaults :: map Data chunks
    ++ [ End None;
         Trailers [ (GRPC_STATUS_HEADER, ONum Status.OK);
                    (GRPC_MESSAGE_HEADER, OStr "OK") ] ].
Proof.
  destruct chunks as [|chunk chunks]; [reflexivity|].
  cbn [fold_left]. rewrite writes_open by reflexivity.
  cbn. by rewrite <- !app_assoc.
Qed.

(** X17. A unary answer on a fresh stream: when the response serializes,
    [sendUnaryMessage] hands the stream the response headers and the end
    of stream carrying the framed response; the trailers then carry the
    status OK together with the trailer metadata, if any was passed. *)
Theorem unary_answer {Resp} (h : Handler Resp) defaults value payload trailerMetadata :
  h_serialize h value = inr payload →
  sent (stream (on_wantTrailers
          (sendUnaryMessage None value trailerMetadata
             (new_call fresh_stream (Some h) defaults))))
  = [ Respond defaults;
      End (Some (x00 :: uint32BE (Z.of_nat (length payload)) ++ payload));
      Trailers (trailersToSend (mkStatus Status.OK "OK" trailerMetadata)) ].
Proof.
  intros Hs. unfold sendUnaryMessage, serializeMessage. simpl. rewrite Hs.
  by destruct trailerMetadata.
Qed.

Lemma unary_answer_witness :
  sent (stream (on_wantTrailers
          (sendUnaryMessage None [x68; x69] None (open_call echo_handler))))
  = [ Respond initialResponseHeaders;
      End (Some [x00; x00; x00; x00; x02; x68; x69]);
      Trailers [ (GRPC_STATUS_HEADER, ONum 0); (GRPC_MESSAGE_HEADER, OStr "OK") ] ].
Proof.
  exact (unary_answer echo_handler initialResponseHeaders [x68; x69] [x68; x69]
           None eq_refl).
Defined.

(** *** Receiving the request *)

Section Receive.
Context {Req Resp : Type}.
(** [handler.deserialize]: it throws, or returns a request or [undefined]
    ([None]). *)
Variable deserialize : list byte → ServiceError + option Req.

(** [receiveUnaryMessage], from the stream's [end] event on; [chunks] are
    the Buffers its [data] events brought.  The promise resolves with what
    the deserializer returned, or with [undefined] once a failed
    deserialization has ended the call. *)
Definition receiveUnaryMessage (chunks : list (list byte)) (c : Call Resp)
  : Call Resp * option Req :=
  match deserializeMessage deserialize (concat chunks) with
  | inr request => (c, request)
  | inl err => (sendError err Status.INTERNAL c, None)
  end.

End Receive.

Lemma get_timeout md :
  Metadata.get GRPC_TIMEOUT_HEADER md
  = Ok (default [] (Metadata.internalRepr md !! "grpc-timeout")).
Proof. reflexivity. Qed.

(** [receiveMetadata] never throws. *)
Lemma receiveMetadata_total {Resp} headers (c : Call Resp) :
  ∃ c' metadata, receiveMetadata headers c = Ok (c', metadata).
Proof.
  unfold receiveMetadata. rewrite get_timeout.
  cbn -[Metadata.remove DEADLINE_REGEX_match timeout_ms sendError].
  destruct (default [] _) as [|v more]; [by eexists _, _|].
  destruct (DEADLINE_REGEX_match _) as [[ds u]|]; [|by eexists _, _].
  rewrite remove_timeout. by eexists _, _.
Qed.

Lemma receiveMetadata_rejects {Resp} headers (c : Call Resp) v more :
  Metadata.get GRPC_TIMEOUT_HEADER (Metadata.fromHttp2Headers headers).1
    = Ok (v :: more) →
  DEADLINE_REGEX_match (chars (toString v)) = None →
  receiveMetadata headers c
  = Ok (sendError (new_Error "Invalid deadline") Status.OUT_OF_RANGE c, None).
Proof. intros Hget Hm. unfold receiveMetadata. rewrite Hget. simpl. by rewrite Hm. Qed.

End ServerCall.

(** ** server.ts *)

Module Server.
Import ServerCall.

(** The module-level [unimplementedStatusResponse] object as first created. *)
Definition initialUnimplementedStatusResponse : ServiceError :=
  mkError None (Some (CInt Status.UNIMPLEMENTED))
          (Some "The server does not implement this method") None.

Section Dispatch.
Context {Resp : Type}.

(** The server with the two module-level objects its stream listener
    reads and writes: [unimplementedStatusResponse] and (through the call)
    [defaultResponseHeaders]. *)
Record Server : Type := mkServer {
  handlers : gmap string (Handler Resp);
  started : bool;
  unimplementedStatusResponse : ServiceError;
  responseHeaders : OutHeaders
}.

Definition register (name : string) (h : Handler Resp) (srv : Server)
  : Server * bool :=
  match handlers srv !! name with
  | Some _ => (srv, false)
  | None =>
      (mkServer (<[name := h]> (handlers srv)) (started srv)
                (unimplementedStatusResponse srv) (responseHeaders srv), true)
  end.

(** What the [try] block can throw: the shared
    [unimplementedStatusResponse] object itself, or a fresh [Error]. *)
Inductive Thrown : Type :=
| ThrowUnimplemented
| ThrowError (e : ServiceError).

(** How the listener leaves the stream: ended because the server is not
    started, handed to [handleUnary] / [handleServerStreaming] (which then
    wait for the request message), or answered from the [catch] block by a
    second call object.  The [wantTrailers] listener closes over the call
    whose [sendMetadata] sent the response headers: [listener] is the
    status of the call of the [try] block when that call sent them, and
    [None] when the listener, if any, is the [catch] block's own. *)
Inductive Outcome : Type :=
| StreamEnded (s : Http2Stream)
| Dispatched (c : Call Resp) (metadata : option Metadata.t) (t : HandlerType)
| Failed (c : Call Resp) (listener : option StatusObject).

(** [headers[':path']] followed by [this.handlers.get(path)] *)
Definition lookup_handler (srv : Server) (headers : Metadata.Headers)
  : option (Handler Resp) :=
  match (list_to_map headers : gmap string Metadata.HeaderValue) !! ":path" with
  | Some (Metadata.HString path) => handlers srv !! path
  | _ => None
  end.

(** The body of the [try]: either the stream is dispatched, or something
    is thrown with the stream and the response headers as they are then.
    The call made in the [try] block has installed the [wantTrailers]
    listener exactly when its [sendMetadata] found the headers unsent and
    sent them; the status that listener will read is then that call's. *)
Definition try_dispatch (srv : Server) (s : Http2Stream) (headers : Metadata.Headers)
  : Outcome + (Thrown * Http2Stream * OutHeaders * option StatusObject) :=
  match lookup_handler srv headers with
  | None => inr (ThrowUnimplemented, s, responseHeaders srv, None)
  | Some h =>
      let call := new_call s (Some h) (responseHeaders srv) in
      match receiveMetadata headers call with
      | Throw msg => inr (ThrowError (new_Error msg), s, responseHeaders srv, None)
      | Ok (call, metadata) =>
          match h_type h with
          | unary => inl (Dispatched call metadata unary)
          | serverStream => inl (Dispatched call metadata serverStream)
          | clientStream | bidi =>
              inr (ThrowError (new_Error "not implemented yet"),
                   stream call, defaultResponseHeaders call,
                   if negb (headersSent s) && headersSent (stream call)
                   then Some (status call) else None)
          end
      end
  end.

(** [err.code = Status.INTERNAL] *)
Definition set_code_INTERNAL (e : ServiceError) : ServiceError :=
  mkError (err_message e) (Some (CInt Status.INTERNAL)) (err_details e)
          (err_metadata e).

(** The ['stream'] listener installed by [_setupHandlers]; [s] is the
    stream the runtime hands over with the event. *)
Definition on_stream (srv : Server) (s : Http2Stream) (headers : Metadata.Headers)
  : Server * Outcome :=
  if negb (started srv) then (srv, StreamEnded (stream_end None s))
  else
    match try_dispatch srv s headers with
    | inl (Dispatched call metadata t) =>
        (mkServer (handlers srv) (started srv) (unimplementedStatusResponse srv)
                  (defaultResponseHeaders call),
         Dispatched call metadata t)
    | inl out => (srv, out)
    | inr (thrown, s, defaults, listener) =>
        let call := new_call s None defaults in
        let '(err, shared) :=
          match thrown with
          | ThrowUnimplemented =>
              let err := set_code_INTERNAL (unimplementedStatusResponse srv) in
              (err, err)
          | ThrowError e =>
              (set_code_INTERNAL e, unimplementedStatusResponse srv)
          end in
        let call := sendError err Status.UNKNOWN call in
        (mkServer (handlers srv) (started srv) shared (defaultResponseHeaders call),
         Failed call listener)
    end.

End Dispatch.
Arguments Server : clear implicits.
Arguments Outcome : clear implicits.

(** A started server with one unary method. *)
Definition echo_server : Server (list byte) :=
  mkServer {[ "/echo.Echoer/Say" := echo_handler ]} true
           initialUnimplementedStatusResponse initialResponseHeaders.

Definition unknown_request : Metadata.Headers :=
  [ (":method", Metadata.HString "POST");
    (":path", Metadata.HString "/unknown.Svc/M");
    ("content-type", Metadata.HString "application/grpc+proto") ].

(** The [wantTrailers] listener of a call whose status is [st], run on the
    stream as it is now. *)
Definition wantTrailers_of (st : StatusObject) (s : Http2Stream) : Http2Stream :=
  if wantTrailers_due s && wantTrailers_once s
  then stream_sendTrailers (trailersToSend st) s
  else s.

(** The frames on the stream once the runtime has emitted [wantTrailers]:
    the trailers are built from the status of the call that installed the
    listener. *)
Definition frames_after_trailers {Resp} (o : Outcome Resp) : list Frame :=
  match o with
  | Failed c None => sent (stream (on_wantTrailers c))
  | Failed c (Some st) => sent (wantTrailers_of st (stream c))
  | Dispatched c _ _ => sent (stream c)
  | StreamEnded s => sent s
  end.

(** C1. A started server that has no handler for [/unknown.Svc/M] answers
    with response headers, end of stream and trailers whose [grpc-status]
    is 13 (INTERNAL), not 12 (UNIMPLEMENTED): the [catch] block overwrites
    the code of the thrown [unimplementedStatusResponse].  The details are
    the ones the specification gives.  The overwrite lands in the shared
    object, which keeps code 13 afterwards. *)
Theorem unknown_path_status :
  let '(srv, out) := on_stream echo_server fresh_stream unknown_request in
  frames_after_trailers out
  = [ Respond initialResponseHeaders;
      End None;
      Trailers [ (GRPC_STATUS_HEADER, ONum Status.INTERNAL);
                 (GRPC_MESSAGE_HEADER,
                  OStr "The%20server%20does%20not%20implement%20this%20method") ] ]
  ∧ err_code (unimplementedStatusResponse srv) = Some (CInt Status.INTERNAL)
  ∧ Status.INTERNAL ≠ Status.UNIMPLEMENTED.
Proof. vm_compute. repeat split; discriminate. Qed.

(** The same holds for every started server and every path without a
    handler. *)
Lemma missing_handler_status {Resp} (srv : Server Resp) s headers :
  started srv = true → lookup_handler srv headers = None →
  unimplementedStatusResponse srv = initialUnimplementedStatusResponse →
  ∃ c, (on_stream srv s headers).2 = Failed c None ∧
       st_code (status c) = Status.INTERNAL ∧
       st_details (status c) = "The server does not implement this method".
Proof.
  intros Hs Hl Hu. unfold on_stream, try_dispatch. rewrite Hs, Hl, Hu.
  cbn -[end_]. eexists. split; [reflexivity|]. by rewrite end_status.
Qed.

Example known_path_dispatched :
  (on_stream echo_server fresh_stream
     [(":path", Metadata.HString "/echo.Echoer/Say")]).2
  = Dispatched (open_call echo_handler)
      (Some Metadata.new) unary.
Proof. vm_compute. reflexivity. Qed.

(** *** [handleUnary] and [handleServerStreaming] *)

Section Requests.
Context {Req Resp : Type}.
Variable deserialize : list byte → ServiceError + option Req.

(** Whether the user's handler function is called, and with which request
    and call; what the handler then does is the program's business. *)
Inductive Handled : Type :=
| Invoked (request : Req) (c : Call Resp)
| NotInvoked (c : Call Resp).

Definition handleUnary (chunks : list (list byte)) (c : Call Resp) : Handled :=
  let '(c, request) := receiveUnaryMessage deserialize chunks c in
  match request with
  | None => NotInvoked c
  | Some request => if cancelled c then NotInvoked c else Invoked request c
  end.

(** The same guard stands before [handler.func(stream)]. *)
Definition handleServerStreaming (chunks : list (list byte)) (c : Call Resp)
  : Handled :=
  let '(c, request) := receiveUnaryMessage deserialize chunks c in
  match request with
  | None => NotInvoked c
  | Some request => if cancelled c then NotInvoked c else Invoked request c
  end.

(** X18. How a request reaches a unary or server-streaming handler.  The
    bytes of the [data] events are joined, whatever their chunking, and
    everything after the first five bytes, whatever those are, goes to the
    deserializer (nothing, when fewer than five bytes arrived).  If it
    returns a request and the call is not cancelled, the handler is called
    with that request and the call as it was; if the call is cancelled, or
    the deserializer returns [undefined], the handler is not called.  If it
    throws, the handler is not called and the call is ended through
    [sendError], with the error's own integer code if it has one and
    INTERNAL otherwise. *)
Theorem request_delivery chunks (c : Call Resp) prefix payload :
  concat chunks = prefix ++ payload →
  (length prefix = 5%nat ∨ ((length prefix < 5)%nat ∧ payload = [])) →
  handleServerStreaming chunks c = handleUnary chunks c ∧
  match deserialize payload with
  | inr (Some request) =>
      handleUnary chunks c
      = if cancelled c then NotInvoked c else Invoked request c
  | inr None => handleUnary chunks c = NotInvoked c
  | inl err =>
      handleUnary chunks c = NotInvoked (sendError err Status.INTERNAL c) ∧
      st_code (status (sendError err Status.INTERNAL c))
      = match err_code err with
        | Some (CInt n) => n
        | _ => Status.INTERNAL
        end
  end.
Proof.
  intros Hc Hp. split; [done|].
  assert (Hd : drop 5 (concat chunks) = payload).
  { rewrite Hc. destruct Hp as [Hp|[Hp ->]].
    - by rewrite <- Hp, drop_app_length.
    - rewrite app_nil_r. apply drop_ge. lia. }
  unfold handleUnary, receiveUnaryMessage, deserializeMessage. rewrite Hd.
  destruct (deserialize payload) as [err|[request|]]; [|done|done].
  split; [done|]. unfold sendError.
  destruct (err_code err) as [[n|]|]; by rewrite end_status.
Qed.

End Requests.

Lemma request_delivery_witness :
  handleUnary (fun bytes : list byte => inr (Some bytes))
              [[x00; x00; x00]; [x00; x02; x68]; [x69]] (open_call echo_handler)
  = Invoked [x68; x69] (open_call echo_handler).
Proof.
  destruct (request_delivery (fun bytes : list byte => inr (Some bytes))
              [[x00; x00; x00]; [x00; x02; x68]; [x69]] (open_call echo_handler)
              [x00; x00; x00; x00; x02] [x68; x69] eq_refl (or_introl eq_refl))
    as [_ H].
  exact H.
Defined.

(** *** [addService] and [register] *)

Section AddService.
Context {Resp Impl : Type}.

(** One entry of a [ServiceDefinition]. *)
Record MethodDefinition : Type := mkMethod {
  path : string;
  requestStream : bool;
  responseStream : bool;
  originalName : option string;
  responseSerialize : Resp → ServiceError + list byte
}.

(** The function a handler is registered with: a function of the
    implementation object, bound to it, or [defaultHandler[methodType]]. *)
Inductive HandleCall : Type :=
| Bound (f : Impl)
| defaultHandler (t : HandlerType).

(** What [register] stores under a name; [Handler] holds its [type] and
    [serialize]. *)
Record Registered : Type := mkRegistered {
  func : HandleCall;
  registered : Handler Resp
}.

(** The server's [handlers] and [started]. *)
Record Registry : Type := mkRegistry {
  reg_handlers : gmap string Registered;
  reg_started : bool
}.

Definition register_handler (name : string) (f : HandleCall)
    (serialize : Resp → ServiceError + list byte) (t : HandlerType) (r : Registry)
  : Registry * bool :=
  match reg_handlers r !! name with
  | Some _ => (r, false)
  | None =>
      (mkRegistry (<[name := mkRegistered f (mkHandler t serialize)]> (reg_handlers r))
                  (reg_started r), true)
  end.

Definition methodType (attrs : MethodDefinition) : HandlerType :=
  if requestStream attrs then
    if responseStream attrs then bidi else clientStream
  else
    if responseStream attrs then serverStream else unary.

(** [implMap[name]], then [implMap[attrs.originalName]], then the default
    handler; [implementation] is property lookup on the implementation
    object. *)
Definition implementation_of (implementation : string → option Impl)
    (name : string) (attrs : MethodDefinition) : HandleCall :=
  match implementation name with
  | Some f => Bound f
  | None =>
      match originalName attrs with
      | Some original =>
          match implementation original with
          | Some f => Bound f
          | None => defaultHandler (methodType attrs)
          end
      | None => defaultHandler (methodType attrs)
      end
  end.

Definition the_registration (implementation : string → option Impl)
    (name : string) (attrs : MethodDefinition) : Registered :=
  mkRegistered (implementation_of implementation name attrs)
               (mkHandler (methodType attrs) (responseSerialize attrs)).

Definition already_provided (attrs : MethodDefinition) : string :=
  "Method handler for " +:+ path attrs +:+ " already provided.".

(** [serviceKeys.forEach]: the first refused registration throws and the
    methods registered before it stay. *)
Fixpoint add_methods (implementation : string → option Impl)
    (methods : list (string * MethodDefinition)) (r : Registry)
  : Registry * option string :=
  match methods with
  | [] => (r, None)
  | (name, attrs) :: rest =>
      let '(r', success) :=
        register_handler (path attrs) (implementation_of implementation name attrs)
                         (responseSerialize attrs) (methodType attrs) r in
      if success then add_methods implementation rest r'
      else (r', Some (already_provided attrs))
  end.

(** [addService]: the registry it leaves and the message of the error it
    throws, if any.  [None] stands for an argument that is [null] or not an
    object. *)
Definition addService (service : option (list (string * MethodDefinition)))
    (implementation : option (string → option Impl)) (r : Registry)
  : Registry * option string :=
  if reg_started r then (r, Some "Can't add a service to a started server.")
  else
    match service, implementation with
    | Some methods, Some impl =>
        match methods with
        | [] => (r, Some "Cannot add an empty service to a server")
        | _ => add_methods impl methods r
        end
    | _, _ => (r, Some "addService() requires two objects as arguments")
    end.

Definition paths (methods : list (string * MethodDefinition)) : list string :=
  map (fun m => path m.2) methods.

Lemma add_methods_fresh impl methods r :
  NoDup (paths methods) →
  (∀ p, p ∈ paths methods → reg_handlers r !! p = None) →
  ∃ r', add_methods impl methods r = (r', None) ∧
        reg_started r' = reg_started r ∧
        (∀ name attrs, (name, attrs) ∈ methods →
           reg_handlers r' !! path attrs = Some (the_registration impl name attrs)) ∧
        (∀ p, p ∉ paths methods → reg_handlers r' !! p = reg_handlers r !! p).
Proof.
  revert r. induction methods as [|[name attrs] methods IH]; intros r Hnd Hfree.
  - exists r. split; [done|]. split; [done|]. split; [|done].
    intros ? ? H. by apply elem_of_nil in H.
  - simpl in Hnd. apply NoDup_cons in Hnd as [Hp Hnd].
    cbn [add_methods]. unfold register_handler.
    rewrite Hfree by (simpl; by left).
    match goal with
    | |- context [add_methods impl methods ?r1] =>
        destruct (IH r1 Hnd) as (r' & Hadd & Hst & Hin & Hout)
    end.
    { intros p Hin. simpl. rewrite lookup_insert_ne by (intros <-; done).
      apply Hfree. simpl. by right. }
    exists r'. split; [done|]. split; [done|]. split.
    + intros n a [[= -> ->]|Hel]%elem_of_cons; [|by apply Hin].
      rewrite (Hout _ Hp). simpl. by rewrite lookup_insert_eq.
    + intros p Hnp. simpl in Hnp. apply not_elem_of_cons in Hnp as [Hne Hnp].
      rewrite (Hout _ Hnp). simpl. by rewrite lookup_insert_ne.
Qed.

Lemma add_methods_app impl before rest r :
  add_methods impl (before ++ rest) r
  = match add_methods impl before r with
    | (r1, None) => add_methods impl rest r1
    | (r1, Some e) => (r1, Some e)
    end.
Proof.
  revert r. induction before as [|[name attrs] before IH]; intros r; [done|].
  cbn [add_methods app].
  destruct (register_handler _ _ _ _ r) as [r1 [|]]; [apply IH|done].
Qed.

(** X19. [addService] on a server that is not started, with a service
    whose paths are distinct and not yet registered: nothing is thrown and
    every method is registered under its path, with the type its streaming
    flags give and with the implementation's function of that name, else
    of the method's original name, else the default handler of the type;
    no other path changes. *)
Theorem addService_registers impl methods r :
  reg_started r = false → methods ≠ [] → NoDup (paths methods) →
  (∀ p, p ∈ paths methods → reg_handlers r !! p = None) →
  ∃ r', addService (Some methods) (Some impl) r = (r', None) ∧
        (∀ name attrs, (name, attrs) ∈ methods →
           reg_handlers r' !! path attrs = Some (the_registration impl name attrs)) ∧
        (∀ p, p ∉ paths methods → reg_handlers r' !! p = reg_handlers r !! p).
Proof.
  intros Hs Hne Hnd Hfree. unfold addService. rewrite Hs.
  destruct (add_methods_fresh impl methods r Hnd Hfree) as (r' & Hadd & _ & Hin & Hout).
  exists r'. split; [|done]. by destruct methods.
Qed.

(** X20. [addService] is not atomic, and [register] never replaces a
    handler.  When a method's path is already registered, or repeats the
    path of an earlier method of the same service, [addService] throws
    "Method handler for <path> already provided."; by then the methods
    before it have been registered and stay so, the handler that held the
    path is untouched, and the methods after it are not looked at. *)
Theorem addService_not_atomic impl before name attrs after r :
  reg_started r = false → NoDup (paths before) →
  (∀ p, p ∈ paths before → reg_handlers r !! p = None) →
  is_Some (reg_handlers r !! path attrs) ∨ path attrs ∈ paths before →
  ∃ r', addService (Some (before ++ (name, attrs) :: after)) (Some impl) r
        = (r', Some (already_provided attrs)) ∧
        (∀ n a, (n, a) ∈ before →
           reg_handlers r' !! path a = Some (the_registration impl n a)) ∧
        (∀ p, p ∉ paths before → reg_handlers r' !! p = reg_handlers r !! p).
Proof.
  intros Hs Hnd Hfree Hclash. unfold addService. rewrite Hs.
  destruct (add_methods_fresh impl before r Hnd Hfree) as (r1 & Hadd & _ & Hin & Hout).
  exists r1. split; [|done].
  assert (Hreg : is_Some (reg_handlers r1 !! path attrs)).
  { destruct (decide (path attrs ∈ paths before)) as [Hel|Hnel].
    - unfold paths in Hel. apply list_elem_of_fmap in Hel as ([n a] & Hp & Hel).
      simpl in Hp. rewrite Hp, (Hin _ _ Hel). by eexists.
    - rewrite (Hout _ Hnel). by destruct Hclash. }
  assert (Hgo : add_methods impl (before ++ (name, attrs) :: after) r
                = (r1, Some (already_provided attrs))).
  { rewrite add_methods_app, Hadd. cbn [add_methods]. unfold register_handler.
    by destruct Hreg as [x ->]. }
  rewrite <- Hgo. by destruct before.
Qed.

End AddService.
Arguments MethodDefinition : clear implicits.
Arguments Registry : clear implicits.

Definition say : MethodDefinition (list byte) :=
  mkMethod "/echo.Echoer/Say" false false (Some "Say") (fun v => inr v).
Definition shout : MethodDefinition (list byte) :=
  mkMethod "/echo.Echoer/Shout" false true None (fun v => inr v).

(** An implementation object with the one function [Say]. *)
Definition say_only (name : string) : option nat :=
  if String.eqb name "Say" then Some 1%nat else None.

Definition no_services : Registry (list byte) nat := mkRegistry ∅ false.

Lemma addService_registers_witness :
  ∃ r', addService (Some [("say", say); ("shout", shout)]) (Some say_only) no_services
        = (r', None) ∧
        reg_handlers r' !! "/echo.Echoer/Say"
        = Some (mkRegistered (Bound 1%nat) (mkHandler unary (responseSerialize say))) ∧
        reg_handlers r' !! "/echo.Echoer/Shout"
        = Some (mkRegistered (defaultHandler serverStream)
                             (mkHandler serverStream (responseSerialize shout))).
Proof.
  destruct (addService_registers say_only [("say", say); ("shout", shout)] no_services)
    as (r' & Hadd & Hin & _).
  - reflexivity.
  - discriminate.
  - compute_done.
  - intros p _. apply lookup_empty.
  - exists r'. split; [exact Hadd|]. split.
    + apply (Hin "say" say). left.
    + apply (Hin "shout" shout). right. left.
Defined.

Lemma addService_not_atomic_witness :
  ∃ r', addService (Some [("say", say); ("again", say); ("shout", shout)])
                   (Some say_only) no_services
        = (r', Some "Method handler for /echo.Echoer/Say already provided.") ∧
        reg_handlers r' !! "/echo.Echoer/Say"
        = Some (mkRegistered (Bound 1%nat) (mkHandler unary (responseSerialize say))) ∧
        reg_handlers r' !! "/echo.Echoer/Shout" = None.
Proof.
  destruct (addService_not_atomic say_only [("say", say)] "again" say
              [("shout", shout)] no_services)
    as (r' & Hadd & Hin & Hout).
  - reflexivity.
  - compute_done.
  - intros p _. apply lookup_empty.
  - right. compute_done.
  - exists r'. split; [exact Hadd|]. split.
    + apply (Hin "say" say). left.
    + rewrite Hout; [reflexivity|]. compute_done.
Defined.

(** *** What the stream listener does with a request it cannot serve *)

(** Whether the request carries a [grpc-timeout] whose first value
    [DEADLINE_REGEX] does not match. *)
Definition invalid_timeout (headers : Metadata.Headers) : bool :=
  match Metadata.get GRPC_TIMEOUT_HEADER (Metadata.fromHttp2Headers headers).1 with
  | Ok (v :: _) =>
      match DEADLINE_REGEX_match (chars (toString v)) with
      | None => true
      | Some _ => false
      end
  | _ => false
  end.

(** X21. A request on a new stream for a registered client-streaming or
    bidirectional method is answered from the [catch] block, by a second
    call whose status is INTERNAL "not implemented yet".  The client is
    sent the response headers, the end of stream and trailers with
    [grpc-status] 13 and that message, unless the request carries a
    [grpc-timeout] that [DEADLINE_REGEX] does not match: then the first
    call has already sent the headers and ended the stream, the
    [wantTrailers] listener is the first call's, the stream is ended a
    second time, and the trailers carry [grpc-status] 11 "Invalid
    deadline". *)
Theorem streaming_requests_unimplemented {Resp} (srv : Server Resp) headers h :
  started srv = true → lookup_handler srv headers = Some h →
  h_type h = clientStream ∨ h_type h = bidi →
  ∃ c listener,
    (on_stream srv fresh_stream headers).2 = Failed c listener ∧
    st_code (status c) = Status.INTERNAL ∧
    st_details (status c) = "not implemented yet" ∧
    frames_after_trailers (Failed c listener)
    = if invalid_timeout headers
      then [ Respond (responseHeaders srv); End None; End None;
             Trailers [ (GRPC_STATUS_HEADER, ONum Status.OUT_OF_RANGE);
                        (GRPC_MESSAGE_HEADER, OStr "Invalid%20deadline") ] ]
      else [ Respond (responseHeaders srv); End None;
             Trailers [ (GRPC_STATUS_HEADER, ONum Status.INTERNAL);
                        (GRPC_MESSAGE_HEADER, OStr "not%20implemented%20yet") ] ].
Proof.
  intros Hs Hl Ht. unfold on_stream, try_dispatch, invalid_timeout, receiveMetadata.
  rewrite Hs, Hl, get_timeout.
  cbn -[Metadata.remove DEADLINE_REGEX_match timeout_ms sendError trailersToSend].
  destruct (default [] _) as [|v more].
  - destruct Ht as [-> | ->]; eexists _, _; by repeat split.
  - destruct (DEADLINE_REGEX_match _) as [[ds u]|].
    + rewrite remove_timeout.
      destruct Ht as [-> | ->]; eexists _, _; by repeat split.
    + destruct Ht as [-> | ->]; eexists _, _; by repeat split.
Qed.

Definition upload_server : Server (list byte) :=
  mkServer {[ "/echo.Echoer/Upload" := mkHandler clientStream (fun v => inr v) ]} true
           initialUnimplementedStatusResponse initialResponseHeaders.

Lemma streaming_requests_unimplemented_witness :
  frames_after_trailers
    (on_stream upload_server fresh_stream
       [(":path", Metadata.HString "/echo.Echoer/Upload")]).2
  = [ Respond initialResponseHeaders; End None;
      Trailers [ (GRPC_STATUS_HEADER, ONum Status.INTERNAL);
                 (GRPC_MESSAGE_HEADER, OStr "not%20implemented%20yet") ] ] ∧
  frames_after_trailers
    (on_stream upload_server fresh_stream
       [ (":path", Metadata.HString "/echo.Echoer/Upload");
         ("grpc-timeout", Metadata.HString "5x") ]).2
  = [ Respond initialResponseHeaders; End None; End None;
      Trailers [ (GRPC_STATUS_HEADER, ONum Status.OUT_OF_RANGE);
                 (GRPC_MESSAGE_HEADER, OStr "Invalid%20deadline") ] ].
Proof.
  split.
  - destruct (streaming_requests_unimplemented upload_server
                [(":path", Metadata.HString "/echo.Echoer/Upload")]
                (mkHandler clientStream (fun v => inr v)))
      as (c & listener & -> & _ & _ & ->); [reflexivity|reflexivity|by left|].
    reflexivity.
  - destruct (streaming_requests_unimplemented upload_server
                [ (":path", Metadata.HString "/echo.Echoer/Upload");
                  ("grpc-timeout", Metadata.HString "5x") ]
                (mkHandler clientStream (fun v => inr v)))
      as (c & listener & -> & _ & _ & ->); [reflexivity|reflexivity|by left|].
    reflexivity.
Defined.

(** X22. An invalid [grpc-timeout] does not stop the dispatch.  For a
    registered unary or server-streaming method whose request carries a
    timeout value that [DEADLINE_REGEX] does not match, the listener ends
    the stream with OUT_OF_RANGE "Invalid deadline" and still hands the
    call, with no metadata, to the method's handling function; the call is
    not marked cancelled. *)
Theorem invalid_deadline_still_dispatched {Resp} (srv : Server Resp) s headers h v more :
  started srv = true → lookup_handler srv headers = Some h →
  h_type h = unary ∨ h_type h = serverStream →
  Metadata.get GRPC_TIMEOUT_HEADER (Metadata.fromHttp2Headers headers).1
    = Ok (v :: more) →
  DEADLINE_REGEX_match (chars (toString v)) = None →
  ∃ c, (on_stream srv s headers).2 = Dispatched c None (h_type h) ∧
       st_code (status c) = Status.OUT_OF_RANGE ∧
       st_details (status c) = "Invalid deadline" ∧
       cancelled c = false ∧
       sent (stream c)
       = sent s ++ (if headersSent s then [] else [Respond (responseHeaders srv)])
         ++ [End None].
Proof.
  intros Hs Hl Ht Hget Hm. unfold on_stream, try_dispatch. rewrite Hs, Hl.
  rewrite (receiveMetadata_rejects headers _ v more Hget Hm).
  eexists. split; [by destruct Ht as [-> | ->]|].
  unfold sendError, end_, sendMetadata. simpl.
  destruct (headersSent s); simpl; rewrite <- ?app_assoc; by repeat split.
Qed.

Lemma invalid_deadline_still_dispatched_witness :
  ∃ c, (on_stream echo_server fresh_stream
          [ (":path", Metadata.HString "/echo.Echoer/Say");
            ("grpc-timeout", Metadata.HString "5x") ]).2
       = Dispatched c None unary ∧
       st_code (status c) = Status.OUT_OF_RANGE ∧
       sent (stream c) = [Respond initialResponseHeaders; End None].
Proof.
  destruct (invalid_deadline_still_dispatched echo_server fresh_stream
              [ (":path", Metadata.HString "/echo.Echoer/Say");
                ("grpc-timeout", Metadata.HString "5x") ]
              echo_handler (Metadata.VString "5x") [])
    as (c & Hd & Hc & _ & _ & Hsent);
    [reflexivity|reflexivity|by left|reflexivity|reflexivity|].
  exists c. split; [exact Hd|]. split; [exact Hc|exact Hsent].
Defined.

End Server.

(** ** service-config.ts *)

Module ServiceConfig.

Local Set Warnings "-register-all".

(** A value produced by [JSON.parse]. *)
Inductive json : Type :=
| JNull
| JBool (b : bool)
| JNum (q : Q)
| JStr (s : string)
| JArr (l : list json)
| JObj (fields : list (string * json)).

(** [key in obj]: a TypeError on a primitive; on an array only indices and
    [length] are present, none of which is asked for here. *)
Definition has (key : string) (obj : json) : result bool :=
  match obj with
  | JObj fields => Ok (bool_decide (key ∈ fields.*1))
  | JArr _ => Ok false
  | _ => Throw ("TypeError: Cannot use 'in' operator to search for '" +:+ key +:+ "'")
  end.

Fixpoint assoc (key : string) (fields : list (string * json)) : option json :=
  match fields with
  | [] => None
  | (k, v) :: rest => if String.eqb k key then Some v else assoc key rest
  end.

(** [obj[key]]; [None] is [undefined]. *)
Definition prop (key : string) (obj : json) : option json :=
  match obj with
  | JObj fields => assoc key fields
  | _ => None
  end.

Definition isString (v : option json) : bool :=
  match v with Some (JStr _) => true | _ => false end.
Definition isArray (v : option json) : bool :=
  match v with Some (JArr _) => true | _ => false end.
Definition isBoolean (v : option json) : bool :=
  match v with Some (JBool _) => true | _ => false end.
Definition isNumber (v : option json) : bool :=
  match v with Some (JNum _) => true | _ => false end.

Fixpoint mapM {A B} (f : A → result B) (l : list A) : result (list B) :=
  match l with
  | [] => Ok []
  | a :: l' => do b <- f a; do bs <- mapM f l'; Ok (b :: bs)
  end.

Record MethodConfigName : Type := mkName {
  service : string;
  method : option string
}.

#[local] Instance MethodConfigName_eq_dec : EqDecision MethodConfigName.
Proof. solve_decision. Defined.

Record MethodConfig : Type := mkMethodConfig {
  name : list MethodConfigName;
  waitForReady : option bool;
  timeout : option string;
  maxRequestBytes : option Q;
  maxResponseBytes : option Q
}.

(** [TIMEOUT_REGEX = /^\d+(\.\d{1,9})?s$/] *)
Definition TIMEOUT_REGEX_test (s : string) : bool :=
  let l := chars s in
  let n := count_while is_digit l in
  (1 <=? n)%nat &&
  match drop n l with
  | [c] => Ascii.eqb c "s"
  | c :: rest =>
      let k := count_while is_digit rest in
      Ascii.eqb c "." && (1 <=? k)%nat && (k <=? 9)%nat &&
      match drop k rest with
      | [c'] => Ascii.eqb c' "s"
      | _ => false
      end
  | [] => false
  end.

Definition CLIENT_LANGUAGE_STRING : string := "node".

Definition validateName (obj : json) : result MethodConfigName :=
  do hasService <- has "service" obj;
  if negb hasService || negb (isString (prop "service" obj)) then
    Throw "Invalid method config name: invalid service"
  else
    let service := match prop "service" obj with Some (JStr s) => s | _ => "" end in
    do hasMethod <- has "method" obj;
    if hasMethod then
      match prop "method" obj with
      | Some (JStr m) => Ok (mkName service (Some m))
      | _ => Throw "Invalid method config name: invalid method"
      end
    else Ok (mkName service None).

Definition validateMethodConfig (obj : json) : result MethodConfig :=
  do hasName <- has "name" obj;
  match hasName, prop "name" obj with
  | true, Some (JArr names) =>
      do name <- mapM validateName names;
      do hasW <- has "waitForReady" obj;
      do waitForReady <-
        (if hasW then
           match prop "waitForReady" obj with
           | Some (JBool b) => Ok (Some b)
           | _ => Throw "Invalid method config: invalid waitForReady"
           end
         else Ok None);
      do hasT <- has "timeout" obj;
      do timeout <-
        (if hasT then
           match prop "timeout" obj with
           | Some (JStr t) =>
               if TIMEOUT_REGEX_test t then Ok (Some t)
               else Throw "Invalid method config: invalid timeout"
           | _ => Throw "Invalid method config: invalid timeout"
           end
         else Ok None);
      do hasReq <- has "maxRequestBytes" obj;
      do maxRequestBytes <-
        (if hasReq then
           match prop "maxRequestBytes" obj with
           | Some (JNum n) => Ok (Some n)
           | _ => Throw "Invalid method config: invalid maxRequestBytes"
           end
         else Ok None);
      do hasResp <- has "maxResponseBytes" obj;
      do maxResponseBytes <-
        (if hasResp then
           match prop "maxResponseBytes" obj with
           | Some (JNum n) => Ok (Some n)
           | _ => Throw "Invalid method config: invalid maxRequestBytes"
           end
         else Ok None);
      Ok (mkMethodConfig name waitForReady timeout maxRequestBytes maxResponseBytes)
  | _, _ => Throw "Invalid method config: invalid name array"
  end.

(** [name.service === seenName.service && name.method === seenName.method] *)
Definition same_name (a b : MethodConfigName) : bool :=
  String.eqb (service a) (service b) &&
  match method a, method b with
  | Some x, Some y => String.eqb x y
  | None, None => true
  | _, _ => false
  end.

Definition duplicate_name_error (n : MethodConfigName) : string :=
  "Invalid service config: duplicate name " +:+ service n +:+ "/"
  +:+ default "undefined" (method n).

(** The inner loops of the uniqueness check: each name of one method config
    is compared with every name seen so far, then pushed. *)
Fixpoint check_names (names seen : list MethodConfigName)
  : result (list MethodConfigName) :=
  match names with
  | [] => Ok seen
  | n :: rest =>
      if existsb (same_name n) seen then Throw (duplicate_name_error n)
      else check_names rest (seen ++ [n])
  end.

(** The outer loop, over the validated method configs. *)
Fixpoint check_method_configs (mcs : list MethodConfig) (seen : list MethodConfigName)
  : result unit :=
  match mcs with
  | [] => Ok tt
  | mc :: rest =>
      do seen <- check_names (name mc) seen;
      check_method_configs rest seen
  end.

Section Validation.
(** [lbconfig.validateConfig] and the type of what it returns; [os.hostname()];
    [JSON.parse]. *)
Context {LoadBalancingConfig : Type}.
Variable validateConfig : json → result LoadBalancingConfig.
Variable hostname : string.
Variable JSON_parse : string → result json.

Record ServiceConfig : Type := mkServiceConfig {
  loadBalancingPolicy : option string;
  loadBalancingConfig : list LoadBalancingConfig;
  methodConfig : list MethodConfig
}.

(** The first part of [validateServiceConfig]: every check but the
    uniqueness of names; it fills [result]. *)
Definition collectServiceConfig (obj : json) : result ServiceConfig :=
  do hasPolicy <- has "loadBalancingPolicy" obj;
  do policy <-
    (if hasPolicy then
       match prop "loadBalancingPolicy" obj with
       | Some (JStr p) => Ok (Some p)
       | _ => Throw "Invalid service config: invalid loadBalancingPolicy"
       end
     else Ok None);
  do hasLb <- has "loadBalancingConfig" obj;
  do lbs <-
    (if hasLb then
       match prop "loadBalancingConfig" obj with
       | Some (JArr configs) => mapM validateConfig configs
       | _ => Throw "Invalid service config: invalid loadBalancingConfig"
       end
     else Ok []);
  do hasMc <- has "methodConfig" obj;
  do mcs <-
    (if hasMc then
       match prop "methodConfig" obj with
       | Some (JArr methodConfigs) => mapM validateMethodConfig methodConfigs
       | _ => Ok []
       end
     else Ok []);
  Ok (mkServiceConfig policy lbs mcs).

Definition validateServiceConfig (obj : json) : result ServiceConfig :=
  do result <- collectServiceConfig obj;
  do _ <- check_method_configs (methodConfig result) [];
  Ok result.

Record ServiceConfigCanaryConfig : Type := mkCanary {
  clientLanguage : option (list string);
  percentage : option Q;
  clientHostname : option (list string);
  serviceConfig : ServiceConfig
}.

Definition string_item (msg : string) (v : json) : result string :=
  match v with
  | JStr s => Ok s
  | _ => Throw msg
  end.

(** An optional array of strings, as [clientLanguage] and [clientHostname]
    are read. *)
Definition string_array (key msg : string) (obj : json) : result (option (list string)) :=
  do present <- has key obj;
  if present then
    match prop key obj with
    | Some (JArr items) => do l <- mapM (string_item msg) items; Ok (Some l)
    | _ => Throw msg
    end
  else Ok None.

Definition allowedFields : list string :=
  ["clientLanguage"; "percentage"; "clientHostname"; "serviceConfig"].

Definition includes (l : list string) (x : string) : bool :=
  existsb (String.eqb x) l.

(** [for (const field in obj)] *)
Definition own_keys (obj : json) : list string :=
  match obj with
  | JObj fields => fields.*1
  | _ => []
  end.

Fixpoint check_fields (keys : list string) : result unit :=
  match keys with
  | [] => Ok tt
  | field :: rest =>
      if negb (includes allowedFields field) then
        Throw ("Invalid service config choice: unexpected field " +:+ field)
      else check_fields rest
  end.

Definition validateCanaryConfig (obj : json) : result ServiceConfigCanaryConfig :=
  do hasSc <- has "serviceConfig" obj;
  if negb hasSc then Throw "Invalid service config choice: missing service config"
  else
    do sc <- validateServiceConfig (default JNull (prop "serviceConfig" obj));
    do lang <- string_array "clientLanguage"
                 "Invalid service config choice: invalid clientLanguage" obj;
    do host <- string_array "clientHostname"
                 "Invalid service config choice: invalid clientHostname" obj;
    do hasPct <- has "percentage" obj;
    do pct <-
      (if hasPct then
         match prop "percentage" obj with
         | Some (JNum p) =>
             if Qle_bool (inject_Z 0) p && Qle_bool p (inject_Z 100) then Ok (Some p)
             else Throw "Invalid service config choice: invalid percentage"
         | _ => Throw "Invalid service config choice: invalid percentage"
         end
       else Ok None);
    do _ <- check_fields (own_keys obj);
    Ok (mkCanary lang pct host sc).

(** The three [continue] tests of the selection loop, in order. *)
Definition discarded (percentile : Q) (cfg : ServiceConfigCanaryConfig) : bool :=
  match percentage cfg with
  | Some p => negb (Qle_bool percentile p)
  | None => false
  end
  || match clientHostname cfg with
     | Some hosts => negb (existsb (fun h => String.eqb h hostname) hosts)
     | None => false
     end
  || match clientLanguage cfg with
     | Some langs => negb (existsb (fun l => String.eqb l CLIENT_LANGUAGE_STRING) langs)
     | None => false
     end.

(** The [for (const config of obj)] loop. *)
Fixpoint select (configs : list json) (percentile : Q) : result ServiceConfig :=
  match configs with
  | [] => Throw "No matching service config found"
  | config :: rest =>
      do validatedConfig <- validateCanaryConfig config;
      if discarded percentile validatedConfig then select rest percentile
      else Ok (serviceConfig validatedConfig)
  end.

Definition validateAndSelectCanaryConfig (obj : json) (percentile : Q)
  : result ServiceConfig :=
  match obj with
  | JArr configs => select configs percentile
  | _ => Throw "Invalid service config list"
  end.

Definition is_config_record (record : list string) : bool :=
  match record with
  | first :: _ => startsWith first "grpc_config="
  | [] => false
  end.

(** [[record[0].substring('grpc_config='.length)].concat(record.slice(1)).join('')] *)
Definition record_string (record : list string) : string :=
  match record with
  | first :: more => join "" (str (drop 12 (chars first)) :: more)
  | [] => ""
  end.

(** [None] is the [null] returned when no record carries a config. *)
Fixpoint extractAndSelectServiceConfig (txtRecord : list (list string)) (percentile : Q)
  : result (option ServiceConfig) :=
  match txtRecord with
  | [] => Ok None
  | record :: rest =>
      if is_config_record record then
        do recordJson <- JSON_parse (record_string record);
        do sc <- validateAndSelectCanaryConfig recordJson percentile;
        Ok (Some sc)
      else extractAndSelectServiceConfig rest percentile
  end.

(** *** Uniqueness of method names *)

Definition all_names (mcs : list MethodConfig) : list MethodConfigName :=
  concat (map name mcs).

(** Two name entries, at different places, with the same service and the
    same method (both absent included). *)
Definition has_duplicate (names : list MethodConfigName) : Prop :=
  ∃ i j a b, i ≠ j ∧ names !! i = Some a ∧ names !! j = Some b ∧
             service a = service b ∧ method a = method b.

Lemma same_name_eq a b : same_name a b = true ↔ a = b.
Proof.
  unfold same_name. destruct a as [sa ma], b as [sb mb]. simpl.
  rewrite andb_true_iff, String.eqb_eq. split.
  - intros [-> H]. f_equal. destruct ma, mb; try done.
    by apply String.eqb_eq in H as ->.
  - intros [= -> ->]. split; [done|]. destruct mb; [|done].
    by apply String.eqb_eq.
Qed.

Lemma existsb_same_name n seen : existsb (same_name n) seen = true ↔ n ∈ seen.
Proof.
  rewrite existsb_exists. split.
  - intros (x & Hin & ->%same_name_eq). by apply list_elem_of_In.
  - intros Hin. exists n. split; [by apply list_elem_of_In|by apply same_name_eq].
Qed.

Lemma NoDup_or_duplicate names : NoDup names ∨ has_duplicate names.
Proof.
  induction names as [|n rest [Hnd|(i & j & a & b & Hij & Ha & Hb & Hs & Hm)]].
  - left. constructor.
  - destruct (decide (n ∈ rest)) as [Hin|Hnin].
    + right. apply list_elem_of_lookup in Hin as [k Hk].
      by exists 0%nat, (S k), n, n.
    + left. by constructor.
  - right. exists (S i), (S j), a, b. repeat split; try done. congruence.
Qed.

Lemma has_duplicate_NoDup names : has_duplicate names ↔ ¬ NoDup names.
Proof.
  rewrite NoDup_alt. split.
  - intros (i & j & a & b & Hij & Ha & Hb & Hs & Hm) H.
    assert (a = b) as -> by (destruct a, b; simpl in *; congruence).
    by apply Hij, (H i j b).
  - intros H. destruct (NoDup_or_duplicate names) as [Hnd|Hdup]; [|done].
    exfalso. by apply H, NoDup_alt.
Qed.

Lemma check_names_spec names seen :
  NoDup seen →
  (check_names names seen = Ok (seen ++ names) ∧ NoDup (seen ++ names)) ∨
  ((∃ e, check_names names seen = Throw e) ∧ ¬ NoDup (seen ++ names)).
Proof.
  revert seen. induction names as [|n rest IH]; intros seen Hnd; simpl.
  - left. by rewrite app_nil_r.
  - destruct (existsb (same_name n) seen) eqn:E.
    + right. split; [by eexists|].
      apply existsb_same_name in E. intros H%NoDup_app.
      destruct H as (_ & H & _). apply (H n E). by left.
    + assert (Hn : n ∉ seen).
      { intros Hin%existsb_same_name. congruence. }
      rewrite (cons_middle n seen rest), app_assoc.
      apply IH, NoDup_app. repeat split; [done| |apply NoDup_singleton].
      intros x Hx ->%list_elem_of_singleton. done.
Qed.

Lemma check_method_configs_spec mcs seen :
  NoDup seen →
  (check_method_configs mcs seen = Ok tt ∧ NoDup (seen ++ all_names mcs)) ∨
  ((∃ e, check_method_configs mcs seen = Throw e) ∧ ¬ NoDup (seen ++ all_names mcs)).
Proof.
  revert seen. induction mcs as [|mc rest IH]; intros seen Hnd; simpl.
  - left. unfold all_names. simpl. by rewrite app_nil_r.
  - unfold all_names. simpl. fold (all_names rest). rewrite app_assoc.
    destruct (check_names_spec (name mc) seen Hnd) as [[-> Hnd']|[[e ->] Hdup]]; simpl.
    + by apply IH.
    + right. split; [by eexists|]. intros H%NoDup_app. by destruct H as [H _].
Qed.

Lemma validated_duplicate_names obj r :
  collectServiceConfig obj = Ok r →
  (is_throw (validateServiceConfig obj) = true
     ↔ has_duplicate (all_names (methodConfig r))) ∧
  (¬ has_duplicate (all_names (methodConfig r)) → validateServiceConfig obj = Ok r).
Proof.
  intros Hr. unfold validateServiceConfig. rewrite Hr. simpl.
  rewrite has_duplicate_NoDup.
  destruct (check_method_configs_spec (methodConfig r) [] (NoDup_nil_2))
    as [[-> Hnd]|[[e ->] Hdup]]; simpl in *.
  - split; [|done]. split; [done|]. intros H. by destruct H.
  - split; [done|]. intros H. destruct H. intros H'. by apply Hdup.
Qed.

(** The name entries of a service config object as the JSON text gives
    them: the (service, method) pairs under [methodConfig[i].name[j]], in
    order, an absent method being [None]. *)
Definition spec_pair (entry : json) : string * option string :=
  (match prop "service" entry with Some (JStr s) => s | _ => "" end,
   match prop "method" entry with Some (JStr m) => Some m | _ => None end).

Definition spec_names_of (mc : json) : list (string * option string) :=
  match prop "name" mc with
  | Some (JArr names) => map spec_pair names
  | _ => []
  end.

Definition spec_name_entries (obj : json) : list (string * option string) :=
  match prop "methodConfig" obj with
  | Some (JArr mcs) => concat (map spec_names_of mcs)
  | _ => []
  end.

(** Two entries at different places are the same pair. *)
Definition spec_duplicated (pairs : list (string * option string)) : Prop :=
  ∃ i j pair, i ≠ j ∧ pairs !! i = Some pair ∧ pairs !! j = Some pair.

Definition pair_of (n : MethodConfigName) : string * option string :=
  (service n, method n).

Lemma assoc_absent key fields : key ∉ fields.*1 → assoc key fields = None.
Proof.
  induction fields as [|[k v] fields IH]; simpl; [done|].
  intros [Hne Hk]%not_elem_of_cons.
  destruct (String.eqb_spec k key) as [->|_]; [done|]. by apply IH.
Qed.

Lemma has_false_prop key obj : has key obj = Ok false → prop key obj = None.
Proof.
  destruct obj; simpl; try done.
  intros [= H]. apply bool_decide_eq_false in H. by apply assoc_absent.
Qed.

Lemma validateName_pair entry n : validateName entry = Ok n → pair_of n = spec_pair entry.
Proof.
  unfold validateName, spec_pair, pair_of.
  destruct (has "service" entry) as [[|]|]; simpl; try done.
  destruct (prop "service" entry) as [[| | |s| |]|]; simpl; try done.
  destruct (has "method" entry) as [[|]|] eqn:Hm; simpl; try done.
  - destruct (prop "method" entry) as [[| | |mth| |]|]; simpl; try done.
    by intros [= <-].
  - rewrite (has_false_prop _ _ Hm). by intros [= <-].
Qed.

Lemma mapM_validateName entries names :
  mapM validateName entries = Ok names → map pair_of names = map spec_pair entries.
Proof.
  revert names. induction entries as [|e entries IH]; intros names; simpl.
  - by intros [= <-].
  - destruct (validateName e) as [n|] eqn:He; simpl; [|done].
    destruct (mapM validateName entries) as [ns|]; simpl; [|done].
    intros [= <-]. simpl. by rewrite (validateName_pair _ _ He), (IH ns).
Qed.

Lemma validateMethodConfig_names mc x :
  validateMethodConfig mc = Ok x → map pair_of (name x) = spec_names_of mc.
Proof.
  unfold validateMethodConfig, spec_names_of.
  destruct (has "name" mc) as [[|]|]; simpl; try done.
  destruct (prop "name" mc) as [[| | | |names|]|]; simpl; try done.
  destruct (mapM validateName names) as [ns|] eqn:Hns; simpl; [|done].
  intros H. apply mapM_validateName in Hns. rewrite <- Hns. clear Hns.
  repeat match type of H with
  | rbind ?r _ = _ => destruct r; simpl in H; [|done]
  end.
  by injection H as <-.
Qed.

Lemma mapM_validateMethodConfig mcs xs :
  mapM validateMethodConfig mcs = Ok xs →
  map pair_of (all_names xs) = concat (map spec_names_of mcs).
Proof.
  revert xs. induction mcs as [|mc mcs IH]; intros xs; simpl.
  - by intros [= <-].
  - destruct (validateMethodConfig mc) as [x|] eqn:Hx; simpl; [|done].
    destruct (mapM validateMethodConfig mcs) as [xs'|]; simpl; [|done].
    intros [= <-]. unfold all_names. simpl. rewrite map_app.
    fold (all_names xs'). by rewrite (validateMethodConfig_names _ _ Hx), (IH xs').
Qed.

Lemma collectServiceConfig_names obj r :
  collectServiceConfig obj = Ok r →
  map pair_of (all_names (methodConfig r)) = spec_name_entries obj.
Proof.
  unfold collectServiceConfig, spec_name_entries. intros H.
  repeat match type of H with
  | rbind ?r _ = _ =>
      lazymatch r with
      | has "methodConfig" obj => fail
      | _ => destruct r; simpl in H; [|done]
      end
  end.
  destruct (has "methodConfig" obj) as [[|]|] eqn:Hh; simpl in H; [| |done].
  - destruct (prop "methodConfig" obj) as [[| | | |mcs|]|]; simpl in H;
      try (by injection H as <-).
    destruct (mapM validateMethodConfig mcs) as [xs|] eqn:Hxs; simpl in H; [|done].
    injection H as <-. simpl. by apply mapM_validateMethodConfig.
  - rewrite (has_false_prop _ _ Hh). by injection H as <-.
Qed.

Lemma spec_duplicated_names names :
  spec_duplicated (map pair_of names) ↔ has_duplicate names.
Proof.
  split.
  - intros (i & j & pair & Hij & Hi & Hj).
    rewrite list_lookup_fmap in Hi, Hj.
    destruct (names !! i) as [a|] eqn:Ha; [|done].
    destruct (names !! j) as [b|] eqn:Hb; [|done].
    simpl in *. exists i, j, a, b.
    assert (Hab : pair_of a = pair_of b) by congruence.
    injection Hab as Hs Hm. done.
  - intros (i & j & a & b & Hij & Ha & Hb & Hs & Hm).
    exists i, j, (pair_of a). rewrite !list_lookup_fmap, Ha, Hb. simpl.
    repeat split; [done|]. unfold pair_of. by rewrite Hs, Hm.
Qed.

(** C6. For a service config object that passes every other check of
    [validateServiceConfig], validation throws exactly when two name
    entries anywhere under its methodConfig array carry the same
    (service, method) pair, an absent method matching only an absent
    method; without such a pair validation succeeds with the collected
    config. *)
Theorem validateServiceConfig_duplicate_names obj r :
  collectServiceConfig obj = Ok r →
  (is_throw (validateServiceConfig obj) = true
     ↔ spec_duplicated (spec_name_entries obj)) ∧
  (¬ spec_duplicated (spec_name_entries obj) → validateServiceConfig obj = Ok r).
Proof.
  intros Hr. rewrite <- (collectServiceConfig_names obj r Hr), spec_duplicated_names.
  by apply validated_duplicate_names.
Qed.

(** *** Canary selection *)


(** A TXT record beginning with [grpc_config=]. *)
Definition spec_config_record (record : list string) : Prop :=
  ∃ rest more, record = ("grpc_config=" +:+ rest) :: more.



Lemma substring_prefix p s : substring 0 (String.length p) (p +:+ s) = p.
Proof. induction p as [|c p IH]; simpl; [by destruct s|by rewrite IH]. Qed.

Lemma substring_prefix_inv p s :
  substring 0 (String.length p) s = p → ∃ rest, s = p +:+ rest.
Proof.
  revert s. induction p as [|c p IH]; intros s; simpl.
  - intros _. by exists s.
  - destruct s as [|c' s]; [done|]. intros [= -> H].
    destruct (IH _ H) as [rest ->]. by exists rest.
Qed.

Lemma is_config_record_spec record :
  is_config_record record = true ↔ spec_config_record record.
Proof.
  unfold is_config_record, spec_config_record, startsWith.
  destruct record as [|first more].
  - split; [done|]. by intros (? & ? & ?).
  - rewrite String.eqb_eq. split.
    + intros (rest & ->)%substring_prefix_inv. by exists rest, more.
    + intros (rest & more' & [= -> ->]). apply substring_prefix.
Qed.








(** *** What validation reads and what it lets pass *)

Definition known_fields : list string :=
  ["loadBalancingPolicy"; "loadBalancingConfig"; "methodConfig"].

(** The object without its property [key]. *)
Definition without (key : string) (fields : list (string * json))
  : list (string * json) :=
  filter (fun kv => kv.1 ≠ key) fields.

Lemma assoc_without key k fields :
  k ≠ key → assoc k (without key fields) = assoc k fields.
Proof.
  intros Hne. unfold without. induction fields as [|[k' v] fields IH]; [done|].
  destruct (decide (k' = key)) as [->|Hk].
  - rewrite filter_cons_False by (simpl; auto). simpl.
    destruct (String.eqb_spec key k); [by subst|done].
  - rewrite filter_cons_True by done. simpl. by rewrite IH.
Qed.

Lemma has_without key k fields :
  k ≠ key → has k (JObj (without key fields)) = has k (JObj fields).
Proof.
  intros Hne. unfold has, without. f_equal. apply bool_decide_ext.
  rewrite !list_elem_of_fmap. split.
  - intros (kv & -> & [_ Hin]%list_elem_of_filter). by exists kv.
  - intros (kv & -> & Hin). exists kv. split; [done|].
    apply list_elem_of_filter. by split.
Qed.

Lemma assoc_has key fields v : assoc key fields = Some v → has key (JObj fields) = Ok true.
Proof.
  intros H. unfold has. f_equal. apply bool_decide_eq_true.
  induction fields as [|[k v'] fields IH]; [done|]. simpl in *.
  destruct (String.eqb_spec k key) as [->|_]; [by left|right; by apply IH].
Qed.

(** X23. [validateServiceConfig] reads the fields [loadBalancingPolicy],
    [loadBalancingConfig] and [methodConfig] and nothing else: removing any
    other field from the object changes neither the result nor the error. *)
Theorem validateServiceConfig_reads_known_fields key fields :
  key ∉ known_fields →
  validateServiceConfig (JObj (without key fields)) = validateServiceConfig (JObj fields).
Proof.
  intros Hk. unfold known_fields in Hk.
  assert (H1 : "loadBalancingPolicy" ≠ key) by (intros <-; apply Hk; compute_done).
  assert (H2 : "loadBalancingConfig" ≠ key) by (intros <-; apply Hk; compute_done).
  assert (H3 : "methodConfig" ≠ key) by (intros <-; apply Hk; compute_done).
  unfold validateServiceConfig, collectServiceConfig, prop.
  by rewrite !has_without, !assoc_without.
Qed.

(** X24. The two array fields are not treated alike.  A [methodConfig]
    that is present but not an array is passed over: the object validates
    exactly as it does without the field.  A [loadBalancingConfig] that is
    present but not an array makes validation throw. *)
Theorem validateServiceConfig_non_array_fields fields v :
  (∀ items, v ≠ JArr items) →
  (assoc "methodConfig" fields = Some v →
   validateServiceConfig (JObj fields)
   = validateServiceConfig (JObj (without "methodConfig" fields))) ∧
  (assoc "loadBalancingConfig" fields = Some v →
   is_throw (validateServiceConfig (JObj fields)) = true).
Proof.
  intros Hv. split.
  - intros Hmc. unfold validateServiceConfig, collectServiceConfig, prop.
    rewrite !has_without, !assoc_without by done.
    rewrite (assoc_has _ _ _ Hmc), Hmc.
    assert (Hgone : has "methodConfig" (JObj (without "methodConfig" fields)) = Ok false).
    { unfold has, without. f_equal. apply bool_decide_eq_false.
      rewrite list_elem_of_fmap. intros (kv & Hkv & [Hne _]%list_elem_of_filter).
      by apply Hne. }
    rewrite Hgone.
    destruct v as [| | | |items|]; try done. by destruct (Hv items).
  - intros Hlb. unfold validateServiceConfig, collectServiceConfig, prop.
    rewrite (assoc_has _ _ _ Hlb), Hlb.
    destruct (has "loadBalancingPolicy" (JObj fields)) as [[]|]; simpl; [| |done].
    + destruct (assoc "loadBalancingPolicy" fields) as [[]|]; simpl; try done;
        destruct v as [| | | |items|]; try done; by destruct (Hv items).
    + destruct v as [| | | |items|]; try done; by destruct (Hv items).
Qed.

(** X25. A choice that [validateCanaryConfig] accepts has a percentage
    only if the object has the number as its [percentage] field, and that
    number lies between 0 and 100, bounds included. *)
Theorem validateCanaryConfig_percentage obj cfg p :
  validateCanaryConfig obj = Ok cfg → percentage cfg = Some p →
  prop "percentage" obj = Some (JNum p) ∧ (0 <= p)%Q ∧ (p <= 100)%Q.
Proof.
  unfold validateCanaryConfig.
  destruct (has "serviceConfig" obj) as [[]|]; simpl; [|done|done].
  destruct (validateServiceConfig _) as [sc|]; simpl; [|done].
  destruct (string_array "clientLanguage" _ obj) as [lang|]; simpl; [|done].
  destruct (string_array "clientHostname" _ obj) as [host|]; simpl; [|done].
  destruct (has "percentage" obj) as [[]|]; simpl; [| |done].
  - destruct (prop "percentage" obj) as [[| |q| | |]|]; simpl; try done.
    destruct (Qle_bool (inject_Z 0) q) eqn:E0; simpl; [|done].
    destruct (Qle_bool q (inject_Z 100)) eqn:E100; simpl; [|done].
    destruct (check_fields (own_keys obj)); simpl; [|done].
    intros [= <-]. simpl. intros [= <-].
    apply Qle_bool_iff in E0, E100. done.
  - destruct (check_fields (own_keys obj)); simpl; [|done].
    intros [= <-]. done.
Qed.

(** X26. [extractAndSelectServiceConfig] returns [null] exactly when no
    TXT record begins with [grpc_config=] (none at all and empty records
    included); once a record does, the result is a service config or an
    error, never [null]. *)
Theorem extractAndSelectServiceConfig_null txt percentile :
  extractAndSelectServiceConfig txt percentile = Ok None
  ↔ Forall (fun record => ¬ spec_config_record record) txt.
Proof.
  induction txt as [|record txt IH];
    cbn -[is_config_record record_string]; [by split|].
  destruct (is_config_record record) eqn:E.
  - split.
    + destruct (JSON_parse _) as [recordJson|]; simpl; [|done].
      by destruct (validateAndSelectCanaryConfig recordJson percentile).
    + intros [Hr _]%Forall_cons. by apply is_config_record_spec in E.
  - rewrite IH. split.
    + intros Hall. apply Forall_cons. split; [|done].
      intros Hr%is_config_record_spec. congruence.
    + by intros [_ ?]%Forall_cons.
Qed.

End Validation.

Arguments ServiceConfig : clear implicits.
Arguments ServiceConfigCanaryConfig : clear implicits.

(** Concrete stand-ins for the collaborators: a load-balancing config
    validator that accepts everything, and a parser that knows one text. *)
Definition lb_any (j : json) : result unit := Ok tt.

Definition name_a : json := JObj [("service", JStr "a")].
Definition name_a_m : json := JObj [("service", JStr "a"); ("method", JStr "m")].

Definition dup_config : json :=
  JObj [("methodConfig",
         JArr [ JObj [("name", JArr [name_a; name_a_m])];
                JObj [("name", JArr [name_a]); ("timeout", JStr "1.5s")] ])].

Definition dup_collected : ServiceConfig unit :=
  mkServiceConfig None []
    [ mkMethodConfig [mkName "a" None; mkName "a" (Some "m")] None None None None;
      mkMethodConfig [mkName "a" None] None (Some "1.5s") None None ].

Lemma validateServiceConfig_duplicate_names_witness :
  collectServiceConfig lb_any dup_config = Ok dup_collected ∧
  is_throw (validateServiceConfig lb_any dup_config) = true.
Proof.
  assert (Hc : collectServiceConfig lb_any dup_config = Ok dup_collected)
    by (vm_compute; reflexivity).
  split; [exact Hc|].
  apply (validateServiceConfig_duplicate_names lb_any dup_config dup_collected Hc).
  exists 0%nat, 2%nat, ("a", None). by repeat split.
Defined.

Example validateServiceConfig_distinct_methods :
  validateServiceConfig lb_any
    (JObj [("methodConfig", JArr [JObj [("name", JArr [name_a_m; name_a])]])])
  = Ok (mkServiceConfig None []
          [mkMethodConfig [mkName "a" (Some "m"); mkName "a" None] None None None None]).
Proof. vm_compute. reflexivity. Qed.

Definition config_of (policy : string) : json :=
  JObj [("loadBalancingPolicy", JStr policy)].



Definition validated_of (policy : string) : ServiceConfig unit :=
  mkServiceConfig (Some policy) [] [].


Example unknown_field_rejected :
  validateCanaryConfig lb_any
    (JObj [("serviceConfig", config_of "B"); ("clientLanguages", JArr [])])
  = Throw "Invalid service config choice: unexpected field clientLanguages".
Proof. vm_compute. reflexivity. Qed.

Definition annotated_config : list (string * json) :=
  [("comment", JStr "canary"); ("loadBalancingPolicy", JStr "A")].

Lemma validateServiceConfig_reads_known_fields_witness :
  validateServiceConfig lb_any (JObj (without "comment" annotated_config))
  = validateServiceConfig lb_any (JObj annotated_config).
Proof.
  apply (validateServiceConfig_reads_known_fields lb_any "comment" annotated_config).
  compute_done.
Defined.

Lemma validateServiceConfig_non_array_fields_witness :
  validateServiceConfig lb_any (JObj [("methodConfig", JStr "none")])
  = validateServiceConfig lb_any (JObj (without "methodConfig" [("methodConfig", JStr "none")])) ∧
  is_throw (validateServiceConfig lb_any (JObj [("loadBalancingConfig", JStr "none")]))
  = true.
Proof.
  split.
  - destruct (validateServiceConfig_non_array_fields lb_any
                [("methodConfig", JStr "none")] (JStr "none")) as [H _];
      [discriminate|]. apply H. reflexivity.
  - destruct (validateServiceConfig_non_array_fields lb_any
                [("loadBalancingConfig", JStr "none")] (JStr "none")) as [_ H];
      [discriminate|]. apply H. reflexivity.
Defined.

Definition choice_half : json :=
  JObj [("percentage", JNum (inject_Z 50)); ("serviceConfig", config_of "A")].

Lemma validateCanaryConfig_percentage_witness :
  validateCanaryConfig lb_any choice_half
    = Ok (mkCanary None (Some (inject_Z 50)) None (validated_of "A")) ∧
  (0 <= inject_Z 50)%Q ∧ (inject_Z 50 <= 100)%Q.
Proof.
  split; [reflexivity|].
  destruct (validateCanaryConfig_percentage lb_any choice_half
              (mkCanary None (Some (inject_Z 50)) None (validated_of "A"))
              (inject_Z 50) eq_refl eq_refl) as (_ & H0 & H100).
  split; [exact H0|exact H100].
Defined.

(** *** The timeout of a method config *)

(** The shape [TIMEOUT_REGEX] describes: digits, then optionally a point
    and one to nine digits, then [s]. *)
Definition spec_timeout (s : string) : Prop :=
  ∃ ds frac,
    chars s = ds ++ frac ++ ["s"%char] ∧
    ds ≠ [] ∧ forallb is_digit ds = true ∧
    (frac = [] ∨
     ∃ fs, frac = "."%char :: fs ∧ (1 ≤ length fs ≤ 9)%nat ∧
           forallb is_digit fs = true).

Lemma count_digits_then ds c rest :
  forallb is_digit ds = true → is_digit c = false →
  count_while is_digit (ds ++ c :: rest) = length ds.
Proof.
  induction ds as [|d ds IH]; simpl; [by intros _ ->|].
  intros [-> Hds]%andb_prop Hc. f_equal. by apply IH.
Qed.

Lemma count_digits_take l :
  forallb is_digit (take (count_while is_digit l) l) = true ∧
  length (take (count_while is_digit l) l) = count_while is_digit l.
Proof.
  induction l as [|c l [IH1 IH2]]; [done|]. simpl.
  destruct (is_digit c) eqn:E; [|done]. simpl. by rewrite E, IH1, IH2.
Qed.

(** X27. [TIMEOUT_REGEX] accepts exactly the strings made of one or more
    digits, optionally a point followed by one to nine digits, and a final
    [s]; these are the timeouts [validateMethodConfig] lets pass. *)
Theorem TIMEOUT_REGEX_test_spec s :
  TIMEOUT_REGEX_test s = true ↔ spec_timeout s.
Proof.
  unfold TIMEOUT_REGEX_test, spec_timeout.
  set (l := chars s). split.
  - destruct (count_digits_take l) as [Hds Hlen].
    pose proof (take_drop (count_while is_digit l) l) as Hsplit.
    intros [Hn Hrest]%andb_prop. apply Nat.leb_le in Hn.
    destruct (drop (count_while is_digit l) l) as [|c [|c' rest]] eqn:Hd; [done| |].
    + apply Ascii.eqb_eq in Hrest as ->.
      exists (take (count_while is_digit l) l), []. split; [exact (eq_sym Hsplit)|].
      split; [|split; [done|by left]].
      intros Hnil. rewrite Hnil in Hlen. simpl in Hlen. lia.
    + apply andb_prop in Hrest as [[[Hc Hk1]%andb_prop Hk9]%andb_prop Htail].
      apply Ascii.eqb_eq in Hc as ->.
      apply Nat.leb_le in Hk1, Hk9.
      destruct (count_digits_take (c' :: rest)) as [Hfs Hflen].
      pose proof (take_drop (count_while is_digit (c' :: rest)) (c' :: rest)) as Hsplit'.
      destruct (drop (count_while is_digit (c' :: rest)) (c' :: rest))
        as [|c'' [|? ?]] eqn:Hd'; try done.
      apply Ascii.eqb_eq in Htail as ->.
      exists (take (count_while is_digit l) l),
             ("."%char :: take (count_while is_digit (c' :: rest)) (c' :: rest)).
      split.
      { etrans; [exact (eq_sym Hsplit)|]. f_equal. cbn [app]. f_equal.
        exact (eq_sym Hsplit'). }
      split; [|split; [done|right]].
      * intros Hnil. rewrite Hnil in Hlen. simpl in Hlen. lia.
      * eexists. split; [done|]. split; [lia|done].
  - intros (ds & frac & Hl & Hne & Hds & Hfrac). rewrite Hl.
    destruct Hfrac as [->|(fs & -> & Hlen & Hfs)]; simpl.
    + rewrite (count_digits_then ds "s" []) by done.
      rewrite drop_app_length. simpl.
      destruct ds; [done|]. simpl. done.
    + rewrite (count_digits_then ds "." (fs ++ ["s"%char])) by done.
      rewrite drop_app_length.
      assert (Hk : count_while is_digit (fs ++ ["s"%char]) = length fs)
        by (by apply count_digits_then).
      destruct ds as [|d ds]; [done|]. cbn [length Nat.leb andb].
      destruct fs as [|f fs]; [simpl in Hlen; lia|].
      rewrite Hk, drop_app_length.
      destruct Hlen as [_ H9]. apply Nat.leb_le in H9.
      cbn [app length] in *. by rewrite H9.
Qed.

End ServiceConfig.

(** ** call-stream.ts (client side) *)

Module CallStream.

Record StatusObject : Type := mkStatus {
  code : Z;
  details : string;
  metadata : Metadata.t
}.

(** What the [InterceptingListener] is called with.  [OnReceiveStatus]
    carries [this.finalStatus] as the deferred callback reads it. *)
Inductive ListenerEvent : Type :=
| OnReceiveMetadata (m : Metadata.t)
| OnReceiveMessage (message : list byte)
| OnReceiveStatus (status : option StatusObject).

(** Calls made on the [http2.ClientHttp2Stream] and on the subchannel. *)
Inductive StreamOp : Type :=
| close (rst : Z)
| pause
| resume
| write (chunk : list byte)
| end_.

Inductive SubchannelOp : Type :=
| addDisconnectListener
| callRef
| callUnref
| removeDisconnectListener.

(** The attached stream; [destroyed] is the runtime's flag. *)
Record ClientStream : Type := mkClientStream { destroyed : bool }.

(** [http2.constants] *)
Definition NGHTTP2_REFUSED_STREAM : Z := 7.
Definition NGHTTP2_CANCEL : Z := 8.
Definition NGHTTP2_ENHANCE_YOUR_CALM : Z := 11.
Definition NGHTTP2_INADEQUATE_SECURITY : Z := 12.

(** [Http2CallStream].  Besides the fields of the class: the operations
    issued on the stream and the subchannel, whether the disconnect
    listener is installed, the messages handed to
    [filterStack.receiveMessage] and not yet settled, the number of
    [process.nextTick] callbacks not yet run, and what the listener has
    observed. *)
Record Call : Type := mkCall {
  http2Stream : option ClientStream;
  streamOps : list StreamOp;
  subchannel : bool;
  disconnectListening : bool;
  subchannelOps : list SubchannelOp;
  pendingRead : bool;
  pendingWrite : option (list byte);
  writesClosed : bool;
  isReadFilterPending : bool;
  canPush : bool;
  readsClosed : bool;
  statusOutput : bool;
  unpushedReadMessages : list (option (list byte));
  unfilteredReadMessages : list (option (list byte));
  mappedStatusCode : Z;
  finalStatus : option StatusObject;
  filtering : list (list byte);
  nextTicks : nat;
  observed : list ListenerEvent
}.

Definition set_http2Stream (v : option ClientStream) (s : Call) : Call :=
  mkCall v (streamOps s) (subchannel s) (disconnectListening s)
    (subchannelOps s) (pendingRead s) (pendingWrite s) (writesClosed s)
    (isReadFilterPending s) (canPush s) (readsClosed s) (statusOutput s)
    (unpushedReadMessages s) (unfilteredReadMessages s) (mappedStatusCode s)
    (finalStatus s) (filtering s) (nextTicks s) (observed s).

Definition set_streamOps (v : list StreamOp) (s : Call) : Call :=
  mkCall (http2Stream s) v (subchannel s) (disconnectListening s)
    (subchannelOps s) (pendingRead s) (pendingWrite s) (writesClosed s)
    (isReadFilterPending s) (canPush s) (readsClosed s) (statusOutput s)
    (unpushedReadMessages s) (unfilteredReadMessages s) (mappedStatusCode s)
    (finalStatus s) (filtering s) (nextTicks s) (observed s).

Definition set_subchannel (v : bool) (s : Call) : Call :=
  mkCall (http2Stream s) (streamOps s) v (disconnectListening s)
    (subchannelOps s) (pendingRead s) (pendingWrite s) (writesClosed s)
    (isReadFilterPending s) (canPush s) (readsClosed s) (statusOutput s)
    (unpushedReadMessages s) (unfilteredReadMessages s) (mappedStatusCode s)
    (finalStatus s) (filtering s) (nextTicks s) (observed s).

Definition set_disconnectListening (v : bool) (s : Call) : Call :=
  mkCall (http2Stream s) (streamOps s) (subchannel s) v (subchannelOps s)
    (pendingRead s) (pendingWrite s) (writesClosed s) (isReadFilterPending s)
    (canPush s) (readsClosed s) (statusOutput s) (unpushedReadMessages s)
    (unfilteredReadMessages s) (mappedStatusCode s) (finalStatus s)
    (filtering s) (nextTicks s) (observed s).

Definition set_subchannelOps (v : list SubchannelOp) (s : Call) : Call :=
  mkCall (http2Stream s) (streamOps s) (subchannel s) (disconnectListening s)
    v (pendingRead s) (pendingWrite s) (writesClosed s) (isReadFilterPending
    s) (canPush s) (readsClosed s) (statusOutput s) (unpushedReadMessages s)
    (unfilteredReadMessages s) (mappedStatusCode s) (finalStatus s)
    (filtering s) (nextTicks s) (observed s).

Definition set_pendingRead (v : bool) (s : Call) : Call :=
  mkCall (http2Stream s) (streamOps s) (subchannel s) (disconnectListening s)
    (subchannelOps s) v (pendingWrite s) (writesClosed s)
    (isReadFilterPending s) (canPush s) (readsClosed s) (statusOutput s)
    (unpushedReadMessages s) (unfilteredReadMessages s) (mappedStatusCode s)
    (finalStatus s) (filtering s) (nextTicks s) (observed s).

Definition set_pendingWrite (v : option (list byte)) (s : Call) : Call :=
  mkCall (http2Stream s) (streamOps s) (subchannel s) (disconnectListening s)
    (subchannelOps s) (pendingRead s) v (writesClosed s) (isReadFilterPending
    s) (canPush s) (readsClosed s) (statusOutput s) (unpushedReadMessages s)
    (unfilteredReadMessages s) (mappedStatusCode s) (finalStatus s)
    (filtering s) (nextTicks s) (observed s).

Definition set_writesClosed (v : bool) (s : Call) : Call :=
  mkCall (http2Stream s) (streamOps s) (subchannel s) (disconnectListening s)
    (subchannelOps s) (pendingRead s) (pendingWrite s) v (isReadFilterPending
    s) (canPush s) (readsClosed s) (statusOutput s) (unpushedReadMessages s)
    (unfilteredReadMessages s) (mappedStatusCode s) (finalStatus s)
    (filtering s) (nextTicks s) (observed s).

Definition set_isReadFilterPending (v : bool) (s : Call) : Call :=
  mkCall (http2Stream s) (streamOps s) (subchannel s) (disconnectListening s)
    (subchannelOps s) (pendingRead s) (pendingWrite s) (writesClosed s) v
    (canPush s) (readsClosed s) (statusOutput s) (unpushedReadMessages s)
    (unfilteredReadMessages s) (mappedStatusCode s) (finalStatus s)
    (filtering s) (nextTicks s) (observed s).

Definition set_canPush (v : bool) (s : Call) : Call :=
  mkCall (http2Stream s) (streamOps s) (subchannel s) (disconnectListening s)
    (subchannelOps s) (pendingRead s) (pendingWrite s) (writesClosed s)
    (isReadFilterPending s) v (readsClosed s) (statusOutput s)
    (unpushedReadMessages s) (unfilteredReadMessages s) (mappedStatusCode s)
    (finalStatus s) (filtering s) (nextTicks s) (observed s).

Definition set_readsClosed (v : bool) (s : Call) : Call :=
  mkCall (http2Stream s) (streamOps s) (subchannel s) (disconnectListening s)
    (subchannelOps s) (pendingRead s) (pendingWrite s) (writesClosed s)
    (isReadFilterPending s) (canPush s) v (statusOutput s)
    (unpushedReadMessages s) (unfilteredReadMessages s) (mappedStatusCode s)
    (finalStatus s) (filtering s) (nextTicks s) (observed s).

Definition set_statusOutput (v : bool) (s : Call) : Call :=
  mkCall (http2Stream s) (streamOps s) (subchannel s) (disconnectListening s)
    (subchannelOps s) (pendingRead s) (pendingWrite s) (writesClosed s)
    (isReadFilterPending s) (canPush s) (readsClosed s) v
    (unpushedReadMessages s) (unfilteredReadMessages s) (mappedStatusCode s)
    (finalStatus s) (filtering s) (nextTicks s) (observed s).

Definition set_unpushedReadMessages (v : list (option (list byte))) (s : Call) : Call :=
  mkCall (http2Stream s) (streamOps s) (subchannel s) (disconnectListening s)
    (subchannelOps s) (pendingRead s) (pendingWrite s) (writesClosed s)
    (isReadFilterPending s) (canPush s) (readsClosed s) (statusOutput s) v
    (unfilteredReadMessages s) (mappedStatusCode s) (finalStatus s)
    (filtering s) (nextTicks s) (observed s).

Definition set_unfilteredReadMessages (v : list (option (list byte))) (s : Call) : Call :=
  mkCall (http2Stream s) (streamOps s) (subchannel s) (disconnectListening s)
    (subchannelOps s) (pendingRead s) (pendingWrite s) (writesClosed s)
    (isReadFilterPending s) (canPush s) (readsClosed s) (statusOutput s)
    (unpushedReadMessages s) v (mappedStatusCode s) (finalStatus s)
    (filtering s) (nextTicks s) (observed s).

Definition set_mappedStatusCode (v : Z) (s : Call) : Call :=
  mkCall (http2Stream s) (streamOps s) (subchannel s) (disconnectListening s)
    (subchannelOps s) (pendingRead s) (pendingWrite s) (writesClosed s)
    (isReadFilterPending s) (canPush s) (readsClosed s) (statusOutput s)
    (unpushedReadMessages s) (unfilteredReadMessages s) v (finalStatus s)
    (filtering s) (nextTicks s) (observed s).

Definition set_finalStatus (v : option StatusObject) (s : Call) : Call :=
  mkCall (http2Stream s) (streamOps s) (subchannel s) (disconnectListening s)
    (subchannelOps s) (pendingRead s) (pendingWrite s) (writesClosed s)
    (isReadFilterPending s) (canPush s) (readsClosed s) (statusOutput s)
    (unpushedReadMessages s) (unfilteredReadMessages s) (mappedStatusCode s)
    v (filtering s) (nextTicks s) (observed s).

Definition set_filtering (v : list (list byte)) (s : Call) : Call :=
  mkCall (http2Stream s) (streamOps s) (subchannel s) (disconnectListening s)
    (subchannelOps s) (pendingRead s) (pendingWrite s) (writesClosed s)
    (isReadFilterPending s) (canPush s) (readsClosed s) (statusOutput s)
    (unpushedReadMessages s) (unfilteredReadMessages s) (mappedStatusCode s)
    (finalStatus s) v (nextTicks s) (observed s).

Definition set_nextTicks (v : nat) (s : Call) : Call :=
  mkCall (http2Stream s) (streamOps s) (subchannel s) (disconnectListening s)
    (subchannelOps s) (pendingRead s) (pendingWrite s) (writesClosed s)
    (isReadFilterPending s) (canPush s) (readsClosed s) (statusOutput s)
    (unpushedReadMessages s) (unfilteredReadMessages s) (mappedStatusCode s)
    (finalStatus s) (filtering s) v (observed s).

Definition set_observed (v : list ListenerEvent) (s : Call) : Call :=
  mkCall (http2Stream s) (streamOps s) (subchannel s) (disconnectListening s)
    (subchannelOps s) (pendingRead s) (pendingWrite s) (writesClosed s)
    (isReadFilterPending s) (canPush s) (readsClosed s) (statusOutput s)
    (unpushedReadMessages s) (unfilteredReadMessages s) (mappedStatusCode s)
    (finalStatus s) (filtering s) (nextTicks s) v.

(** The call after its constructor and [start(metadata, listener)]. *)
Definition initial : Call :=
  mkCall None [] false false [] false None false false false false false [] []
         Status.UNKNOWN None [] O [].

Definition log_stream (op : StreamOp) (s : Call) : Call :=
  set_streamOps (streamOps s ++ [op]) s.

Definition observe (e : ListenerEvent) (s : Call) : Call :=
  set_observed (observed s ++ [e]) s.

Definition outputStatus (s : Call) : Call :=
  if statusOutput s then s
  else
    let s := set_nextTicks (S (nextTicks s)) (set_statusOutput true s) in
    if subchannel s then
      set_disconnectListening false
        (set_subchannelOps (subchannelOps s ++ [callUnref; removeDisconnectListener]) s)
    else s.

Definition endCall (status : StatusObject) (s : Call) : Call :=
  let latch :=
    match finalStatus s with
    | None => true
    | Some st => (code st =? Status.OK)%Z
    end in
  if latch then
    let s := set_finalStatus (Some status) s in
    if readsClosed s || negb (code status =? Status.OK)%Z then outputStatus s else s
  else s.

(** [push(null)] *)
Definition push_null (s : Call) : Call :=
  let s := set_readsClosed true s in
  match finalStatus s with
  | Some _ => outputStatus s
  | None => s
  end.

Definition push (message : option (list byte)) (s : Call) : Call :=
  match message with
  | None => push_null s
  | Some m =>
      let s := observe (OnReceiveMessage m) s in
      match unpushedReadMessages s with
      | None :: rest => push_null (set_unpushedReadMessages rest s)
      | _ => s
      end
  end.

Definition destroyHttp2Stream (s : Call) : Call :=
  match http2Stream s with
  | Some st => if destroyed st then s else log_stream (close NGHTTP2_CANCEL) s
  | None => s
  end.

Definition cancelWithStatus (status : Z) (details : string) (s : Call) : Call :=
  endCall (mkStatus status details Metadata.new) (destroyHttp2Stream s).

Definition handleFilterError (message : string) (s : Call) : Call :=
  cancelWithStatus Status.INTERNAL message s.

Definition filterReceivedMessage (framedMessage : option (list byte)) (s : Call)
  : Call :=
  match finalStatus s with
  | Some _ => push None s
  | None =>
      match framedMessage with
      | None =>
          if canPush s then push None s
          else set_unpushedReadMessages (unpushedReadMessages s ++ [None]) s
      | Some m =>
          set_filtering (filtering s ++ [m]) (set_isReadFilterPending true s)
      end
  end.

Definition handleFilteredRead (message : list byte) (s : Call) : Call :=
  match finalStatus s with
  | Some _ => push None s
  | None =>
      let s := set_isReadFilterPending false s in
      let s :=
        if canPush s then log_stream pause (set_canPush false (push (Some message) s))
        else set_unpushedReadMessages (unpushedReadMessages s ++ [Some message]) s in
      match unfilteredReadMessages s with
      | nextMessage :: rest =>
          filterReceivedMessage nextMessage (set_unfilteredReadMessages rest s)
      | [] => s
      end
  end.

Definition tryPush (messageBytes : option (list byte)) (s : Call) : Call :=
  if isReadFilterPending s then
    set_unfilteredReadMessages (unfilteredReadMessages s ++ [messageBytes]) s
  else filterReceivedMessage messageBytes s.

Definition startRead (s : Call) : Call :=
  match finalStatus s with
  | Some _ => push None s
  | None =>
      let s := set_canPush true s in
      match http2Stream s with
      | None => set_pendingRead true s
      | Some _ =>
          match unpushedReadMessages s with
          | nextMessage :: rest =>
              set_canPush false (push nextMessage (set_unpushedReadMessages rest s))
          | [] => log_stream resume s
          end
      end
  end.

Definition halfClose (s : Call) : Call :=
  let s := set_writesClosed true s in
  match http2Stream s with
  | Some _ => log_stream end_ s
  | None => s
  end.

(** The continuation of [sendMessageWithContext] once the send filter has
    produced the message. *)
Definition sendFiltered (message : list byte) (s : Call) : Call :=
  match http2Stream s with
  | None => set_pendingWrite (Some message) s
  | Some _ => log_stream (write message) s
  end.

(** The [switch] on [headers[':status']] *)
Definition mapStatus (httpStatus : Z) : Z :=
  if (httpStatus =? 400)%Z then Status.INTERNAL
  else if (httpStatus =? 401)%Z then Status.UNAUTHENTICATED
  else if (httpStatus =? 403)%Z then Status.PERMISSION_DENIED
  else if (httpStatus =? 404)%Z then Status.UNIMPLEMENTED
  else if (httpStatus =? 429)%Z || (httpStatus =? 502)%Z
          || (httpStatus =? 503)%Z || (httpStatus =? 504)%Z then Status.UNAVAILABLE
  else Status.UNKNOWN.

(** The [switch] on [stream.rstCode] in the [close] listener *)
Definition rstStatus (rstCode : Z) : StatusObject :=
  if (rstCode =? NGHTTP2_REFUSED_STREAM)%Z then
    mkStatus Status.UNAVAILABLE "Stream refused by server" Metadata.new
  else if (rstCode =? NGHTTP2_CANCEL)%Z then
    mkStatus Status.CANCELLED "Call cancelled" Metadata.new
  else if (rstCode =? NGHTTP2_ENHANCE_YOUR_CALM)%Z then
    mkStatus Status.RESOURCE_EXHAUSTED "Bandwidth exhausted" Metadata.new
  else if (rstCode =? NGHTTP2_INADEQUATE_SECURITY)%Z then
    mkStatus Status.PERMISSION_DENIED "Protocol not secure enough" Metadata.new
  else mkStatus Status.INTERNAL "" Metadata.new.

(** *** What the listener has observed *)

Fixpoint statuses (log : list ListenerEvent) : nat :=
  match log with
  | [] => O
  | OnReceiveStatus _ :: rest => S (statuses rest)
  | _ :: rest => statuses rest
  end.

Fixpoint messages (log : list ListenerEvent) : list (list byte) :=
  match log with
  | [] => []
  | OnReceiveMessage m :: rest => m :: messages rest
  | _ :: rest => messages rest
  end.

(** No message once a status has been seen; [seen] tells whether one was
    seen before [log]. *)
Fixpoint ordered (seen : bool) (log : list ListenerEvent) : bool :=
  match log with
  | [] => true
  | OnReceiveStatus _ :: rest => ordered true rest
  | OnReceiveMessage _ :: rest => negb seen && ordered seen rest
  | OnReceiveMetadata _ :: rest => ordered seen rest
  end.

(** The fields the status protocol lives on. *)
Definition core (s : Call)
  : bool * nat * option StatusObject * bool * list ListenerEvent :=
  (statusOutput s, nextTicks s, finalStatus s, readsClosed s, observed s).

(** The invariant of the status protocol: before [outputStatus] nothing is
    queued or delivered; after it exactly one delivery is queued or done
    and a final status is latched; a latched status that is not OK, or
    whose reads are closed, has been output; messages precede the status. *)
Record Inv (s : Call) : Prop := mkInv {
  inv_idle : statusOutput s = false → nextTicks s = O ∧ statuses (observed s) = O;
  inv_once : statusOutput s = true →
             (nextTicks s + statuses (observed s) = 1)%nat ∧ is_Some (finalStatus s);
  inv_due : ∀ st, finalStatus s = Some st →
            code st ≠ Status.OK ∨ readsClosed s = true → statusOutput s = true;
  inv_order : ordered false (observed s) = true
}.

(** The deferred callback never hands [null] to [onReceiveStatus]. *)
Definition delivered_ok (e : ListenerEvent) : Prop := e ≠ OnReceiveStatus None.

(** How one handler may move the call: the invariant is kept, a latched
    status stays latched and freezes the messages, an output status stays
    output and queues no further delivery, nothing observed is lost, and
    no [null] status is delivered. *)
Record good (s s' : Call) : Prop := mkGood {
  good_inv : Inv s → Inv s';
  good_latched : is_Some (finalStatus s) →
                 is_Some (finalStatus s') ∧
                 messages (observed s') = messages (observed s);
  good_output : statusOutput s = true →
                statusOutput s' = true ∧ (nextTicks s' ≤ nextTicks s)%nat;
  good_grows : (statuses (observed s) ≤ statuses (observed s'))%nat;
  good_delivered : Inv s → Forall delivered_ok (observed s) →
                   Forall delivered_ok (observed s')
}.

(** *** The status protocol *)

Lemma statuses_app l e :
  statuses (l ++ [e]) = (statuses l + match e with OnReceiveStatus _ => 1 | _ => 0 end)%nat.
Proof. induction l as [|x l IH]; simpl; [by destruct e|]. destruct x; simpl; lia. Qed.

Lemma messages_app l e :
  messages (l ++ [e])
  = messages l ++ match e with OnReceiveMessage m => [m] | _ => [] end.
Proof.
  induction l as [|x l IH]; simpl; [by destruct e|].
  destruct x; simpl; by rewrite IH.
Qed.

Lemma ordered_seen l : ordered true l = true → ordered false l = true.
Proof. induction l as [|x l IH]; simpl; [done|]. destruct x; simpl; auto; done. Qed.

Lemma ordered_app seen l e :
  ordered seen (l ++ [e])
  = ordered seen l &&
    match e with
    | OnReceiveMessage _ => negb seen && (statuses l =? 0)%nat
    | _ => true
    end.
Proof.
  revert seen. induction l as [|x l IH]; intros seen; simpl.
  - destruct e, seen; done.
  - destruct x; simpl; rewrite ?IH; destruct seen, e; simpl;
      rewrite ?andb_false_r, ?andb_true_r; done.
Qed.

Lemma ordered_true_no_message l m :
  ordered true l = true → OnReceiveMessage m ∉ l.
Proof.
  induction l as [|y l IH]; simpl; [intros _ H; inversion H|].
  destruct y; simpl; try done;
    intros H Hin; apply elem_of_cons in Hin as [Heq|Hin];
    try discriminate; by apply IH.
Qed.

Lemma ordered_split seen l1 st l2 m :
  ordered seen (l1 ++ OnReceiveStatus st :: l2) = true → OnReceiveMessage m ∉ l2.
Proof.
  revert seen. induction l1 as [|x l1 IH]; intros seen; simpl.
  - apply ordered_true_no_message.
  - destruct x; simpl; eauto. intros [_ H]%andb_prop. eauto.
Qed.

Lemma good_refl s : good s s.
Proof. by split. Qed.

Lemma delivered_app l e :
  Forall delivered_ok l → delivered_ok e → Forall delivered_ok (l ++ [e]).
Proof. intros Hl He. apply Forall_app. split; [done|by constructor]. Qed.

Lemma good_trans s1 s2 s3 : good s1 s2 → good s2 s3 → good s1 s3.
Proof.
  intros [I1 L1 O1 G1 D1] [I2 L2 O2 G2 D2]. split; [| | | |by auto].
  - auto.
  - intros H. destruct (L1 H) as [H1 E1]. destruct (L2 H1) as [H2 E2].
    split; [done|congruence].
  - intros H. destruct (O1 H) as [H1 E1]. destruct (O2 H1) as [H2 E2].
    split; [done|lia].
  - lia.
Qed.

Lemma good_core s s' : core s' = core s → good s s'.
Proof.
  unfold core. intros [= Hso Hnt Hfs Hrc Hob]. split.
  - intros [I1 I2 I3 I4]. split; rewrite ?Hso, ?Hnt, ?Hfs, ?Hrc, ?Hob; done.
  - by rewrite Hfs, Hob.
  - by rewrite Hso, Hnt.
  - by rewrite Hob.
  - by rewrite Hob.
Qed.

Lemma Inv_unlatched s : Inv s → finalStatus s = None → statusOutput s = false.
Proof.
  intros [_ I2 _ _] Hf. destruct (statusOutput s); [|done].
  destruct (I2 eq_refl) as [_ [st Hst]]. congruence.
Qed.



Ltac inv_case :=
  let I1 := fresh "I1" in let I2 := fresh "I2" in
  let I3 := fresh "I3" in let I4 := fresh "I4" in
  intros [I1 I2 I3 I4]; simpl in *;
  try (destruct (I1 eq_refl) as [? ?]; clear I1);
  try (destruct (I2 eq_refl) as [? ?]; clear I2);
  split; simpl;
  [ intros; first [discriminate | split; first [done | lia]]
  | intros; first [discriminate | split; [lia | first [done | by eexists]]]
  | let st := fresh "st" in let Hst := fresh "Hst" in let Hd := fresh "Hd" in
    intros st Hst Hd;
    first [ done | discriminate
          | injection Hst as <-; first [done | by destruct Hd | by eapply I3]
          | by eapply I3 ]
  | first [done | rewrite ?ordered_app; simpl; done] ].

Ltac good_case :=
  split; simpl;
  [ inv_case
  | first [by intros [? ?] | by intros _; split; [eexists|]]
  | first [done | by intros; split; [|lia]]
  | rewrite ?statuses_app; simpl; lia
  | by intros ].

Lemma endCall_good status s : good s (endCall status s).
Proof.
  destruct s as [hs ops sub dl sops pr pw wc rfp cp rc so unp unf msc fs flt nt obs].
  unfold endCall, outputStatus. simpl.
  destruct fs as [st|]; simpl.
  - destruct (Z.eqb_spec (code st) Status.OK) as [Est|Est]; [|apply good_refl].
    destruct rc, (Z.eqb_spec (code status) Status.OK) as [E|E], so, sub; simpl;
      good_case.
  - destruct rc, (Z.eqb_spec (code status) Status.OK) as [E|E], so, sub; simpl;
      good_case.
Qed.

Lemma push_null_good s : good s (push_null s).
Proof.
  destruct s as [hs ops sub dl sops pr pw wc rfp cp rc so unp unf msc fs flt nt obs].
  unfold push_null, outputStatus. simpl.
  destruct fs as [st|], rc, so, sub; simpl; good_case.
Qed.

Lemma observe_message_good m s :
  finalStatus s = None → good s (observe (OnReceiveMessage m) s).
Proof.
  intros Hf. unfold observe. split; simpl.
  - intros HI. pose proof (Inv_unlatched s HI Hf) as Hso.
    destruct HI as [I1 I2 I3 I4]. destruct (I1 Hso) as [Hn Hs].
    split; simpl.
    + intros _. by rewrite statuses_app, Hs.
    + intros H. congruence.
    + intros st Hst. congruence.
    + by rewrite ordered_app, I4, Hs.
  - rewrite Hf. by intros [? ?].
  - done.
  - rewrite statuses_app. lia.
  - intros _ H. by apply delivered_app.
Qed.

Lemma observe_metadata_good m s : good s (observe (OnReceiveMetadata m) s).
Proof.
  unfold observe. split; simpl.
  - intros [I1 I2 I3 I4].
    split; simpl; rewrite ?statuses_app, ?ordered_app, ?Nat.add_0_r, ?andb_true_r; done.
  - by rewrite messages_app, app_nil_r.
  - done.
  - rewrite statuses_app. lia.
  - intros _ H. by apply delivered_app.
Qed.

Lemma push_good message s :
  (is_Some message → finalStatus s = None) → good s (push message s).
Proof.
  intros Hm. destruct message as [m|]; [|apply push_null_good].
  specialize (Hm (mk_is_Some _ _ eq_refl)). unfold push. cbv zeta.
  apply good_trans with (observe (OnReceiveMessage m) s);
    [by apply observe_message_good|].
  destruct (unpushedReadMessages (observe (OnReceiveMessage m) s)) as [|[x|] rest];
    try apply good_refl.
  eapply good_trans; [|apply push_null_good]. by apply good_core.
Qed.

Lemma destroyHttp2Stream_core s : core (destroyHttp2Stream s) = core s.
Proof.
  unfold destroyHttp2Stream. destruct (http2Stream s) as [[[]]|]; done.
Qed.

Lemma cancelWithStatus_good status details s : good s (cancelWithStatus status details s).
Proof.
  unfold cancelWithStatus. eapply good_trans; [|apply endCall_good].
  apply good_core, destroyHttp2Stream_core.
Qed.

Lemma filterReceivedMessage_good framed s : good s (filterReceivedMessage framed s).
Proof.
  unfold filterReceivedMessage. destruct (finalStatus s) eqn:Hf.
  - apply push_null_good.
  - destruct framed as [m|]; [by apply good_core|].
    destruct (canPush s); [apply push_null_good|by apply good_core].
Qed.

Lemma handleFilteredRead_good message s : good s (handleFilteredRead message s).
Proof.
  unfold handleFilteredRead. destruct (finalStatus s) eqn:Hf.
  - apply push_null_good.
  - set (s1 := set_isReadFilterPending false s).
    assert (Hs1 : good s s1) by (by apply good_core).
    set (s2 := if canPush s1 then _ else _).
    assert (Hs2 : good s s2).
    { subst s2. destruct (canPush s1).
      - eapply good_trans; [exact Hs1|].
        eapply good_trans; [apply (push_good (Some message)); by intros _|].
        by apply good_core.
      - eapply good_trans; [exact Hs1|]. by apply good_core. }
    destruct (unfilteredReadMessages s2) as [|next rest]; [done|].
    eapply good_trans; [exact Hs2|].
    eapply good_trans; [|apply filterReceivedMessage_good]. by apply good_core.
Qed.

Lemma tryPush_good bytes s : good s (tryPush bytes s).
Proof.
  unfold tryPush. destruct (isReadFilterPending s); [by apply good_core|].
  apply filterReceivedMessage_good.
Qed.

Lemma startRead_good s : good s (startRead s).
Proof.
  unfold startRead. destruct (finalStatus s) eqn:Hf; [apply push_null_good|].
  set (s1 := set_canPush true s).
  destruct (http2Stream s1); [|by apply good_core].
  destruct (unpushedReadMessages s1) as [|next rest]; [by apply good_core|].
  apply good_trans with (set_unpushedReadMessages rest s1); [by apply good_core|].
  apply good_trans with (push next (set_unpushedReadMessages rest s1));
    [apply push_good; by intros _|by apply good_core].
Qed.


Section Filters.
(** The synchronous entry points of the filter stack; a [Throw] is an
    exception raised by a filter. *)
Variable receiveTrailers : StatusObject → result StatusObject.
Variable receiveMetadata : Metadata.t → result Metadata.t.

Definition handleTrailers (headers : Metadata.Headers) (s : Call) : Call :=
  let status :=
    mkStatus (mappedStatusCode s) "" (Metadata.fromHttp2Headers headers).1 in
  match receiveTrailers status with
  | Throw _ =>
      endCall (mkStatus Status.INTERNAL "Failed to process received status"
                        Metadata.new) s
  | Ok finalStatus => endCall finalStatus s
  end.

(** The [response] listener; [endStream] is
    [flags & NGHTTP2_FLAG_END_STREAM].  [Metadata.fromHttp2Headers] catches
    what its entries throw, so the first [catch] of the listener is never
    entered. *)
Definition on_response (httpStatus : Z) (headers : Metadata.Headers)
    (endStream : bool) (s : Call) : Call :=
  let s := set_mappedStatusCode (mapStatus httpStatus) s in
  if endStream then handleTrailers headers s
  else
    let metadata := (Metadata.fromHttp2Headers headers).1 in
    match receiveMetadata metadata with
    | Ok finalMetadata => observe (OnReceiveMetadata finalMetadata) s
    | Throw message =>
        endCall (mkStatus Status.UNKNOWN message Metadata.new) (destroyHttp2Stream s)
    end.

(** The [data] listener, given the messages [this.decoder.write(data)]
    returns. *)
Definition on_data (messages : list (list byte)) (s : Call) : Call :=
  fold_left (fun s message => tryPush (Some message) s) messages s.

Definition on_end (s : Call) : Call := tryPush None s.

(** The [close] listener; the runtime has destroyed the stream by the
    time it runs. *)
Definition on_close (rstCode : Z) (s : Call) : Call :=
  endCall (rstStatus rstCode) (set_http2Stream (Some (mkClientStream true)) s).

Definition disconnectListener (s : Call) : Call :=
  endCall (mkStatus Status.UNAVAILABLE "Connection dropped" Metadata.new) s.

Definition attachHttp2Stream (s : Call) : Call :=
  match finalStatus s with
  | Some _ => log_stream (close NGHTTP2_CANCEL) s
  | None =>
      let s := set_http2Stream (Some (mkClientStream false)) s in
      let s := set_subchannel true s in
      let s := set_disconnectListening true
                 (set_subchannelOps (subchannelOps s ++ [addDisconnectListener; callRef]) s) in
      let s := if pendingRead s then s else log_stream pause s in
      let s := match pendingWrite s with
               | Some w => log_stream (write w) s
               | None => s
               end in
      if writesClosed s then log_stream end_ s else s
  end.

(** The callback queued by [outputStatus]. *)
Definition on_tick (s : Call) : Call :=
  match nextTicks s with
  | S n => observe (OnReceiveStatus (finalStatus s)) (set_nextTicks n s)
  | O => s
  end.

(** Everything that can happen to a started call: calls of its public
    methods, events of the attached stream, settlement of a filter
    promise, the subchannel's disconnect notification, a tick. *)
Inductive Event : Type :=
| EvAttach
| EvResponse (httpStatus : Z) (headers : Metadata.Headers) (endStream : bool)
| EvTrailers (headers : Metadata.Headers)
| EvData (messages : list (list byte))
| EvEnd
| EvClose (rstCode : Z)
| EvDisconnect
| EvFilterResolved (message : list byte)
| EvFilterRejected (message : string)
| EvSendFiltered (message : list byte)
| EvStartRead
| EvHalfClose
| EvCancelWithStatus (status : Z) (details : string)
| EvTick.

Definition attached (s : Call) : bool :=
  match http2Stream s with Some _ => true | None => false end.

(** Stream listeners exist only once a stream is attached, the disconnect
    listener only while it is installed. *)
Definition step (s : Call) (e : Event) : Call :=
  match e with
  | EvAttach => attachHttp2Stream s
  | EvResponse httpStatus headers endStream =>
      if attached s then on_response httpStatus headers endStream s else s
  | EvTrailers headers => if attached s then handleTrailers headers s else s
  | EvData messages => if attached s then on_data messages s else s
  | EvEnd => if attached s then on_end s else s
  | EvClose rstCode => if attached s then on_close rstCode s else s
  | EvDisconnect => if disconnectListening s then disconnectListener s else s
  | EvFilterResolved message => handleFilteredRead message s
  | EvFilterRejected message => handleFilterError message s
  | EvSendFiltered message => sendFiltered message s
  | EvStartRead => startRead s
  | EvHalfClose => halfClose s
  | EvCancelWithStatus status details => cancelWithStatus status details s
  | EvTick => on_tick s
  end.

Definition run (events : list Event) : Call := fold_left step events initial.

(** *** Every handler keeps the protocol *)

Lemma on_tick_good s : good s (on_tick s).
Proof.
  destruct s as [hs ops sub dl sops pr pw wc rfp cp rc so unp unf msc fs flt nt obs].
  unfold on_tick. simpl. destruct nt as [|n]; [apply good_refl|].
  split; simpl.
  - intros [I1 I2 I3 I4]; simpl in *. split; simpl.
    + intros ->. by destruct (I1 eq_refl).
    + intros ->. destruct (I2 eq_refl) as [H1 H2]. rewrite statuses_app. split; [lia|done].
    + done.
    + by rewrite ordered_app, I4.
  - intros H. split; [done|]. by rewrite messages_app, app_nil_r.
  - intros ->. split; [done|lia].
  - rewrite statuses_app. lia.
  - intros [I1 I2 I3 I4] H; simpl in *. apply delivered_app; [done|].
    destruct so; [|by destruct (I1 eq_refl)].
    destruct (I2 eq_refl) as [_ [st ->]]. done.
Qed.

Lemma handleTrailers_good headers s : good s (handleTrailers headers s).
Proof.
  unfold handleTrailers. destruct (receiveTrailers _); apply endCall_good.
Qed.

Lemma on_response_good httpStatus headers endStream s :
  good s (on_response httpStatus headers endStream s).
Proof.
  unfold on_response.
  set (s1 := set_mappedStatusCode (mapStatus httpStatus) s).
  apply good_trans with s1; [by apply good_core|].
  destruct endStream; [apply handleTrailers_good|].
  destruct (receiveMetadata _).
  - apply observe_metadata_good.
  - apply good_trans with (destroyHttp2Stream s1); [|apply endCall_good].
    apply good_core, destroyHttp2Stream_core.
Qed.

Lemma on_data_good messages s : good s (on_data messages s).
Proof.
  unfold on_data. revert s.
  induction messages as [|m messages IH]; intros s; simpl; [apply good_refl|].
  eapply good_trans; [apply tryPush_good|apply IH].
Qed.

Lemma on_close_good rstCode s : good s (on_close rstCode s).
Proof.
  unfold on_close. eapply good_trans; [|apply endCall_good]. by apply good_core.
Qed.

Lemma attachHttp2Stream_good s : good s (attachHttp2Stream s).
Proof.
  apply good_core.
  destruct s as [hs ops sub dl sops pr pw wc rfp cp rc so unp unf msc fs flt nt obs].
  unfold attachHttp2Stream, core. simpl.
  destruct fs; [done|]. by destruct pr, pw, wc.
Qed.

Lemma step_good s e : good s (step s e).
Proof.
  destruct e; simpl.
  - apply attachHttp2Stream_good.
  - destruct (attached s); [apply on_response_good|apply good_refl].
  - destruct (attached s); [apply handleTrailers_good|apply good_refl].
  - destruct (attached s); [apply on_data_good|apply good_refl].
  - destruct (attached s); [apply tryPush_good|apply good_refl].
  - destruct (attached s); [apply on_close_good|apply good_refl].
  - destruct (disconnectListening s); [apply endCall_good|apply good_refl].
  - apply handleFilteredRead_good.
  - apply cancelWithStatus_good.
  - apply good_core. unfold sendFiltered. by destruct (http2Stream s).
  - apply startRead_good.
  - apply good_core. unfold halfClose. simpl. by destruct (http2Stream s).
  - apply cancelWithStatus_good.
  - apply on_tick_good.
Qed.

Lemma steps_good events s : good s (fold_left step events s).
Proof.
  revert s. induction events as [|e events IH]; intros s; simpl; [apply good_refl|].
  eapply good_trans; [apply step_good|apply IH].
Qed.

Lemma Inv_initial : Inv initial.
Proof. by split. Qed.

Lemma Inv_run events : Inv (run events).
Proof. apply (steps_good events initial), Inv_initial. Qed.

Lemma run_app events more : run (events ++ more) = fold_left step more (run events).
Proof. unfold run. apply fold_left_app. Qed.

Lemma delivered_run events : Forall delivered_ok (observed (run events)).
Proof.
  apply (steps_good events initial); [apply Inv_initial|]. constructor.
Qed.

Lemma endCall_outputs status s :
  Inv s → code status ≠ Status.OK → statusOutput (endCall status s) = true.
Proof.
  intros HI Hc.
  destruct s as [hs ops sub dl sops pr pw wc rfp cp rc so unp unf msc fs flt nt obs].
  destruct HI as [_ _ I3 _]. simpl in *.
  unfold endCall, outputStatus. simpl.
  destruct (Z.eqb_spec (code status) Status.OK) as [|_]; [done|].
  rewrite orb_true_r. simpl.
  destruct fs as [st|]; simpl; [|by destruct so, sub].
  destruct (Z.eqb_spec (code st) Status.OK) as [|Hst]; simpl.
  - by destruct so, sub.
  - apply (I3 st eq_refl). by left.
Qed.

Lemma rstStatus_not_OK rstCode : code (rstStatus rstCode) ≠ Status.OK.
Proof.
  unfold rstStatus. repeat case_match; done.
Qed.

Lemma once_output_stays events more :
  statusOutput (run events) = true →
  statuses (observed (run (events ++ EvTick :: more))) = 1%nat.
Proof.
  intros Hso. rewrite run_app. simpl.
  pose proof (Inv_run events) as HI.
  pose proof (on_tick_good (run events)) as [Ht _ Hto _ _].
  specialize (Ht HI). destruct (Hto Hso) as [Hso1 Hnt1].
  assert (Hnt : nextTicks (on_tick (run events)) = O).
  { destruct HI as [_ I2 _ _]. destruct (I2 Hso) as [Hsum _].
    unfold on_tick. destruct (nextTicks (run events)) as [|n] eqn:En; [done|].
    simpl. lia. }
  pose proof (steps_good more (on_tick (run events))) as [Hm _ Hmo _ _].
  destruct (Hmo Hso1) as [Hso2 Hnt2].
  destruct (Hm Ht) as [_ I2 _ _]. destruct (I2 Hso2). lia.
Qed.

(** A status latched but not yet output is output by the next [startRead],
    and the tick after it hands exactly that status to the listener. *)
Lemma held_status_released events st :
  finalStatus (run events) = Some st → statusOutput (run events) = false →
  statusOutput (run (events ++ [EvStartRead])) = true ∧
  observed (run (events ++ [EvStartRead; EvTick]))
  = observed (run events) ++ [OnReceiveStatus (Some st)].
Proof.
  intros Hf Hso. pose proof (Inv_run events) as [I1 _ _ _].
  destruct (I1 Hso) as [Hnt _]. rewrite !run_app. simpl.
  destruct (run events)
    as [hs ops sub dl sops pr pw wc rfp cp rc so unp unf msc fs flt nt obs].
  simpl in *. subst.
  unfold startRead, push, push_null, outputStatus, on_tick. simpl.
  by destruct sub.
Qed.

(** C3, as amended. Whatever happens to a started call, its listener
    observes [onReceiveStatus] at most once and no [onReceiveMessage] after
    it, and the status handed over is never [null].  Once the status has
    been output, no later event (further [endCall]s through trailers,
    disconnects, cancellations or close events, DATA, end of stream,
    filter results, reads) delivers a message or a second status: after
    the next tick exactly one status has been observed, however the call
    goes on.  Response headers are not dropped: whenever they arrive on the
    attached stream without END_STREAM and the metadata filter accepts
    them, they reach [onReceiveMetadata], also after the status.  A close
    event of the attached stream and a cancellation with a code other than
    OK output the status at once; a status that is latched but held back
    (OK with reads still open) is output by the next [startRead] and
    handed over by the tick after it. *)
Theorem final_status_exactly_once events :
  (statuses (observed (run events)) ≤ 1)%nat ∧
  (∀ before status after message,
     observed (run events) = before ++ OnReceiveStatus status :: after →
     is_Some status ∧ OnReceiveMessage message ∉ after) ∧
  (statusOutput (run events) = true →
   ∀ more,
     messages (observed (run (events ++ more))) = messages (observed (run events)) ∧
     statuses (observed (run (events ++ EvTick :: more))) = 1%nat) ∧
  (attached (run events) = true →
   ∀ httpStatus headers finalMetadata,
     receiveMetadata (Metadata.fromHttp2Headers headers).1 = Ok finalMetadata →
     observed (run (events ++ [EvResponse httpStatus headers false]))
     = observed (run events) ++ [OnReceiveMetadata finalMetadata]) ∧
  (attached (run events) = true →
   ∀ rstCode, statusOutput (run (events ++ [EvClose rstCode])) = true) ∧
  (∀ status details, status ≠ Status.OK →
     statusOutput (run (events ++ [EvCancelWithStatus status details])) = true) ∧
  (∀ st, finalStatus (run events) = Some st → statusOutput (run events) = false →
     statusOutput (run (events ++ [EvStartRead])) = true ∧
     observed (run (events ++ [EvStartRead; EvTick]))
     = observed (run events) ++ [OnReceiveStatus (Some st)]).
Proof.
  pose proof (Inv_run events) as HI.
  split; [|split; [|split; [|split; [|split; [|split]]]]].
  - destruct HI as [I1 I2 _ _].
    destruct (statusOutput (run events)).
    + destruct (I2 eq_refl). lia.
    + destruct (I1 eq_refl). lia.
  - intros before status after message Hlog. split.
    + pose proof (delivered_run events) as Hd. rewrite Hlog in Hd.
      apply Forall_app in Hd as [_ Hd]. apply Forall_cons in Hd as [Hd _].
      destruct status; [by eexists|done].
    + destruct HI as [_ _ _ I4]. rewrite Hlog in I4.
      exact (ordered_split _ _ _ _ message I4).
  - intros Hso more. split; [|by apply once_output_stays].
    rewrite run_app. destruct HI as [_ I2 _ _]. destruct (I2 Hso) as [_ Hf].
    by apply (steps_good more (run events)).
  - intros Ha httpStatus headers finalMetadata Hmd. rewrite run_app. simpl.
    rewrite Ha. unfold on_response. by rewrite Hmd.
  - intros Ha rstCode. rewrite run_app. simpl. rewrite Ha.
    unfold on_close. apply endCall_outputs; [|apply rstStatus_not_OK].
    by apply (good_core (run events)).
  - intros status details Hs. rewrite run_app. simpl.
    unfold cancelWithStatus. apply endCall_outputs; [|done].
    apply (good_core (run events)); [apply destroyHttp2Stream_core|done].
  - intros st. apply held_status_released.
Qed.



(** *** Flow control *)

(** What a handler may leave alone: the messages delivered and the
    permission to deliver one. *)
Definition quiet (s s' : Call) : Prop :=
  messages (observed s') = messages (observed s) ∧ canPush s' = canPush s.

Lemma quiet_refl s : quiet s s.
Proof. by split. Qed.

Lemma quiet_trans s1 s2 s3 : quiet s1 s2 → quiet s2 s3 → quiet s1 s3.
Proof. intros [? ?] [? ?]. split; congruence. Qed.

Ltac quiet_case :=
  match goal with s : Call |- _ => destruct s end;
  unfold quiet, endCall, push_null, outputStatus, destroyHttp2Stream, log_stream,
         observe;
  simpl; repeat (case_match; simpl); rewrite ?messages_app, ?app_nil_r; done.

Lemma outputStatus_quiet s : quiet s (outputStatus s).
Proof. quiet_case. Qed.

Lemma endCall_quiet status s : quiet s (endCall status s).
Proof. quiet_case. Qed.

Lemma push_null_quiet s : quiet s (push_null s).
Proof. quiet_case. Qed.

Lemma destroyHttp2Stream_quiet s : quiet s (destroyHttp2Stream s).
Proof. quiet_case. Qed.

Lemma cancelWithStatus_quiet status details s :
  quiet s (cancelWithStatus status details s).
Proof.
  unfold cancelWithStatus.
  eapply quiet_trans; [apply destroyHttp2Stream_quiet|apply endCall_quiet].
Qed.

(** [push] of a message delivers it and leaves [canPush] to its caller. *)
Lemma push_message m s :
  messages (observed (push (Some m) s)) = messages (observed s) ++ [m] ∧
  canPush (push (Some m) s) = canPush s.
Proof.
  unfold push.
  set (s1 := observe (OnReceiveMessage m) s).
  assert (H1 : messages (observed s1) = messages (observed s) ++ [m]
               ∧ canPush s1 = canPush s).
  { subst s1. destruct s. unfold observe. simpl. by rewrite messages_app. }
  destruct H1 as [Hm Hc].
  destruct (unpushedReadMessages s1) as [|[?|] rest] eqn:E; [done|done|].
  set (s2 := set_unpushedReadMessages rest s1).
  assert (H2 : quiet s1 s2) by (subst s2; by destruct s1).
  destruct (quiet_trans _ _ _ H2 (push_null_quiet s2)) as [Hm' Hc'].
  split; congruence.
Qed.

Lemma filterReceivedMessage_quiet framed s : quiet s (filterReceivedMessage framed s).
Proof.
  unfold filterReceivedMessage, push.
  destruct (finalStatus s); [apply push_null_quiet|].
  destruct framed as [m|].
  - by destruct s.
  - destruct (canPush s) eqn:E; [apply push_null_quiet|]. destruct s. simpl in *.
    by split.
Qed.

Lemma tryPush_quiet bytes s : quiet s (tryPush bytes s).
Proof.
  unfold tryPush. destruct (isReadFilterPending s); [by destruct s|].
  apply filterReceivedMessage_quiet.
Qed.

(** The messages delivered, plus one while a delivery is permitted. *)
Definition budget (s : Call) : nat :=
  length (messages (observed s)) + (if canPush s then 1 else 0).

Lemma quiet_budget s s' : quiet s s' → budget s' = budget s.
Proof. intros [Hm Hc]. unfold budget. by rewrite Hm, Hc. Qed.

Lemma handleFilteredRead_budget message s :
  (budget (handleFilteredRead message s) ≤ budget s)%nat.
Proof.
  unfold handleFilteredRead.
  destruct (finalStatus s).
  { change (push None s) with (push_null s).
    by rewrite (quiet_budget _ _ (push_null_quiet s)). }
  set (s1 := set_isReadFilterPending false s).
  assert (H1 : quiet s s1) by (subst s1; by destruct s).
  set (s2 := if canPush s1 then _ else _).
  assert (H2 : (budget s2 ≤ budget s1)%nat).
  { subst s2. destruct (canPush s1) eqn:Ec.
    - destruct (push_message message s1) as [Hm Hc].
      unfold budget, log_stream. rewrite Ec.
      destruct (push (Some message) s1). simpl in *. rewrite Hm, length_app. simpl. lia.
    - unfold budget. rewrite Ec. destruct s1. simpl in *. rewrite Ec. lia. }
  rewrite <- (quiet_budget _ _ H1).
  destruct (unfilteredReadMessages s2) as [|next rest]; [done|].
  rewrite (quiet_budget _ _ (filterReceivedMessage_quiet next _)).
  etrans; [|exact H2]. apply Nat.eq_le_incl. apply quiet_budget. by destruct s2.
Qed.

Lemma startRead_budget s : (budget (startRead s) ≤ budget s + 1)%nat.
Proof.
  unfold startRead.
  destruct (finalStatus s).
  { change (push None s) with (push_null s).
    rewrite (quiet_budget _ _ (push_null_quiet s)). lia. }
  set (s1 := set_canPush true s).
  assert (H1 : messages (observed s1) = messages (observed s)) by (by destruct s).
  destruct (http2Stream s1).
  - destruct (unpushedReadMessages s1) as [|next rest] eqn:E.
    + unfold budget, log_stream. destruct s. simpl in *. destruct canPush0; lia.
    + set (s2 := set_unpushedReadMessages rest s1).
      assert (H2 : messages (observed s2) = messages (observed s)) by (by destruct s).
      destruct next as [m|].
      * destruct (push_message m s2) as [Hm _]. unfold budget.
        destruct (push (Some m) s2). simpl in *.
        rewrite Hm, ?H2, length_app. simpl. lia.
      * destruct (push_null_quiet s2) as [Hm _]. unfold budget, push.
        destruct (push_null s2). simpl in *. rewrite Hm, ?H2. lia.
  - unfold budget. destruct s. simpl in *. destruct canPush0; lia.
Qed.

Definition is_read (e : Event) : bool :=
  match e with EvStartRead => true | _ => false end.

(** The number of [startRead] calls among the events. *)
Fixpoint reads (events : list Event) : nat :=
  match events with
  | [] => O
  | e :: rest => ((if is_read e then 1 else 0) + reads rest)%nat
  end.

Lemma handleTrailers_quiet headers s : quiet s (handleTrailers headers s).
Proof. unfold handleTrailers. destruct (receiveTrailers _); apply endCall_quiet. Qed.

Lemma on_data_quiet messages s : quiet s (on_data messages s).
Proof.
  unfold on_data. revert s.
  induction messages as [|m ms IH]; intros s; [apply quiet_refl|]. simpl.
  eapply quiet_trans; [apply tryPush_quiet|apply IH].
Qed.

Lemma step_budget s e :
  (budget (step s e) ≤ budget s + (if is_read e then 1 else 0))%nat.
Proof.
  assert (Hq : ∀ s', quiet s s' → (budget s' ≤ budget s + 0)%nat).
  { intros s' H. rewrite (quiet_budget _ _ H). lia. }
  destruct e; simpl.
  - apply Hq. unfold attachHttp2Stream.
    destruct s. unfold quiet, log_stream. simpl.
    repeat (case_match; simpl); done.
  - destruct (attached s); [|by apply Hq, quiet_refl]. apply Hq.
    unfold on_response.
    set (s1 := set_mappedStatusCode _ s).
    assert (H1 : quiet s s1) by (by destruct s).
    eapply quiet_trans; [exact H1|].
    destruct endStream; [apply handleTrailers_quiet|].
    destruct (receiveMetadata _).
    + destruct s1. unfold quiet, observe. simpl. by rewrite messages_app, app_nil_r.
    + eapply quiet_trans; [apply destroyHttp2Stream_quiet|apply endCall_quiet].
  - destruct (attached s); apply Hq; [apply handleTrailers_quiet|apply quiet_refl].
  - destruct (attached s); apply Hq; [apply on_data_quiet|apply quiet_refl].
  - destruct (attached s); apply Hq; [apply tryPush_quiet|apply quiet_refl].
  - destruct (attached s); [|by apply Hq, quiet_refl]. apply Hq.
    unfold on_close. eapply quiet_trans; [|apply endCall_quiet]. by destruct s.
  - destruct (disconnectListening s); apply Hq; [apply endCall_quiet|apply quiet_refl].
  - pose proof (handleFilteredRead_budget message s). lia.
  - apply Hq. apply cancelWithStatus_quiet.
  - apply Hq. unfold sendFiltered, log_stream. destruct s. simpl. by case_match.
  - apply startRead_budget.
  - apply Hq. unfold halfClose, log_stream. destruct s. simpl. by case_match.
  - apply Hq. apply cancelWithStatus_quiet.
  - apply Hq. unfold on_tick, observe. destruct s. simpl.
    case_match; [done|]. unfold quiet. simpl. by rewrite messages_app, app_nil_r.
Qed.

Lemma steps_budget events s :
  (budget (fold_left step events s) ≤ budget s + reads events)%nat.
Proof.
  revert s. induction events as [|e events IH]; intros s; simpl; [lia|].
  pose proof (IH (step s e)). pose proof (step_budget s e). lia.
Qed.

(** X28. Back-pressure: however the stream, the filters and the
    application interleave, the listener is handed at most as many messages
    as [startRead] has been called, and one fewer while a read is still
    unanswered. *)
Theorem messages_bounded_by_reads events :
  (length (messages (observed (run events)))
   + (if canPush (run events) then 1 else 0) ≤ reads events)%nat.
Proof. exact (steps_budget events initial). Qed.

(** *** The reference on the subchannel *)

(** The fields the reference protocol lives on. *)
Definition sub (s : Call) : bool * list SubchannelOp * bool * bool :=
  (subchannel s, subchannelOps s, disconnectListening s, statusOutput s).

(** How a handler other than [attachHttp2Stream] may move them: not at
    all, or by the one release that [outputStatus] performs. *)
Definition released (s s' : Call) : Prop :=
  sub s' = sub s ∨
  (statusOutput s = false ∧ statusOutput s' = true ∧
   subchannel s' = subchannel s ∧
   subchannelOps s'
   = subchannelOps s
     ++ (if subchannel s then [callUnref; removeDisconnectListener] else []) ∧
   disconnectListening s' = (if subchannel s then false else disconnectListening s)).

Lemma released_sub s s' : sub s' = sub s → released s s'.
Proof. by left. Qed.

Lemma released_trans s1 s2 s3 : released s1 s2 → released s2 s3 → released s1 s3.
Proof.
  unfold released, sub.
  intros [H12|(Ho1 & Ho2 & Hs & Hops & Hd)] [H23|(Ho2' & Ho3 & Hs' & Hops' & Hd')].
  - left. congruence.
  - right. injection H12 as E1 E2 E3 E4.
    rewrite <- E1, <- E2, <- E3, <- E4. done.
  - right. injection H23 as E1 E2 E3 E4.
    rewrite E1, E2, E3, E4. done.
  - congruence.
Qed.

Lemma outputStatus_released s : released s (outputStatus s).
Proof.
  destruct s. unfold released, sub, outputStatus. simpl.
  destruct statusOutput0; [by left|]. right. simpl.
  destruct subchannel0; simpl; by rewrite ?app_nil_r.
Qed.

Lemma endCall_released status s : released s (endCall status s).
Proof.
  unfold endCall.
  destruct (match finalStatus s with Some st => _ | None => _ end);
    [|by apply released_sub].
  set (s1 := set_finalStatus (Some status) s).
  assert (H1 : released s s1) by (apply released_sub; by destruct s).
  destruct (readsClosed s1 || negb (code status =? Status.OK)%Z); [|done].
  eapply released_trans; [exact H1|apply outputStatus_released].
Qed.

Lemma push_null_released s : released s (push_null s).
Proof.
  unfold push_null. set (s1 := set_readsClosed true s).
  assert (H1 : released s s1) by (apply released_sub; by destruct s).
  destruct (finalStatus s1); [|done].
  eapply released_trans; [exact H1|apply outputStatus_released].
Qed.

Lemma push_released message s : released s (push message s).
Proof.
  destruct message as [m|]; [|apply push_null_released]. unfold push.
  set (s1 := observe (OnReceiveMessage m) s).
  assert (H1 : released s s1) by (apply released_sub; by destruct s).
  destruct (unpushedReadMessages s1) as [|[?|] rest]; [done|done|].
  eapply released_trans; [exact H1|].
  eapply released_trans; [|apply push_null_released].
  apply released_sub. by destruct s1.
Qed.

Lemma destroyHttp2Stream_sub s : sub (destroyHttp2Stream s) = sub s.
Proof.
  unfold destroyHttp2Stream. destruct (http2Stream s) as [[[]]|]; by destruct s.
Qed.

Lemma cancelWithStatus_released status details s :
  released s (cancelWithStatus status details s).
Proof.
  unfold cancelWithStatus.
  eapply released_trans; [|apply endCall_released].
  apply released_sub, destroyHttp2Stream_sub.
Qed.

Lemma filterReceivedMessage_released framed s :
  released s (filterReceivedMessage framed s).
Proof.
  unfold filterReceivedMessage.
  destruct (finalStatus s); [apply push_released|].
  destruct framed as [m|]; [apply released_sub; by destruct s|].
  destruct (canPush s); [apply push_released|apply released_sub; by destruct s].
Qed.

Lemma handleFilteredRead_released message s :
  released s (handleFilteredRead message s).
Proof.
  unfold handleFilteredRead. destruct (finalStatus s); [apply push_released|].
  set (s1 := set_isReadFilterPending false s).
  assert (H1 : released s s1) by (apply released_sub; by destruct s).
  set (s2 := if canPush s1 then _ else _).
  assert (H2 : released s s2).
  { eapply released_trans; [exact H1|]. subst s2. destruct (canPush s1).
    - eapply released_trans; [apply (push_released (Some message))|].
      apply released_sub. by destruct (push (Some message) s1).
    - apply released_sub. by destruct s1. }
  destruct (unfilteredReadMessages s2) as [|next rest]; [done|].
  eapply released_trans; [exact H2|].
  eapply released_trans; [|apply filterReceivedMessage_released].
  apply released_sub. by destruct s2.
Qed.

Lemma tryPush_released bytes s : released s (tryPush bytes s).
Proof.
  unfold tryPush. destruct (isReadFilterPending s);
    [apply released_sub; by destruct s|apply filterReceivedMessage_released].
Qed.

Lemma set_canPush_sub b s : sub (set_canPush b s) = sub s.
Proof. by destruct s. Qed.

Lemma startRead_released s : released s (startRead s).
Proof.
  unfold startRead. destruct (finalStatus s); [apply push_released|].
  set (s1 := set_canPush true s).
  assert (H1 : released s s1) by (apply released_sub; by destruct s).
  eapply released_trans; [exact H1|].
  destruct (http2Stream s1); [|apply released_sub; subst s1; by destruct s].
  destruct (unpushedReadMessages s1) as [|next rest];
    [apply released_sub; subst s1; by destruct s|].
  set (s2 := set_unpushedReadMessages rest s1).
  assert (H2 : released s1 s2) by (apply released_sub; subst s2 s1; by destruct s).
  eapply released_trans; [exact H2|].
  eapply released_trans; [apply (push_released next)|].
  apply released_sub, set_canPush_sub.
Qed.

Lemma handleTrailers_released headers s : released s (handleTrailers headers s).
Proof. unfold handleTrailers. destruct (receiveTrailers _); apply endCall_released. Qed.

Lemma on_data_released messages s : released s (on_data messages s).
Proof.
  unfold on_data. revert s.
  induction messages as [|m ms IH]; intros s; [by apply released_sub|]. simpl.
  eapply released_trans; [apply tryPush_released|apply IH].
Qed.

Definition is_attach (e : Event) : bool :=
  match e with EvAttach => true | _ => false end.

(** The number of streams attached to the call among the events. *)
Fixpoint attaches (events : list Event) : nat :=
  match events with
  | [] => O
  | e :: rest => ((if is_attach e then 1 else 0) + attaches rest)%nat
  end.

Lemma attaches_app events more :
  attaches (events ++ more) = (attaches events + attaches more)%nat.
Proof. induction events as [|e events IH]; simpl; [done|]. rewrite IH. lia. Qed.

Lemma step_released s e : is_attach e = false → released s (step s e).
Proof.
  intros He. destruct e; try done; simpl.
  - destruct (attached s); [|by apply released_sub]. unfold on_response.
    set (s1 := set_mappedStatusCode _ s).
    assert (H1 : released s s1) by (apply released_sub; by destruct s).
    eapply released_trans; [exact H1|].
    destruct endStream; [apply handleTrailers_released|].
    destruct (receiveMetadata _).
    + apply released_sub. by destruct s1.
    + eapply released_trans; [|apply endCall_released].
      apply released_sub, destroyHttp2Stream_sub.
  - destruct (attached s); [apply handleTrailers_released|by apply released_sub].
  - destruct (attached s); [apply on_data_released|by apply released_sub].
  - destruct (attached s); [apply tryPush_released|by apply released_sub].
  - destruct (attached s); [|by apply released_sub]. unfold on_close.
    eapply released_trans; [|apply endCall_released].
    apply released_sub. by destruct s.
  - destruct (disconnectListening s); [apply endCall_released|by apply released_sub].
  - apply handleFilteredRead_released.
  - apply cancelWithStatus_released.
  - apply released_sub. unfold sendFiltered, log_stream. destruct s. simpl.
    by case_match.
  - apply startRead_released.
  - apply released_sub. unfold halfClose, log_stream. destruct s. simpl.
    by case_match.
  - apply cancelWithStatus_released.
  - apply released_sub. unfold on_tick, observe. destruct s. simpl. by case_match.
Qed.

(** The states of the reference: none taken, one held, one given back. *)
Definition reference (attached_once : bool) (s : Call) : Prop :=
  (subchannel s = false ∧ subchannelOps s = [] ∧ disconnectListening s = false) ∨
  (attached_once = true ∧ subchannel s = true ∧ statusOutput s = false ∧
   subchannelOps s = [addDisconnectListener; callRef] ∧
   disconnectListening s = true) ∨
  (attached_once = true ∧ subchannel s = true ∧ statusOutput s = true ∧
   subchannelOps s
   = [addDisconnectListener; callRef; callUnref; removeDisconnectListener] ∧
   disconnectListening s = false).

Lemma released_reference b s s' : released s s' → reference b s → reference b s'.
Proof.
  unfold released, sub, reference.
  intros [E|(Ho & Ho' & Hs & Hops & Hd)].
  - injection E as -> -> -> ->. done.
  - rewrite Hs, Hops, Hd, Ho, Ho'.
    intros [(-> & -> & ->)|[(-> & -> & _ & -> & _)|(_ & _ & ? & _)]];
      [by left| |congruence].
    right. right. done.
Qed.

Lemma reference_run events :
  (attaches events ≤ 1)%nat →
  reference (bool_decide (attaches events = 1%nat)) (run events).
Proof.
  induction events as [|e events IH] using rev_ind; intros Hn.
  - left. done.
  - rewrite attaches_app in Hn. simpl in Hn.
    rewrite run_app, attaches_app. simpl.
    destruct (is_attach e) eqn:He.
    + destruct e; try done. simpl.
      assert (H0 : attaches events = 0%nat) by lia.
      specialize (IH ltac:(lia)). rewrite H0 in IH. simpl in IH.
      rewrite H0. simpl.
      destruct IH as [(Hs & Hops & Hd)|[(? & _)|(? & _)]]; [|done|done].
      pose proof (Inv_run events) as HI.
      unfold attachHttp2Stream.
      destruct (finalStatus (run events)) eqn:Hf.
      * left. unfold log_stream. by destruct (run events).
      * pose proof (Inv_unlatched _ HI Hf) as Hso.
        right. left. destruct (run events). simpl in *. subst.
        unfold log_stream. simpl. repeat (case_match; simpl); done.
    + rewrite Nat.add_0_r. replace (attaches events + 0)%nat with (attaches events) by lia.
      apply (released_reference _ (run events)); [by apply step_released|].
      apply IH. lia.
Qed.

(** X29. A call to which at most one stream is attached takes at most one
    reference on its subchannel: it calls [addDisconnectListener] and
    [callRef] once, when the stream is attached to a call that has not
    ended, and [callUnref] and [removeDisconnectListener] once, exactly
    when its status is output; a call whose status was output holds no
    reference and listens for no disconnect. *)
Theorem subchannel_reference_balanced events :
  (attaches events ≤ 1)%nat →
  (subchannelOps (run events) = [] ∧ disconnectListening (run events) = false) ∨
  (statusOutput (run events) = false ∧
   subchannelOps (run events) = [addDisconnectListener; callRef] ∧
   disconnectListening (run events) = true) ∨
  (statusOutput (run events) = true ∧
   subchannelOps (run events)
   = [addDisconnectListener; callRef; callUnref; removeDisconnectListener] ∧
   disconnectListening (run events) = false).
Proof.
  intros Hn.
  destruct (reference_run events Hn)
    as [(_ & ? & ?)|[(_ & _ & ? & ? & ?)|(_ & _ & ? & ? & ?)]].
  - by left.
  - right. by left.
  - right. by right.
Qed.

End Filters.

(** Filters that pass everything through, and two runs of a call. *)
Definition pass_trailers (st : StatusObject) : result StatusObject := Ok st.
Definition pass_metadata (md : Metadata.t) : result Metadata.t := Ok md.

Definition answered : list Event :=
  [ EvAttach; EvStartRead; EvResponse 200 [] false; EvData [[x68; x69]];
    EvFilterResolved [x68; x69]; EvEnd; EvTrailers [] ].

Definition late : list Event :=
  [ EvData [[x6c; x61; x74; x65]]; EvFilterResolved [x6c; x61; x74; x65];
    EvStartRead; EvDisconnect; EvClose 0; EvCancelWithStatus Status.CANCELLED "late";
    EvTick ].

(** A trailers filter that finds [grpc-status: 0]. *)
Definition ok_trailers (st : StatusObject) : result StatusObject :=
  Ok (mkStatus Status.OK (details st) (metadata st)).

(** Headers and OK trailers have arrived, the application has not read:
    the OK status is latched and held back. *)
Definition held : list Event :=
  [ EvAttach; EvResponse 200 [] false; EvTrailers [] ].

Lemma final_status_exactly_once_witness :
  (statusOutput (run pass_trailers pass_metadata answered) = true ∧
   messages (observed (run pass_trailers pass_metadata (answered ++ late)))
   = [[x68; x69]] ∧
   statuses (observed (run pass_trailers pass_metadata (answered ++ EvTick :: late)))
   = 1%nat) ∧
  (finalStatus (run ok_trailers pass_metadata held)
   = Some (mkStatus Status.OK "" Metadata.new) ∧
   statusOutput (run ok_trailers pass_metadata held) = false ∧
   observed (run ok_trailers pass_metadata (held ++ [EvStartRead; EvTick]))
   = [ OnReceiveMetadata Metadata.new;
       OnReceiveStatus (Some (mkStatus Status.OK "" Metadata.new)) ]).
Proof.
  split.
  - destruct (final_status_exactly_once pass_trailers pass_metadata answered)
      as (_ & _ & H & _).
    destruct (H eq_refl late) as [Hm Hs].
    split; [reflexivity|]. split; [|exact Hs]. rewrite Hm. reflexivity.
  - destruct (final_status_exactly_once ok_trailers pass_metadata held)
      as (_ & _ & _ & _ & _ & _ & H).
    destruct (H (mkStatus Status.OK "" Metadata.new) eq_refl eq_refl) as [_ Ho].
    split; [reflexivity|]. split; [reflexivity|]. rewrite Ho. reflexivity.
Defined.

(** C3 as first stated fails: the connection drops, the status is handed to
    the listener, and response headers that arrive afterwards are not
    dropped: the [response] listener has no guard on [finalStatus] and
    passes them to [onReceiveMetadata]. *)
Lemma metadata_after_status :
  observed (run pass_trailers pass_metadata
              [EvAttach; EvDisconnect; EvTick; EvResponse 200 [] false])
  = [ OnReceiveStatus
        (Some (mkStatus Status.UNAVAILABLE "Connection dropped" Metadata.new));
      OnReceiveMetadata Metadata.new ].
Proof. vm_compute. reflexivity. Qed.

Lemma subchannel_reference_balanced_witness :
  (attaches answered ≤ 1)%nat ∧
  subchannelOps (run pass_trailers pass_metadata answered)
  = [addDisconnectListener; callRef; callUnref; removeDisconnectListener].
Proof.
  assert (Hn : (attaches answered ≤ 1)%nat) by (simpl; lia).
  split; [exact Hn|].
  destruct (subchannel_reference_balanced pass_trailers pass_metadata answered Hn)
    as [[H _]|[(H & _)|(_ & H & _)]]; [discriminate H|discriminate H|exact H].
Defined.



Example unary_success_observed :
  observed (run ok_trailers pass_metadata
              [ EvAttach; EvStartRead; EvResponse 200 [] false;
                EvData [[x68; x65; x6c; x6c; x6f]];
                EvFilterResolved [x68; x65; x6c; x6c; x6f]; EvStartRead; EvEnd;
                EvTrailers []; EvTick; EvClose 0 ])
  = [ OnReceiveMetadata Metadata.new;
      OnReceiveMessage [x68; x65; x6c; x6c; x6f];
      OnReceiveStatus (Some (mkStatus Status.OK "" Metadata.new)) ].
Proof. vm_compute. reflexivity. Qed.

End CallStream.

(** ** resolving-load-balancer.ts *)

Module ResolvingLB.

Local Set Warnings "-register-all".

Inductive ConnectivityState : Type :=
| IDLE | CONNECTING | READY | TRANSIENT_FAILURE | SHUTDOWN.

#[local] Instance ConnectivityState_eq_dec : EqDecision ConnectivityState.
Proof. solve_decision. Defined.

Section Balancer.
(** The collaborators: the untyped and typed load-balancing configs,
    [selectLbConfigFromList], endpoints, resolution attributes, the pickers
    a child policy publishes and the config selectors a resolver supplies. *)
Context {LoadBalancingConfig TypedLoadBalancingConfig Endpoint Attributes
         ChildPicker ResolverSelector : Type}.
Variable selectLbConfigFromList :
  list LoadBalancingConfig → bool → option TypedLoadBalancingConfig.

Definition Config : Type := ServiceConfig.ServiceConfig LoadBalancingConfig.

Inductive Picker : Type :=
| QueuePicker (childPicker : option Picker)
| UnavailablePicker (status : CallStream.StatusObject)
| PolicyPicker (p : ChildPicker).

(** A selector handed over by the resolver, or the closure
    [getDefaultConfigSelector(serviceConfig)]. *)
Inductive ConfigSelector : Type :=
| FromResolver (f : ResolverSelector)
| DefaultConfigSelector (serviceConfig : Config).

(** Calls made on the collaborators, in order. *)
Inductive Effect : Type :=
| ChannelUpdateState (state : ConnectivityState) (picker : Picker)
| ChildUpdateAddressList (endpointList : list Endpoint)
                         (lbConfig : TypedLoadBalancingConfig) (attributes : Attributes)
| OnSuccessfulResolution (serviceConfig : Config) (configSelector : ConfigSelector)
| OnFailedResolution (error : CallStream.StatusObject)
| ResolverUpdateResolution
| BackoffRunOnce
| BackoffReset
| ChildExitIdle
| ChildResetBackoff.

(** [ResolvingLoadBalancer]; [backoffRunning] is
    [this.backoffTimeout.isRunning()], [effects] the calls made so far. *)
Record LB : Type := mkLB {
  latestChildState : ConnectivityState;
  latestChildPicker : Picker;
  currentState : ConnectivityState;
  defaultServiceConfig : Config;
  previousServiceConfig : option Config;
  continueResolving : bool;
  backoffRunning : bool;
  effects : list Effect
}.

Definition emit (e : Effect) (lb : LB) : LB :=
  mkLB (latestChildState lb) (latestChildPicker lb) (currentState lb)
       (defaultServiceConfig lb) (previousServiceConfig lb) (continueResolving lb)
       (backoffRunning lb) (effects lb ++ [e]).

Definition set_previousServiceConfig (sc : option Config) (lb : LB) : LB :=
  mkLB (latestChildState lb) (latestChildPicker lb) (currentState lb)
       (defaultServiceConfig lb) sc (continueResolving lb)
       (backoffRunning lb) (effects lb).

Definition set_continueResolving (b : bool) (lb : LB) : LB :=
  mkLB (latestChildState lb) (latestChildPicker lb) (currentState lb)
       (defaultServiceConfig lb) (previousServiceConfig lb) b
       (backoffRunning lb) (effects lb).

Definition set_backoffRunning (b : bool) (lb : LB) : LB :=
  mkLB (latestChildState lb) (latestChildPicker lb) (currentState lb)
       (defaultServiceConfig lb) (previousServiceConfig lb) (continueResolving lb)
       b (effects lb).

Definition set_latestChild (st : ConnectivityState) (p : Picker) (lb : LB) : LB :=
  mkLB st p (currentState lb)
       (defaultServiceConfig lb) (previousServiceConfig lb) (continueResolving lb)
       (backoffRunning lb) (effects lb).

Definition updateState (connectivityState : ConnectivityState) (picker : Picker)
    (lb : LB) : LB :=
  let picker :=
    if decide (connectivityState = IDLE) then QueuePicker (Some picker) else picker in
  emit (ChannelUpdateState connectivityState picker)
    (mkLB (latestChildState lb) (latestChildPicker lb) connectivityState
          (defaultServiceConfig lb) (previousServiceConfig lb) (continueResolving lb)
          (backoffRunning lb) (effects lb)).

(** The balancer as its constructor leaves it. *)
Definition create (defaultConfig : Config) : LB :=
  updateState IDLE (QueuePicker None)
    (mkLB IDLE (QueuePicker None) IDLE defaultConfig None false false []).

Definition handleResolutionFailure (error : CallStream.StatusObject) (lb : LB) : LB :=
  if decide (latestChildState lb = IDLE) then
    emit (OnFailedResolution error)
      (updateState TRANSIENT_FAILURE (UnavailablePicker error) lb)
  else lb.

Definition incompatible : CallStream.StatusObject :=
  CallStream.mkStatus Status.UNAVAILABLE
    "All load balancer options in service config are not compatible" Metadata.new.

(** The resolver listener's [onSuccessfulResolution]. *)
Definition onSuccessfulResolution (endpointList : list Endpoint)
    (serviceConfig : option Config) (serviceConfigError : option CallStream.StatusObject)
    (configSelector : option ResolverSelector) (attributes : Attributes) (lb : LB)
  : LB :=
  let '(workingServiceConfig, lb) :=
    match serviceConfig with
    | None =>
        match serviceConfigError with
        | None => (Some (defaultServiceConfig lb), set_previousServiceConfig None lb)
        | Some error =>
            match previousServiceConfig lb with
            | None => (None, handleResolutionFailure error lb)
            | Some previous => (Some previous, lb)
            end
        end
    | Some sc => (Some sc, set_previousServiceConfig (Some sc) lb)
    end in
  let workingConfigList :=
    match workingServiceConfig with
    | Some sc => ServiceConfig.loadBalancingConfig sc
    | None => []
    end in
  match selectLbConfigFromList workingConfigList true with
  | None => handleResolutionFailure incompatible lb
  | Some loadBalancingConfig =>
      let lb := emit (ChildUpdateAddressList endpointList loadBalancingConfig attributes) lb in
      let finalServiceConfig := default (defaultServiceConfig lb) workingServiceConfig in
      emit (OnSuccessfulResolution finalServiceConfig
              (match configSelector with
               | Some f => FromResolver f
               | None => DefaultConfigSelector finalServiceConfig
               end)) lb
  end.

(** The resolver listener's [onError]. *)
Definition onError (error : CallStream.StatusObject) (lb : LB) : LB :=
  handleResolutionFailure error lb.

(** The child's control helper: [updateState]. *)
Definition childUpdateState (newState : ConnectivityState) (picker : ChildPicker)
    (lb : LB) : LB :=
  updateState newState (PolicyPicker picker)
    (set_latestChild newState (PolicyPicker picker) lb).

Definition updateResolution (lb : LB) : LB :=
  let lb := emit ResolverUpdateResolution lb in
  let lb :=
    if decide (currentState lb = IDLE) then updateState CONNECTING (latestChildPicker lb) lb
    else lb in
  set_backoffRunning true (emit BackoffRunOnce lb).

(** The child's control helper: [requestReresolution]. *)
Definition requestReresolution (lb : LB) : LB :=
  if backoffRunning lb then set_continueResolving true lb else updateResolution lb.

(** The backoff timer's callback. *)
Definition onBackoff (lb : LB) : LB :=
  let lb := set_backoffRunning false lb in
  if continueResolving lb then set_continueResolving false (updateResolution lb)
  else updateState (latestChildState lb) (latestChildPicker lb) lb.

Definition exitIdle (lb : LB) : LB :=
  let lb :=
    if bool_decide (currentState lb = IDLE)
       || bool_decide (currentState lb = TRANSIENT_FAILURE)
    then (if backoffRunning lb then set_continueResolving true lb
          else updateResolution lb)
    else lb in
  emit ChildExitIdle lb.

Inductive Event : Type :=
| Resolved (endpointList : list Endpoint) (serviceConfig : option Config)
           (serviceConfigError : option CallStream.StatusObject)
           (configSelector : option ResolverSelector) (attributes : Attributes)
| ResolverError (error : CallStream.StatusObject)
| ChildState (newState : ConnectivityState) (picker : ChildPicker)
| RequestReresolution
| BackoffFired
| ExitIdle.

Definition step (lb : LB) (e : Event) : LB :=
  match e with
  | Resolved eps sc err sel attrs => onSuccessfulResolution eps sc err sel attrs lb
  | ResolverError error => onError error lb
  | ChildState st p => childUpdateState st p lb
  | RequestReresolution => requestReresolution lb
  | BackoffFired => if backoffRunning lb then onBackoff lb else lb
  | ExitIdle => exitIdle lb
  end.

Definition run (defaultConfig : Config) (events : list Event) : LB :=
  fold_left step events (create defaultConfig).

(** The effects a handler added. *)
Definition added (before after : LB) : list Effect :=
  drop (length (effects before)) (effects after).

(** *** Service-config error handling *)

(** [configSelector ?? getDefaultConfigSelector(serviceConfig)] *)
Definition selector_or_default (configSelector : option ResolverSelector)
    (serviceConfig : Config) : ConfigSelector :=
  match configSelector with
  | Some f => FromResolver f
  | None => DefaultConfigSelector serviceConfig
  end.

(** Effects that publish a state to the channel or report a failure. *)
Definition surfaces (e : Effect) : bool :=
  match e with
  | ChannelUpdateState _ _ | OnFailedResolution _ => true
  | _ => false
  end.

Lemma handleResolutionFailure_busy error lb :
  latestChildState lb ≠ IDLE → handleResolutionFailure error lb = lb.
Proof. intros H. unfold handleResolutionFailure. by destruct (decide _). Qed.

Lemma handleResolutionFailure_idle error lb :
  latestChildState lb = IDLE →
  handleResolutionFailure error lb
  = emit (OnFailedResolution error)
      (updateState TRANSIENT_FAILURE (UnavailablePicker error) lb) ∧
  effects (handleResolutionFailure error lb)
  = effects lb ++ [ ChannelUpdateState TRANSIENT_FAILURE (UnavailablePicker error);
                    OnFailedResolution error ] ∧
  latestChildState (handleResolutionFailure error lb) = IDLE.
Proof.
  intros H. unfold handleResolutionFailure. destruct (decide _); [|done].
  simpl. by rewrite <- app_assoc.
Qed.

(** C5, as amended. On [(null, error)] from the resolver:
    with a previous service config stored, that config is the working one
    and, a load-balancing policy being selectable from it, the child is
    updated with it, the resolution is reported successful with it, and
    the balancer publishes nothing and changes no state of its own;
    with none stored, the failure is surfaced (TRANSIENT_FAILURE with a
    picker failing with the error, and the failure callback) when the
    child's latest state is IDLE, and is not surfaced when the child has
    published another state.  A valid service config is always stored as
    the previous one and, a policy being selectable from it, handed to the
    child and reported. *)
Theorem service_config_error_handling lb endpointList configSelector attributes :
  (∀ error previous lbConfig,
     previousServiceConfig lb = Some previous →
     selectLbConfigFromList (ServiceConfig.loadBalancingConfig previous) true
       = Some lbConfig →
     onSuccessfulResolution endpointList None (Some error) configSelector attributes lb
     = emit (OnSuccessfulResolution previous (selector_or_default configSelector previous))
         (emit (ChildUpdateAddressList endpointList lbConfig attributes) lb)) ∧
  (∀ error,
     previousServiceConfig lb = None →
     latestChildState lb = IDLE →
     ∃ rest,
       effects (onSuccessfulResolution endpointList None (Some error)
                  configSelector attributes lb)
       = effects lb
         ++ [ ChannelUpdateState TRANSIENT_FAILURE (UnavailablePicker error);
              OnFailedResolution error ] ++ rest) ∧
  (∀ error,
     previousServiceConfig lb = None →
     latestChildState lb ≠ IDLE →
     ∃ rest,
       effects (onSuccessfulResolution endpointList None (Some error)
                  configSelector attributes lb)
       = effects lb ++ rest ∧
       existsb surfaces rest = false ∧
       currentState (onSuccessfulResolution endpointList None (Some error)
                       configSelector attributes lb)
       = currentState lb) ∧
  (∀ serviceConfig serviceConfigError,
     previousServiceConfig
       (onSuccessfulResolution endpointList (Some serviceConfig) serviceConfigError
          configSelector attributes lb)
     = Some serviceConfig ∧
     ∀ lbConfig,
       selectLbConfigFromList (ServiceConfig.loadBalancingConfig serviceConfig) true
         = Some lbConfig →
       onSuccessfulResolution endpointList (Some serviceConfig) serviceConfigError
         configSelector attributes lb
       = emit (OnSuccessfulResolution serviceConfig
                 (selector_or_default configSelector serviceConfig))
           (emit (ChildUpdateAddressList endpointList lbConfig attributes)
              (set_previousServiceConfig (Some serviceConfig) lb))).
Proof.
  split; [|split; [|split]].
  - intros error previous lbConfig Hp Hsel. unfold onSuccessfulResolution.
    rewrite Hp, Hsel. done.
  - intros error Hp Hidle. unfold onSuccessfulResolution. rewrite Hp.
    destruct (handleResolutionFailure_idle error lb Hidle) as (_ & He & Hi).
    destruct (selectLbConfigFromList [] true) as [lbConfig|].
    + eexists. simpl. rewrite He, <- !app_assoc. reflexivity.
    + destruct (handleResolutionFailure_idle incompatible _ Hi) as (_ & He' & _).
      eexists. rewrite He', He, <- !app_assoc. reflexivity.
  - intros error Hp Hbusy. unfold onSuccessfulResolution. rewrite Hp.
    rewrite (handleResolutionFailure_busy error lb Hbusy).
    destruct (selectLbConfigFromList [] true) as [lbConfig|].
    + eexists. simpl. rewrite <- app_assoc. simpl. split; [reflexivity|]. done.
    + rewrite (handleResolutionFailure_busy _ lb Hbusy).
      exists []. by rewrite app_nil_r.
  - intros serviceConfig serviceConfigError. split.
    + unfold onSuccessfulResolution.
      destruct (selectLbConfigFromList _ true); [done|].
      unfold handleResolutionFailure. by destruct (decide _).
    + intros lbConfig Hsel. unfold onSuccessfulResolution. by rewrite Hsel.
Qed.


(** *** Re-resolution and the backoff timer *)

Definition is_backoff_fired (e : Event) : bool :=
  match e with BackoffFired => true | _ => false end.

Definition is_reresolution (e : Event) : bool :=
  match e with RequestReresolution => true | _ => false end.

Definition is_resolve (e : Effect) : bool :=
  match e with ResolverUpdateResolution => true | _ => false end.

(** While the timer runs: it keeps running, the resolver is left alone,
    and a remembered request stays remembered. *)
Record waiting (lb lb' : LB) : Prop := mkWaiting {
  w_running : backoffRunning lb' = true;
  w_effects : ∃ more, effects lb' = effects lb ++ more ∧ existsb is_resolve more = false;
  w_remembered : continueResolving lb = true → continueResolving lb' = true
}.

Lemma waiting_refl lb : backoffRunning lb = true → waiting lb lb.
Proof. intros H. split; [done| |done]. exists []. by rewrite app_nil_r. Qed.

Lemma waiting_trans lb1 lb2 lb3 : waiting lb1 lb2 → waiting lb2 lb3 → waiting lb1 lb3.
Proof.
  intros [_ (m1 & E1 & H1) R1] [W2 (m2 & E2 & H2) R2]. split; [done| |auto].
  exists (m1 ++ m2). rewrite E2, E1, <- app_assoc. split; [done|].
  by rewrite existsb_app, H1, H2.
Qed.

Lemma emit_waiting e lb :
  backoffRunning lb = true → is_resolve e = false → waiting lb (emit e lb).
Proof.
  intros H He. split; [done| |done]. exists [e]. split; [done|]. simpl.
  by rewrite He.
Qed.

Lemma updateState_waiting st p lb :
  backoffRunning lb = true → waiting lb (updateState st p lb).
Proof.
  intros H. split; [done| |done]. eexists [_]. split; [done|]. done.
Qed.

Lemma handleResolutionFailure_waiting error lb :
  backoffRunning lb = true → waiting lb (handleResolutionFailure error lb).
Proof.
  intros H. unfold handleResolutionFailure.
  destruct (decide _); [|by apply waiting_refl].
  eapply waiting_trans; [by apply updateState_waiting|].
  by apply emit_waiting.
Qed.

Lemma set_previousServiceConfig_waiting sc lb :
  backoffRunning lb = true → waiting lb (set_previousServiceConfig sc lb).
Proof. intros H. split; [done| |done]. exists []. by rewrite app_nil_r. Qed.

Lemma onSuccessfulResolution_waiting eps sc err sel attrs lb :
  backoffRunning lb = true →
  waiting lb (onSuccessfulResolution eps sc err sel attrs lb).
Proof.
  intros H. unfold onSuccessfulResolution.
  set (step1 := match sc with Some _ => _ | None => _ end).
  assert (H1 : waiting lb step1.2).
  { subst step1. destruct sc as [sc|]; [by apply set_previousServiceConfig_waiting|].
    destruct err as [error|]; [|by apply set_previousServiceConfig_waiting].
    destruct (previousServiceConfig lb); [by apply waiting_refl|].
    by apply handleResolutionFailure_waiting. }
  destruct step1 as [working lb1]. simpl in H1.
  pose proof (w_running _ _ H1) as Hr.
  destruct (selectLbConfigFromList _ true) as [t|].
  - eapply waiting_trans; [exact H1|].
    eapply waiting_trans;
      [apply (emit_waiting (ChildUpdateAddressList eps t attrs)); done|].
    by apply emit_waiting.
  - eapply waiting_trans; [exact H1|]. by apply handleResolutionFailure_waiting.
Qed.

Lemma step_waiting lb e :
  backoffRunning lb = true → is_backoff_fired e = false →
  waiting lb (step lb e) ∧
  (is_reresolution e = true → continueResolving (step lb e) = true).
Proof.
  intros H He. destruct e; try done; simpl.
  - split; [|done]. by apply onSuccessfulResolution_waiting.
  - split; [|done]. by apply handleResolutionFailure_waiting.
  - split; [|done]. unfold childUpdateState.
    eapply waiting_trans; [|by apply updateState_waiting].
    split; [done| |done]. exists []. by rewrite app_nil_r.
  - unfold requestReresolution. rewrite H. split; [|done].
    split; [done| |done]. exists []. by rewrite app_nil_r.
  - split; [|done]. unfold exitIdle. rewrite H.
    destruct (_ || _).
    + eapply waiting_trans; [|by apply emit_waiting].
      split; [done| |done]. exists []. by rewrite app_nil_r.
    + by apply emit_waiting.
Qed.

Lemma steps_waiting events lb :
  backoffRunning lb = true → existsb is_backoff_fired events = false →
  waiting lb (fold_left step events lb) ∧
  (existsb is_reresolution events = true →
   continueResolving (fold_left step events lb) = true).
Proof.
  revert lb. induction events as [|e events IH]; intros lb H He; simpl in *.
  - split; [by apply waiting_refl|done].
  - apply orb_false_elim in He as [He Hes].
    destruct (step_waiting lb e H He) as [Hw Hc].
    destruct (IH (step lb e) (w_running _ _ Hw) Hes) as [Hw' Hc'].
    split; [by eapply waiting_trans|].
    intros [Hr|Hr]%orb_prop; [|by apply Hc'].
    apply (w_remembered _ _ Hw'). by apply Hc.
Qed.

(** X30. While the backoff timer runs, whatever else happens (resolutions,
    resolver errors, child state updates, re-resolution requests,
    [exitIdle]), the resolver is not asked to resolve again and the timer
    keeps running; a re-resolution requested meanwhile is remembered, and
    when the timer fires the resolver is asked once, [runOnce] is called on
    the timer and the request is forgotten. *)
Theorem reresolution_waits_for_backoff lb events :
  backoffRunning lb = true → existsb is_backoff_fired events = false →
  backoffRunning (fold_left step events lb) = true ∧
  existsb is_resolve (added lb (fold_left step events lb)) = false ∧
  (existsb is_reresolution events = true →
   ∃ published,
     added (fold_left step events lb)
           (step (fold_left step events lb) BackoffFired)
     = ResolverUpdateResolution :: published ++ [BackoffRunOnce] ∧
     existsb is_resolve published = false ∧
     continueResolving (step (fold_left step events lb) BackoffFired) = false).
Proof.
  intros H He. destruct (steps_waiting events lb H He) as [[Hr (more & Em & Hm) _] Hc].
  split; [done|]. split.
  { unfold added. by rewrite Em, drop_app_length. }
  intros Hre. specialize (Hc Hre).
  set (lb' := fold_left step events lb) in *.
  simpl. rewrite Hr. unfold onBackoff. simpl. rewrite Hc.
  unfold updateResolution, added. simpl.
  destruct (decide (currentState lb' = IDLE)); simpl.
  - eexists [_]. rewrite <- !app_assoc, drop_app_length. by repeat split.
  - exists []. rewrite <- !app_assoc, drop_app_length. by repeat split.
Qed.

End Balancer.

Arguments LB : clear implicits.
Arguments Event : clear implicits.
Arguments Effect : clear implicits.

(** A resolver and a child policy reduced to the bare minimum: every
    config list yields the one policy. *)
Definition pick_any (configs : list unit) (fallback : bool) : option unit := Some tt.

Definition no_config : ServiceConfig.ServiceConfig unit :=
  ServiceConfig.mkServiceConfig None [] [].
Definition round_robin_config : ServiceConfig.ServiceConfig unit :=
  ServiceConfig.mkServiceConfig (Some "round_robin") [tt] [].

Definition dns_failure : CallStream.StatusObject :=
  CallStream.mkStatus Status.UNAVAILABLE "Name resolution failed" Metadata.new.

(** The resolver was asked once and the timer runs; the child then asks for
    a re-resolution and reports READY. *)
Definition backing_off : LB unit unit unit unit unit unit :=
  run pick_any no_config [ExitIdle].

Lemma reresolution_waits_for_backoff_witness :
  backoffRunning backing_off = true ∧
  added backing_off (fold_left (step pick_any) [RequestReresolution; ChildState READY tt]
                       backing_off)
  = [ChannelUpdateState READY (PolicyPicker tt)] ∧
  continueResolving
    (step pick_any
       (fold_left (step pick_any) [RequestReresolution; ChildState READY tt] backing_off)
       BackoffFired) = false.
Proof.
  split; [reflexivity|]. split; [reflexivity|].
  destruct (reresolution_waits_for_backoff pick_any backing_off
              [RequestReresolution; ChildState READY tt] eq_refl eq_refl)
    as (_ & _ & H).
  destruct (H eq_refl) as (published & _ & _ & Hc). exact Hc.
Defined.

(** The resolver found no service config, the child went READY on the
    default one. *)
Definition ready_without_config : LB unit unit unit unit unit unit :=
  run pick_any no_config [Resolved [] None None None tt; ChildState READY tt].

(** The resolver found a service config, the child went READY on it. *)
Definition ready_with_config : LB unit unit unit unit unit unit :=
  run pick_any no_config
      [Resolved [] (Some round_robin_config) None None tt; ChildState READY tt].

(** C5 as first stated fails: no previous service config is stored, the
    resolver reports [(null, error)], and nothing surfaces: the channel
    stays READY, no TRANSIENT_FAILURE is published and the failure callback
    is not called; the child is updated with the default config instead. *)
Definition failure_after_ready : LB unit unit unit unit unit unit :=
  step pick_any ready_without_config (Resolved [] None (Some dns_failure) None tt).

Lemma unsurfaced_resolution_failure :
  previousServiceConfig ready_without_config = None ∧
  currentState failure_after_ready = READY ∧
  added ready_without_config failure_after_ready
  = [ ChildUpdateAddressList [] tt tt;
      OnSuccessfulResolution no_config (DefaultConfigSelector no_config) ] ∧
  (ChannelUpdateState TRANSIENT_FAILURE (UnavailablePicker dns_failure)
     ∉ effects failure_after_ready) ∧
  (OnFailedResolution dns_failure ∉ effects failure_after_ready).
Proof.
  split; [reflexivity|]. split; [reflexivity|]. split; [reflexivity|].
  split.
  - vm_compute. intros H. repeat (apply elem_of_cons in H as [H|H]; [discriminate H|]).
    inversion H.
  - vm_compute. intros H. repeat (apply elem_of_cons in H as [H|H]; [discriminate H|]).
    inversion H.
Qed.

Lemma service_config_error_handling_witness :
  previousServiceConfig ready_with_config = Some round_robin_config ∧
  pick_any (ServiceConfig.loadBalancingConfig round_robin_config) true = Some tt ∧
  onSuccessfulResolution pick_any [] None (Some dns_failure) None tt ready_with_config
  = emit (OnSuccessfulResolution round_robin_config
            (DefaultConfigSelector round_robin_config))
      (emit (ChildUpdateAddressList [] tt tt) ready_with_config).
Proof.
  split; [reflexivity|]. split; [reflexivity|].
  destruct (service_config_error_handling pick_any ready_with_config [] None tt)
    as (H & _).
  apply (H dns_failure round_robin_config tt); reflexivity.
Defined.

Example first_failure_surfaces :
  effects (run pick_any no_config [Resolved [] None (Some dns_failure) None tt]
             : LB unit unit unit unit unit unit)
  = [ ChannelUpdateState IDLE (QueuePicker (Some (QueuePicker None)));
      ChannelUpdateState TRANSIENT_FAILURE (UnavailablePicker dns_failure);
      OnFailedResolution dns_failure;
      ChildUpdateAddressList [] tt tt;
      OnSuccessfulResolution no_config (DefaultConfigSelector no_config) ].
Proof. reflexivity. Qed.

(** *** [getDefaultConfigSelector] *)

(** [String.prototype.split('/')] *)
Fixpoint split_slash (s : string) : list string :=
  match s with
  | EmptyString => [EmptyString]
  | String c s' =>
      let r := split_slash s' in
      if Ascii.eqb c "/" then EmptyString :: r
      else match r with
           | h :: t => String c h :: t
           | [] => [String c EmptyString]
           end
  end.

(** What a config selector returns. *)
Record CallConfig : Type := mkCallConfig {
  methodConfig : ServiceConfig.MethodConfig;
  pickInformation : list (string * string);
  status : Z;
  dynamicFilterFactories : list unit
}.

(** [name.service === service &&
     (name.method === undefined || name.method === method)] *)
Definition name_matches (service method : string)
    (name : ServiceConfig.MethodConfigName) : bool :=
  String.eqb (ServiceConfig.service name) service &&
  match ServiceConfig.method name with
  | None => true
  | Some m => String.eqb m method
  end.

(** The two nested loops, left at the first name that matches. *)
Fixpoint first_match (service method : string)
    (configs : list ServiceConfig.MethodConfig) : option ServiceConfig.MethodConfig :=
  match configs with
  | [] => None
  | methodConfig :: rest =>
      if existsb (name_matches service method) (ServiceConfig.name methodConfig)
      then Some methodConfig
      else first_match service method rest
  end.

(** The closure [getDefaultConfigSelector(serviceConfig)] returns. *)
Definition defaultConfigSelector {L} (serviceConfig : option (ServiceConfig.ServiceConfig L))
    (methodName : string) (metadata : Metadata.t) : CallConfig :=
  let splitName := filter (fun x => x ≠ EmptyString) (split_slash methodName) in
  let service := default EmptyString (splitName !! 0%nat) in
  let method := default EmptyString (splitName !! 1%nat) in
  let found :=
    match serviceConfig with
    | Some serviceConfig =>
        first_match service method (ServiceConfig.methodConfig serviceConfig)
    | None => None
    end in
  match found with
  | Some methodConfig => mkCallConfig methodConfig [] Status.OK []
  | None =>
      mkCallConfig (ServiceConfig.mkMethodConfig [] None None None None) [] Status.OK []
  end.

(** A name entry serves a method: same service, and the same method or
    none at all. *)
Definition serves (service method : string) (name : ServiceConfig.MethodConfigName)
  : Prop :=
  ServiceConfig.service name = service ∧
  (ServiceConfig.method name = None ∨ ServiceConfig.method name = Some method).

Definition slash_free (s : string) : Prop := "/"%char ∉ chars s.

Lemma name_matches_serves service method name :
  name_matches service method name = true ↔ serves service method name.
Proof.
  unfold name_matches, serves. rewrite andb_true_iff, String.eqb_eq.
  destruct (ServiceConfig.method name) as [m|].
  - rewrite String.eqb_eq. split; intros [? H]; split; try done.
    + right. by rewrite H.
    + destruct H as [|[= ->]]; done.
  - split; intros [? _]; split; auto.
Qed.

Lemma split_slash_free s : slash_free s → split_slash s = [s].
Proof.
  unfold slash_free. induction s as [|c s IH]; simpl; [done|].
  intros H. apply not_elem_of_cons in H as [Hc Hs].
  destruct (Ascii.eqb_spec c "/") as [->|_]; [done|]. by rewrite IH.
Qed.

Lemma split_slash_app s rest :
  slash_free s → split_slash (s +:+ "/" +:+ rest) = s :: split_slash rest.
Proof.
  unfold slash_free. induction s as [|c s IH]; simpl; [done|].
  intros H. apply not_elem_of_cons in H as [Hc Hs].
  destruct (Ascii.eqb_spec c "/") as [->|_]; [done|].
  change (s ++ String "/" rest)%string with (s +:+ "/" +:+ rest). by rewrite IH.
Qed.

Lemma method_path_segments s m :
  slash_free s → slash_free m → s ≠ EmptyString → m ≠ EmptyString →
  filter (fun x => x ≠ EmptyString) (split_slash ("/" +:+ s +:+ "/" +:+ m)) = [s; m] ∧
  filter (fun x => x ≠ EmptyString) (split_slash (s +:+ "/" +:+ m)) = [s; m].
Proof.
  intros Hs Hm Hs' Hm'.
  assert (H : filter (fun x => x ≠ EmptyString) (split_slash (s +:+ "/" +:+ m)) = [s; m]).
  { rewrite (split_slash_app s m Hs), (split_slash_free m Hm).
    rewrite filter_cons_True by done. by rewrite filter_cons_True by done. }
  split; [|done].
  change ("/" +:+ s +:+ "/" +:+ m) with (EmptyString +:+ "/" +:+ (s +:+ "/" +:+ m)).
  rewrite split_slash_app by (unfold slash_free; simpl; apply not_elem_of_nil).
  rewrite filter_cons_False by (intros H'; by apply H'). done.
Qed.

Lemma first_match_spec service method configs :
  (∀ before mc after,
     configs = before ++ mc :: after →
     Exists (serves service method) (ServiceConfig.name mc) →
     Forall (fun mc' => Forall (fun n => ¬ serves service method n)
                               (ServiceConfig.name mc')) before →
     first_match service method configs = Some mc) ∧
  (Forall (fun mc' => Forall (fun n => ¬ serves service method n)
                             (ServiceConfig.name mc')) configs →
   first_match service method configs = None).
Proof.
  assert (Hno : ∀ mc, Forall (fun n => ¬ serves service method n) (ServiceConfig.name mc) →
                      existsb (name_matches service method) (ServiceConfig.name mc) = false).
  { intros mc H. apply not_true_is_false. intros (n & Hin & Hn)%existsb_exists.
    apply name_matches_serves in Hn. rewrite Forall_forall in H.
    apply (H n); [|done]. by apply list_elem_of_In. }
  split.
  - intros before mc after -> Hex Hbefore.
    induction Hbefore as [|mc' before Hmc' _ IH]; simpl.
    + assert (existsb (name_matches service method) (ServiceConfig.name mc) = true) as ->; [|done].
      apply Exists_exists in Hex as (n & Hin & Hn). apply existsb_exists.
      exists n. split; [by apply list_elem_of_In|by apply name_matches_serves].
    + by rewrite (Hno mc' Hmc').
  - induction 1 as [|mc' configs Hmc' _ IH]; simpl; [done|].
    by rewrite (Hno mc' Hmc').
Qed.

(** X5. The default config selector, asked for the method [/service/method]
    (with or without the leading slash), answers with status OK and the
    FIRST method config, in the order of the service config's list, that
    has a name with this service and either this method or no method; a
    service-wide name listed earlier therefore wins over a later name for
    the very method.  When no name serves the method, or there is no
    service config, the answer is the empty method config [{name: []}]. *)
Theorem defaultConfigSelector_first_match {L}
    (serviceConfig : option (ServiceConfig.ServiceConfig L)) s m metadata :
  slash_free s → slash_free m → s ≠ EmptyString → m ≠ EmptyString →
  let answer := defaultConfigSelector serviceConfig ("/" +:+ s +:+ "/" +:+ m) metadata in
  defaultConfigSelector serviceConfig (s +:+ "/" +:+ m) metadata = answer ∧
  status answer = Status.OK ∧
  (∀ sc before mc after,
     serviceConfig = Some sc →
     ServiceConfig.methodConfig sc = before ++ mc :: after →
     Exists (serves s m) (ServiceConfig.name mc) →
     Forall (fun mc' => Forall (fun n => ¬ serves s m n) (ServiceConfig.name mc')) before →
     methodConfig answer = mc) ∧
  ((∀ sc, serviceConfig = Some sc →
      Forall (fun mc' => Forall (fun n => ¬ serves s m n) (ServiceConfig.name mc'))
             (ServiceConfig.methodConfig sc)) →
   methodConfig answer = ServiceConfig.mkMethodConfig [] None None None None).
Proof.
  intros Hs Hm Hs' Hm'.
  destruct (method_path_segments s m Hs Hm Hs' Hm') as [Hp Hq].
  unfold defaultConfigSelector. rewrite Hp, Hq. simpl.
  split; [done|]. split.
  { destruct serviceConfig as [sc|]; [|done].
    by destruct (first_match s m (ServiceConfig.methodConfig sc)). }
  split.
  - intros sc before mc after -> Hsplit Hex Hbefore.
    by rewrite (proj1 (first_match_spec s m _) before mc after Hsplit Hex Hbefore).
  - intros Hnone. destruct serviceConfig as [sc|]; [|done].
    by rewrite (proj2 (first_match_spec s m _) (Hnone sc eq_refl)).
Qed.

(** A service config whose first entry covers the whole service [echo.Echo]
    and whose second entry names the method [Say]. *)
Definition whole_service : ServiceConfig.MethodConfig :=
  ServiceConfig.mkMethodConfig [ServiceConfig.mkName "echo.Echo" None]
    None (Some "10s") None None.
Definition say_method : ServiceConfig.MethodConfig :=
  ServiceConfig.mkMethodConfig [ServiceConfig.mkName "echo.Echo" (Some "Say")]
    None (Some "1s") None None.
Definition shadowing_config : ServiceConfig.ServiceConfig unit :=
  ServiceConfig.mkServiceConfig None [] [whole_service; say_method].

Lemma defaultConfigSelector_first_match_witness :
  methodConfig (defaultConfigSelector (Some shadowing_config) "/echo.Echo/Say" Metadata.new)
  = whole_service.
Proof.
  assert (H1 : slash_free "echo.Echo") by (unfold slash_free; compute_done).
  assert (H2 : slash_free "Say") by (unfold slash_free; compute_done).
  destruct (defaultConfigSelector_first_match (Some shadowing_config)
              "echo.Echo" "Say" Metadata.new H1 H2) as (_ & _ & H & _);
    [discriminate|discriminate|].
  apply (H shadowing_config [] whole_service [say_method] eq_refl eq_refl).
  - apply Exists_cons_hd. split; [reflexivity|by left].
  - constructor.
Defined.

End ResolvingLB.
